(** * ChatSift logs transport: a shallow embedding and its properties

    The development follows the two TypeScript sources of the transport:
    - [LazyIter.ts]: the peekable buffered stream ([Module LazyIter]);
    - [index.ts]: the line classifier, the batch buffer and the flush driver
      ([Module Transport]).

    JavaScript values are embedded as a small inductive type; the facilities
    of the JavaScript engine that the transport calls but does not define
    ([JSON.parse], [ToString], [Date.parse], the wall clock) are gathered in
    a [Runtime] record over which every definition and theorem is
    parametric.  A reference runtime ([Node.runtime]) is provided to run the
    definitions on concrete inputs. *)

From Stdlib Require Import String Ascii List ZArith QArith Qabs Qround Bool Lia DecimalString.
Import ListNotations.
Close Scope Q_scope.
Open Scope string_scope.
Open Scope list_scope.

(** ** Strings *)

Module Str.

(** The double quote and line feed characters. *)
Definition dquote : ascii := "034"%char.
Definition LF : ascii := "010"%char.
Definition newline : string := String LF EmptyString.

(** [String.prototype.toLowerCase], on the ASCII letters.  Lines are held
    as byte strings (the UTF-8 text read from standard input); the
    Unicode case mappings outside ASCII neither produce nor remove the
    characters [e], [r], [o], [:] and space, which are the only ones the
    transport looks for after lowering. *)
Definition lower_ascii (c : ascii) : ascii :=
  let n := nat_of_ascii c in
  if (65 <=? n)%nat && (n <=? 90)%nat then ascii_of_nat (n + 32) else c.

Fixpoint toLowerCase (s : string) : string :=
  match s with
  | EmptyString => EmptyString
  | String c s' => String (lower_ascii c) (toLowerCase s')
  end.

(** [s.startsWith(p)] *)
Fixpoint startsWith (p s : string) : bool :=
  match p, s with
  | EmptyString, _ => true
  | String a p', String b s' => Ascii.eqb a b && startsWith p' s'
  | String _ _, EmptyString => false
  end.

(** [s.includes(p)] *)
Fixpoint includes (p s : string) : bool :=
  startsWith p s ||
  match s with
  | EmptyString => false
  | String _ s' => includes p s'
  end.

(** [parts.join(sep)] for an array of strings. *)
Definition join (sep : string) (parts : list string) : string :=
  String.concat sep parts.

(** [s.split(sep)] for a one-character separator: the pieces between
    the separators, always at least one piece. *)
Fixpoint split_aux (sep : ascii) (acc : string) (s : string) : list string :=
  match s with
  | EmptyString => [acc]
  | String c s' =>
      if Ascii.eqb c sep then acc :: split_aux sep EmptyString s'
      else split_aux sep (acc ++ String c EmptyString) s'
  end.

Definition split (sep : ascii) (s : string) : list string :=
  split_aux sep EmptyString s.

(** Decimal numeral of an integer, as [String(n)] prints it. *)
Definition of_Z (n : Z) : string := NilZero.string_of_int (Z.to_int n).

(** Decimal numeral of a natural number below [10^width], zero padded. *)
Fixpoint pad (width : nat) (n : Z) : string :=
  match width with
  | O => EmptyString
  | S w => pad w (n / 10) ++ String (ascii_of_nat (48 + Z.to_nat (n mod 10))) EmptyString
  end.

Definition is_empty (s : string) : bool :=
  match s with EmptyString => true | _ => false end.

End Str.

(** ** JavaScript values *)

Module JS.

#[local] Set Warnings "-register-all".

(** The values the transport handles: what [JSON.parse] returns, plus
    [undefined] and the built-in members of [Object.prototype] that a
    property read can reach.  A number is held as the exact rational value
    of its numeral (the rounding to a double is not modelled). *)
Inductive Value : Type :=
| Undefined
| Null
| Bool (b : bool)
| Num (q : Q)
| Str (s : string)
| Arr (items : list Value)
| Obj (props : list (string * Value))
| Builtin (name : string).

(** An object: its own properties in the order they were written.
    (The engine lists keys that are array indices first; the order of the
    properties plays no part in what follows.) *)
Definition Object := list (string * Value).

Fixpoint get (k : string) (o : Object) : option Value :=
  match o with
  | [] => None
  | (k', v) :: o' => if String.eqb k k' then Some v else get k o'
  end.

Definition has (k : string) (o : Object) : bool :=
  match get k o with Some _ => true | None => false end.

(** [o[k]]: the own property, [undefined] when absent (for the keys
    used here, none of which is inherited). *)
Definition read (k : string) (o : Object) : Value :=
  match get k o with Some v => v | None => Undefined end.

(** [o[k] = v]: overwrite in place, or add at the end. *)
Fixpoint set (k : string) (v : Value) (o : Object) : Object :=
  match o with
  | [] => [(k, v)]
  | (k', v') :: o' =>
      if String.eqb k k' then (k', v) :: o' else (k', v') :: set k v o'
  end.

(** The rest of a destructuring pattern that takes [k] out. *)
Definition remove (k : string) (o : Object) : Object :=
  filter (fun kv => negb (String.eqb k (fst kv))) o.

(** An object literal or spread: the properties written left to right. *)
Definition assign (o extra : Object) : Object :=
  fold_left (fun acc kv => set (fst kv) (snd kv) acc) extra o.

Definition literal (props : Object) : Object := assign [] props.

(** Truthiness ([ToBoolean]). *)
Definition truthy (v : Value) : bool :=
  match v with
  | Undefined | Null => false
  | Bool b => b
  | Num q => negb (Qeq_bool q 0)
  | Str s => negb (Str.is_empty s)
  | Arr _ | Obj _ | Builtin _ => true
  end.

(** [a ?? b] *)
Definition nullish (a b : Value) : Value :=
  match a with
  | Undefined | Null => b
  | _ => a
  end.

(** [v === Str s] *)
Definition is_string (s : string) (v : Value) : bool :=
  match v with
  | Str s' => String.eqb s' s
  | _ => false
  end.

(** Exceptions. *)
Inductive Exn : Type :=
| SyntaxError
| TypeError
| RangeError
| Error (message : string).

(** The names of the own properties of [Object.prototype]. *)
Definition Object_prototype : list string :=
  [ "constructor"; "__defineGetter__"; "__defineSetter__"; "hasOwnProperty";
    "__lookupGetter__"; "__lookupSetter__"; "isPrototypeOf";
    "propertyIsEnumerable"; "toString"; "valueOf"; "__proto__";
    "toLocaleString" ].

(** [k in v] for the two keys the transport tests, ["time"] and
    ["level"]: neither is an array index, ["length"] or a member of a
    built-in prototype, so only the own properties of a plain object
    count.  On a primitive the operator throws. *)
Definition in_ (k : string) (v : Value) : Exn + bool :=
  match v with
  | Obj o => inr (has k o)
  | Arr _ | Builtin _ => inr false
  | Undefined | Null | Bool _ | Num _ | Str _ => inl TypeError
  end.

(** [v.k] on a value that is neither [undefined] nor [null], for a key
    that no prototype defines. *)
Definition member (k : string) (v : Value) : Value :=
  match v with
  | Obj o => read k o
  | _ => Undefined
  end.

End JS.


(** ** The engine facilities used by the transport *)

(** What the transport calls but does not define.
    - [JSON_parse s] is [JSON.parse(s)]; [None] stands for the [SyntaxError].
    - [ToString v] is the text the engine gives a number
      ([Number::toString]) or a built-in function; the conversion of the
      other values is [to_string] below.
    - [Date_parse s] is [Date.parse(s)]; [None] stands for [NaN].
    - [Date_now_ISO n] is the text of the [n]-th evaluation of
      [new Date().toISOString()] since start-up.
    - [Error_stack e] is the [stack] text of the error [e] when the
      engine throws it inside [flush]. *)
Record Runtime : Type := {
  JSON_parse : string -> option JS.Value;
  ToString : JS.Value -> string;
  Date_parse : string -> option Z;
  Date_now_ISO : nat -> string;
  Error_stack : JS.Exn -> string
}.

(** ** Conversion to a string *)

(** [ToString(v)], as a template literal, a property key and
    [new Date(v)] apply it to the values [JSON.parse] returns.  An object
    goes through its [toString]: the one of [Object.prototype] unless the
    object has an own property of that name, which, as a parsed value, is
    no function; [valueOf] then gives no primitive either, and the
    conversion throws a [TypeError].  An array joins the conversions of
    its elements with commas, [null] counting as the empty string. *)
Fixpoint to_string (rt : Runtime) (v : JS.Value) : JS.Exn + string :=
  match v with
  | JS.Str s => inr s
  | JS.Undefined => inr "undefined"
  | JS.Null => inr "null"
  | JS.Bool true => inr "true"
  | JS.Bool false => inr "false"
  | JS.Num _ | JS.Builtin _ => inr (ToString rt v)
  | JS.Obj o =>
      if JS.has "toString" o then inl JS.TypeError else inr "[object Object]"
  | JS.Arr items =>
      (fix join (items : list JS.Value) : JS.Exn + string :=
         match items with
         | [] => inr EmptyString
         | item :: rest =>
             let element :=
               match item with
               | JS.Undefined | JS.Null => inr EmptyString
               | _ => to_string rt item
               end in
             match element, rest with
             | inl e, _ => inl e
             | inr text, [] => inr text
             | inr text, _ :: _ =>
                 match join rest with
                 | inl e => inl e
                 | inr texts => inr (text ++ "," ++ texts)%string
                 end
             end
         end) items
  end.

(** ** Dates *)

Module Date.

Definition msPerDay : Z := 86400000.

(** The largest time value, 100,000,000 days from the epoch. *)
Definition maxTime : Z := 8640000000000000.

(** [TimeClip]: a time value out of range is [NaN], a fractional one is
    truncated toward zero. *)
Definition TimeClip (q : Q) : option Z :=
  if Qle_bool (Qabs q) (inject_Z maxTime)
  then Some (Z.quot (Qnum q) (Zpos (Qden q)))
  else None.

Definition TimeClipZ (t : Z) : option Z :=
  if (Z.abs t <=? maxTime)%Z then Some t else None.

(** Year, month and day of the proleptic Gregorian calendar for a day
    number counted from 1970-01-01. *)
Definition civil (days : Z) : Z * Z * Z :=
  let z := (days + 719468)%Z in
  let era := (z / 146097)%Z in
  let doe := (z - era * 146097)%Z in
  let yoe := ((doe - doe / 1460 + doe / 36524 - doe / 146096) / 365)%Z in
  let doy := (doe - (365 * yoe + yoe / 4 - yoe / 100))%Z in
  let mp := ((5 * doy + 2) / 153)%Z in
  let d := (doy - (153 * mp + 2) / 5 + 1)%Z in
  let m := (if mp <? 10 then mp + 3 else mp - 9)%Z in
  let y := (yoe + era * 400 + (if m <=? 2 then 1 else 0))%Z in
  (y, m, d).

Definition year_string (y : Z) : string :=
  if ((0 <=? y) && (y <=? 9999))%Z then Str.pad 4 y
  else (if (y <? 0)%Z then "-" else "+") ++ Str.pad 6 (Z.abs y).

(** [Date.prototype.toISOString] on a valid time value. *)
Definition toISOString (tv : Z) : string :=
  let days := (tv / msPerDay)%Z in
  let ms := (tv mod msPerDay)%Z in
  let '(y, m, d) := civil days in
  year_string y ++ "-" ++ Str.pad 2 m ++ "-" ++ Str.pad 2 d ++ "T"
  ++ Str.pad 2 (ms / 3600000) ++ ":" ++ Str.pad 2 ((ms / 60000) mod 60) ++ ":"
  ++ Str.pad 2 ((ms / 1000) mod 60) ++ "." ++ Str.pad 3 (ms mod 1000) ++ "Z".

(** The time value of a string. *)
Definition of_text (rt : Runtime) (s : string) : option Z :=
  match Date_parse rt s with Some t => TimeClipZ t | None => None end.

(** The time value of [new Date(v)] for one argument; [None] is the
    invalid date.  A primitive other than a string goes through
    [ToNumber]; an array or an object is first turned into a string,
    which can throw. *)
Definition construct (rt : Runtime) (v : JS.Value) : JS.Exn + option Z :=
  match v with
  | JS.Num q => inr (TimeClip q)
  | JS.Bool b => inr (Some (if b then 1 else 0)%Z)
  | JS.Null => inr (Some 0%Z)
  | JS.Undefined => inr None
  | JS.Str s => inr (of_text rt s)
  | JS.Arr _ | JS.Obj _ | JS.Builtin _ =>
      match to_string rt v with
      | inl e => inl e
      | inr s => inr (of_text rt s)
      end
  end.

(** [new Date(v).toISOString()], which throws on an invalid date. *)
Definition ISO_of (rt : Runtime) (v : JS.Value) : JS.Exn + string :=
  match construct rt v with
  | inl e => inl e
  | inr (Some tv) => inr (toISOString tv)
  | inr None => inl JS.RangeError
  end.

End Date.

(** ** Results of asynchronous calls *)

(** An awaited call returns, throws, or stays pending for ever. *)
Inductive Outcome (A : Type) : Type :=
| Returned (a : A)
| Thrown (e : JS.Exn)
| Pending.

Arguments Returned {A} a.
Arguments Thrown {A} e.
Arguments Pending {A}.

(** ** LazyIter: the peekable buffered stream *)

Module LazyIter.

(** What [iter.next()] of the wrapped iterator resolves to. *)
Record IteratorResult (TRaw : Type) : Type := {
  value : option TRaw;
  done : bool
}.

Arguments value {TRaw} _.
Arguments done {TRaw} _.

(** The wrapped iterator: the results it has yet to resolve, oldest
    first, and whether it has reported completion.  Once out of results
    it reports completion.  The sources described are thus those that
    settle every pull and come to an end, as standard input does once it is
    closed; one that stays open and silent for ever, or whose pull rejects,
    is not among them, and what is proved of a stream is proved for a
    source that ends. *)
Record Source (TRaw : Type) : Type := {
  pending : list (IteratorResult TRaw);
  completed : bool
}.

Arguments pending {TRaw} _.
Arguments completed {TRaw} _.

(** The promises the pull loop settles: a waiting [peek] is resolved, a
    waiting [next] is resolved or rejected. *)
Inductive Settled : Type :=
| PeekResolved
| NextResolved
| NextRejected.

Section Class.

Variables T TRaw : Type.

(** [if (value)]: truthiness of a raw chunk. *)
Variable truthy : TRaw -> bool.

(** The constructor's [transformValue], with its result as an array (the
    loop wraps a single item into one). *)
Variable transformValue : TRaw -> list T.

(** The fields of the class, and the executions of [loop] that are
    alive, each suspended on [this.iter.next()].  The two waiter queues
    are held by their lengths. *)
Record t : Type := {
  priv_done : bool;
  priv_reading : bool;
  buffer : list T;
  peekWaitingPromises : nat;
  nextWaitingPromises : nat;
  iter : Source TRaw;
  loops : nat
}.

Definition with_buffer (b : list T) (s : t) : t :=
  {| priv_done := priv_done s; priv_reading := priv_reading s; buffer := b;
     peekWaitingPromises := peekWaitingPromises s;
     nextWaitingPromises := nextWaitingPromises s; iter := iter s;
     loops := loops s |}.

Definition with_iter (i : Source TRaw) (s : t) : t :=
  {| priv_done := priv_done s; priv_reading := priv_reading s;
     buffer := buffer s; peekWaitingPromises := peekWaitingPromises s;
     nextWaitingPromises := nextWaitingPromises s; iter := i;
     loops := loops s |}.

Definition with_reading (r : bool) (s : t) : t :=
  {| priv_done := priv_done s; priv_reading := r; buffer := buffer s;
     peekWaitingPromises := peekWaitingPromises s;
     nextWaitingPromises := nextWaitingPromises s; iter := iter s;
     loops := loops s |}.

Definition with_waiters (p n : nat) (s : t) : t :=
  {| priv_done := priv_done s; priv_reading := priv_reading s;
     buffer := buffer s; peekWaitingPromises := p;
     nextWaitingPromises := n; iter := iter s; loops := loops s |}.

Definition with_loops (l : nat) (s : t) : t :=
  {| priv_done := priv_done s; priv_reading := priv_reading s;
     buffer := buffer s; peekWaitingPromises := peekWaitingPromises s;
     nextWaitingPromises := nextWaitingPromises s; iter := iter s;
     loops := l |}.

(** [get done()] *)
Definition is_done (s : t) : bool :=
  priv_done s && match buffer s with [] => true | _ => false end.

(** [get reading()] *)
Definition reading (s : t) : bool := priv_reading s.

(** The state the constructor leaves: its [loop] has entered the
    [while] and waits for the first result. *)
Definition new (source : Source TRaw) : t :=
  {| priv_done := false; priv_reading := true; buffer := [];
     peekWaitingPromises := 0; nextWaitingPromises := 0; iter := source;
     loops := 1 |}.

(** [pause()].  A loop that is waiting for a result still takes that
    result before it sees the flag. *)
Definition pause (s : t) : t := with_reading false s.

(** [resume()]: one more execution of [loop] enters the [while]. *)
Definition resume (s : t) : bool * t :=
  if priv_done s then (false, s)
  else (true, with_loops (S (loops s)) (with_reading true s)).

(** [await this.iter.next()] *)
Definition pull (i : Source TRaw) : IteratorResult TRaw * Source TRaw :=
  match pending i with
  | [] => ({| value := None; done := true |}, {| pending := []; completed := true |})
  | r :: rest => (r, {| pending := rest; completed := completed i || done r |})
  end.

(** [queue.shift()?.resolve()] on a queue of the given length. *)
Definition shift_resolve (e : Settled) (n : nat) : nat * list Settled :=
  match n with
  | O => (O, [])
  | S n' => (n', [e])
  end.

(** The [for] loop over the transformed items. *)
Fixpoint push_items (items : list T) (s : t) : t * list Settled :=
  match items with
  | [] => (s, [])
  | item :: rest =>
      let s1 := with_buffer (buffer s ++ [item]) s in
      let '(p, e1) := shift_resolve PeekResolved (peekWaitingPromises s1) in
      let '(n, e2) := shift_resolve NextResolved (nextWaitingPromises s1) in
      let '(s2, es) := push_items rest (with_waiters p n s1) in
      (s2, e1 ++ e2 ++ es)
  end.

(** The body of [while (this.#reading)] in [loop], from the result of
    [this.iter.next()] on. *)
Definition loop_iteration (s : t) : t * list Settled :=
  let '(r, i') := pull (iter s) in
  let s0 := with_iter i' s in
  let '(s1, es) :=
    match value r with
    | Some raw => if truthy raw then push_items (transformValue raw) s0 else (s0, [])
    | None => (s0, [])
    end in
  if done r then
    ({| priv_done := true; priv_reading := false; buffer := buffer s1;
        peekWaitingPromises := 0; nextWaitingPromises := 0; iter := iter s1;
        loops := loops s1 |},
     es ++ repeat PeekResolved (peekWaitingPromises s1)
        ++ repeat NextRejected (nextWaitingPromises s1))
  else (s1, es).

(** One pass of a live loop: the body, then the test of the [while],
    where the loop ends if [#reading] is off. *)
Definition loop_pass (s : t) : t * list Settled :=
  let '(s', es) := loop_iteration s in
  (if priv_reading s' then s' else with_loops (pred (loops s')) s', es).

(** How a suspended caller leaves its [await]. *)
Inductive Wait : Type :=
| Woken (e : Settled) (s : t)
| Stalled (s : t)
| OutOfFuel.

(** The settlement of the waiter [pos] places from the head of its queue,
    among the settlements of one loop pass. *)
Fixpoint settlement (mine : Settled -> bool) (pos : nat) (es : list Settled)
  : Settled + nat :=
  match es with
  | [] => inr pos
  | e :: es' =>
      if mine e then
        match pos with
        | O => inl e
        | S pos' => settlement mine pos' es'
        end
      else settlement mine pos es'
  end.

(** A caller suspended on a promise it has queued: the live loops run
    until the promise is settled.  Once no loop is alive nothing settles
    it. *)
Fixpoint await (mine : Settled -> bool) (pos : nat) (fuel : nat) (s : t) : Wait :=
  match fuel with
  | O => OutOfFuel
  | S fuel' =>
      if (0 <? loops s)%nat then
        let '(s', es) := loop_pass s in
        match settlement mine pos es with
        | inl e => Woken e s'
        | inr pos' => await mine pos' fuel' s'
        end
      else Stalled s
  end.

Definition is_peek (e : Settled) : bool :=
  match e with PeekResolved => true | _ => false end.

Definition is_next (e : Settled) : bool :=
  match e with PeekResolved => false | _ => true end.

(** The queue a kind of caller waits in, and its settlements. *)
Definition queue (peeking : bool) (s : t) : nat :=
  if peeking then peekWaitingPromises s else nextWaitingPromises s.

Definition mine (peeking : bool) : Settled -> bool :=
  if peeking then is_peek else is_next.

(** [#done] is set only once the wrapped iterator has reported
    completion. *)
Definition done_is_sound (s : t) : Prop :=
  priv_done s = true -> completed (iter s) = true.

(** Passes that are enough for every pending result of the iterator. *)
Definition patience (s : t) : nat := S (length (pending (iter s))).

(** The items the stream can still deliver: those buffered and those of
    the chunks to come. *)
Definition yield (r : IteratorResult TRaw) : nat :=
  match value r with
  | Some raw => if truthy raw then length (transformValue raw) else 0
  | None => 0
  end.

Definition upcoming (s : t) : nat :=
  length (buffer s) + list_sum (map yield (pending (iter s))).

Definition exhausted : JS.Exn := JS.Error "No more items to consume".

(** [peek()] *)
Definition peek (s : t) : Outcome (option T) * t :=
  if is_done s then (Returned None, s)
  else
    match buffer s with
    | [] =>
        let s1 := with_waiters (S (peekWaitingPromises s)) (nextWaitingPromises s) s in
        match await is_peek (peekWaitingPromises s) (patience s1) s1 with
        | Woken _ s2 => (Returned (hd_error (buffer s2)), s2)
        | Stalled s2 => (Pending, s2)
        | OutOfFuel => (Pending, s1)
        end
    | item :: _ => (Returned (Some item), s)
    end.

(** [peekAnd(is)], the predicate written [is_] *)
Definition peekAnd (is_ : T -> bool) (s : t) : Outcome (option T) * t :=
  match peek s with
  | (Returned (Some peeked), s') =>
      (Returned (if is_ peeked then Some peeked else None), s')
  | r => r
  end.

(** [this.buffer.shift()!]: the head is there whenever this is reached
    (lemma [shift_defined] below); on an empty buffer the source would hand
    [undefined] to a caller typed for an item, which fails there. *)
Definition shift (s : t) : Outcome T * t :=
  match buffer s with
  | item :: rest => (Returned item, with_buffer rest s)
  | [] => (Thrown JS.TypeError, s)
  end.

(** [next()], from the call to its return, for a caller that is alone
    in waiting.  The caller resumes as soon as its promise is settled and
    shifts the buffer then; the waiters counted in the queues, if any, are
    settled by the loop but their own resumptions (which would shift
    before this caller's) are not played, so that the result is the
    source's only when no other waiter is queued. *)
Definition next (s : t) : Outcome T * t :=
  if is_done s then (Thrown exhausted, s)
  else
    match buffer s with
    | [] =>
        let s1 := with_waiters (peekWaitingPromises s) (S (nextWaitingPromises s)) s in
        match await is_next (nextWaitingPromises s) (patience s1) s1 with
        | Woken NextRejected s2 => (Thrown exhausted, s2)
        | Woken _ s2 => shift s2
        | Stalled s2 => (Pending, s2)
        | OutOfFuel => (Pending, s1)
        end
    | _ :: _ => shift s
    end.

(** [reads s xs s']: a caller that peeks and then takes the next item,
    again and again, gets the items [xs] in turn from the stream [s], be
    they buffered or still to arrive, and leaves the stream as [s']. *)
Inductive reads : t -> list T -> t -> Prop :=
| reads_nil (s : t) : reads s [] s
| reads_cons (s s1 s2 s' : t) (x : T) (xs : list T) :
    peek s = (Returned (Some x), s1) ->
    next s1 = (Returned x, s2) ->
    reads s2 xs s' ->
    reads s (x :: xs) s'.

(** The calls a stream receives, and a pass of its loop. *)
Inductive Call : Type :=
| CallPeek
| CallNext
| CallPause
| CallResume
| LoopPass.

Definition call (c : Call) (s : t) : t :=
  match c with
  | CallPeek => snd (peek s)
  | CallNext => snd (next s)
  | CallPause => pause s
  | CallResume => snd (resume s)
  | LoopPass => if (0 <? loops s)%nat then fst (loop_pass s) else s
  end.

Definition after (calls : list Call) (s : t) : t :=
  fold_left (fun s' c => call c s') calls s.

(** The items a result of the wrapped iterator adds to the buffer. *)
Definition contribution (r : IteratorResult TRaw) : list T :=
  match value r with
  | Some raw => if truthy raw then transformValue raw else []
  | None => []
  end.

(** The items of the results up to the one that reports completion,
    after which the loop pulls no more. *)
Fixpoint deliverable (rs : list (IteratorResult TRaw)) : list T :=
  match rs with
  | [] => []
  | r :: rs' => contribution r ++ (if done r then [] else deliverable rs')
  end.

(** What the stream has yet to hand out: the buffer, then what the loop
    is still to pull. *)
Definition items (s : t) : list T :=
  buffer s ++ (if priv_done s then [] else deliverable (pending (iter s))).

(** The stream once a consumer has queued its promise, no other
    being queued. *)
Definition waiting (peeking : bool) (s : t) : t :=
  with_waiters (if peeking then 1 else 0) (if peeking then 0 else 1) s.

(** A stream between two calls of its one consumer: nobody is waiting
    and, until it is done, it is reading with a loop alive. *)
Definition live (s : t) : Prop :=
  peekWaitingPromises s = 0
  /\ nextWaitingPromises s = 0
  /\ (priv_done s = false -> priv_reading s = true /\ 0 < loops s).

End Class.

Arguments priv_done {T TRaw} _.
Arguments priv_reading {T TRaw} _.
Arguments buffer {T TRaw} _.
Arguments peekWaitingPromises {T TRaw} _.
Arguments nextWaitingPromises {T TRaw} _.
Arguments iter {T TRaw} _.
Arguments with_buffer {T TRaw} _ _.
Arguments with_iter {T TRaw} _ _.
Arguments with_reading {T TRaw} _ _.
Arguments with_waiters {T TRaw} _ _ _.
Arguments with_loops {T TRaw} _ _.
Arguments loops {T TRaw} _.
Arguments loop_pass {T TRaw} _ _ _.
Arguments is_done {T TRaw} _.
Arguments reading {T TRaw} _.
Arguments new {T TRaw} _.
Arguments pause {T TRaw} _.
Arguments resume {T TRaw} _.
Arguments pull {TRaw} _.
Arguments push_items {T TRaw} _ _.
Arguments loop_iteration {T TRaw} _ _ _.
Arguments Woken {T TRaw} _ _.
Arguments Stalled {T TRaw} _.
Arguments OutOfFuel {T TRaw}.
Arguments await {T TRaw} _ _ _ _ _ _.
Arguments patience {T TRaw} _.
Arguments queue {T TRaw} _ _.
Arguments done_is_sound {T TRaw} _.
Arguments yield {T TRaw} _ _ _.
Arguments upcoming {T TRaw} _ _ _.
Arguments call {T TRaw} _ _ _ _.
Arguments reads {T TRaw} _ _ _ _ _.
Arguments contribution {T TRaw} _ _ _.
Arguments deliverable {T TRaw} _ _ _.
Arguments items {T TRaw} _ _ _.
Arguments live {T TRaw} _.
Arguments waiting {T TRaw} _ _.
Arguments reads_nil {T TRaw} _ _ _.
Arguments reads_cons {T TRaw} _ _ _ _ _ _ _ _ _ _ _.
Arguments after {T TRaw} _ _ _ _.
Arguments peek {T TRaw} _ _ _.
Arguments peekAnd {T TRaw} _ _ _ _.
Arguments shift {T TRaw} _.
Arguments next {T TRaw} _ _ _.

End LazyIter.

(** ** index.ts: classifier, batch buffer and flush driver *)

Module Transport.

Import JS.

(** *** Types *)

Inductive LogLevel : Type :=
| debug | error | fatal | info | trace | unknown | warn.

Definition LogLevel_name (l : LogLevel) : string :=
  match l with
  | debug => "debug"
  | error => "error"
  | fatal => "fatal"
  | info => "info"
  | trace => "trace"
  | unknown => "unknown"
  | warn => "warn"
  end.

Definition level_value (l : LogLevel) : Value := Str (LogLevel_name l).

(** [interface ErrLog] *)
Record ErrLog : Type := {
  err_message : string;
  err_stack : string;
  err_type : string
}.

(** [interface Log], open to further fields: an object whose properties
    include [datetime] and [level]. *)
Definition Log := Object.

(** An entry of the webhook message. *)
Record Embed : Type := {
  title : string;
  description : string
}.

(** The reply of the sink to a request: its status code, its
    [content-type] header and what reading its body as JSON or as text
    gives ([None] when the read rejects). *)
Record Response : Type := {
  statusCode : Z;
  content_type : option string;
  body_json : option Value;
  body_text : option string
}.

(** The result of executing the webhook: delivered, or an [Error]
    thrown with its [message], [name] and [stack]. *)
Inductive Webhook : Type :=
| Delivered
| Failed (message name stack : string).

(** *** Module state *)

(** [batch], [iter] and the observable traffic: how many times the clock
    has been read, the bodies posted to the sink (each held as the records
    that [JSON.stringify] was given) and the embeds sent to the webhook,
    oldest first. *)
Record World : Type := {
  batch : list Log;
  iter : LazyIter.t string string;
  clock : nat;
  posted : list (list Log);
  alerts : list (list Embed)
}.

Definition with_batch (b : list Log) (w : World) : World :=
  {| batch := b; iter := iter w; clock := clock w; posted := posted w;
     alerts := alerts w |}.

Definition with_iter (i : LazyIter.t string string) (w : World) : World :=
  {| batch := batch w; iter := i; clock := clock w; posted := posted w;
     alerts := alerts w |}.

Definition with_clock (c : nat) (w : World) : World :=
  {| batch := batch w; iter := iter w; clock := c; posted := posted w;
     alerts := alerts w |}.

Definition with_posted (p : list (list Log)) (w : World) : World :=
  {| batch := batch w; iter := iter w; clock := clock w; posted := p;
     alerts := alerts w |}.

Definition with_alerts (a : list (list Embed)) (w : World) : World :=
  {| batch := batch w; iter := iter w; clock := clock w; posted := posted w;
     alerts := a |}.

(** *** Asynchronous functions over the module state *)

Definition M (A : Type) : Type := World -> Outcome A * World.

Definition ret {A} (a : A) : M A := fun w => (Returned a, w).

Definition throw {A} (e : Exn) : M A := fun w => (Thrown e, w).

Definition bind {A B} (m : M A) (k : A -> M B) : M B :=
  fun w =>
    match m w with
    | (Returned a, w') => k a w'
    | (Thrown e, w') => (Thrown e, w')
    | (Pending, w') => (Pending, w')
    end.

(** [try { body } catch { handler }] *)
Definition try_catch {A} (body : M A) (handler : M A) : M A :=
  fun w =>
    match body w with
    | (Thrown _, w') => handler w'
    | r => r
    end.

Notation "x <- m ;; k" := (bind m (fun x => k))
  (at level 61, m at next level, right associativity).
Notation "m ;; k" := (bind m (fun _ => k))
  (at level 61, right associativity).

Section WithRuntime.

Variable rt : Runtime.

(** [process.env.SERVICE_NAME] *)
Variable SERVICE_NAME : string.

(** [new Date().toISOString()] *)
Definition now : M string :=
  fun w => (Returned (Date_now_ISO rt (clock w)), with_clock (S (clock w)) w).

(** [batch.push(log)] *)
Definition push (log : Log) : M unit :=
  fun w => (Returned tt, with_batch (batch w ++ [log]) w).

(** [const LEVELS_MAP] *)
Definition LEVELS_MAP : list (Z * LogLevel) :=
  [ (60, fatal); (50, error); (40, warn); (30, info); (20, debug); (10, trace) ]%Z.

(** The entry of [LEVELS_MAP] for an integer key. *)
Fixpoint table_entry (table : list (Z * LogLevel)) (n : Z) : option LogLevel :=
  match table with
  | [] => None
  | (k, l) :: table' => if (k =? n)%Z then Some l else table_entry table' n
  end.

(** The entry of [LEVELS_MAP] for a string key: the one whose integer is
    written that way. *)
Fixpoint table_entry_str (table : list (Z * LogLevel)) (key : string) : option LogLevel :=
  match table with
  | [] => None
  | (k, l) :: table' =>
      if String.eqb (Str.of_Z k) key then Some l else table_entry_str table' key
  end.

(** [LEVELS_MAP[level]].  A number reads the entry it is equal to: its
    property key is its canonical numeral, which is the numeral of an
    entry exactly then, and never the name of an inherited member.  Any
    other value is converted to a string key, which can also name a
    member inherited from [Object.prototype]. *)
Definition LEVELS_MAP_get (level : Value) : Exn + Value :=
  match level with
  | Num q =>
      inr (if Qeq_bool q (inject_Z (Qfloor q)) then
             match table_entry LEVELS_MAP (Qfloor q) with
             | Some l => level_value l
             | None => Undefined
             end
           else Undefined)
  | _ =>
      match to_string rt level with
      | inl e => inl e
      | inr key =>
          inr match table_entry_str LEVELS_MAP key with
              | Some l => level_value l
              | None =>
                  if existsb (String.eqb key) Object_prototype then Builtin key
                  else Undefined
              end
      end
  end.

(** [isValidJson] *)
Definition isValidJson (line : string) : bool :=
  match JSON_parse rt line with
  | Some _ => true
  | None => false
  end.

(** The record [handleLog] writes when it finds a [name]. *)
Definition name_warning (datetime : string) (log : Log) : Log :=
  literal
    [ ("datetime", Str datetime);
      ("level", level_value warn);
      ("message", Str "Log has a name field, but that should be handled by the transport alone, ignoring");
      ("log", Obj log) ].

(** [handleLog], the recursion bounded by [depth]; [None] when the bound
    is reached. *)
Fixpoint handleLog_rec (depth : nat) (log : Log) (w : World)
  : option (Outcome unit * World) :=
  match depth with
  | O => None
  | S depth' =>
      let setName := read "name" log in
      let rest := remove "name" log in
      if truthy setName then
        match now w with
        | (Returned datetime, w1) =>
            match handleLog_rec depth' (name_warning datetime log) w1 with
            | Some (Returned _, w2) => Some (push rest w2)
            | other => other
            end
        | (Thrown e, w1) => Some (Thrown e, w1)
        | (Pending, w1) => Some (Pending, w1)
        end
      else Some (push rest w)
  end.

(** [handleLog].  The warning it recurses on has no [name], so the
    recursion is two calls deep at most (lemma [handleLog_unfold]). *)
Definition handleLog (log : Log) : M unit :=
  fun w =>
    match handleLog_rec 2 log w with
    | Some r => r
    | None => (Pending, w)
    end.

(** The record [handleInvalid] writes. *)
Definition missing_field_warning (datetime field : string) (log : Value) : Log :=
  literal
    [ ("datetime", Str datetime);
      ("level", level_value warn);
      ("message", Str ("Invalid log line, missing " ++ field ++ " field"));
      ("log", log) ].

(** [handleInvalid] *)
Definition handleInvalid (log : Value) (field : string) : M unit :=
  datetime <- now ;;
  handleLog (missing_field_warning datetime field log).

(** [JSON.parse(line)] *)
Definition parse (line : string) : M Value :=
  match JSON_parse rt line with
  | Some v => ret v
  | None => throw SyntaxError
  end.

(** ['field' in log] *)
Definition has_field (field : string) (log : Value) : M bool :=
  match in_ field log with
  | inl e => throw e
  | inr b => ret b
  end.

(** The own properties a destructuring pattern reads. *)
Definition properties (v : Value) : Object :=
  match v with
  | Obj o => o
  | _ => []
  end.

(** The object literal [final] of [handleLine]; evaluating its
    [datetime] can throw. *)
Definition final (log : Value) : M Log :=
  let o := properties log in
  let msg := read "msg" o in
  let time := read "time" o in
  let err := read "err" o in
  let level := read "level" o in
  let rest := remove "level" (remove "err" (remove "time" (remove "msg" o))) in
  match Date.ISO_of rt time with
  | inl e => throw e
  | inr datetime =>
      match LEVELS_MAP_get level with
      | inl e => throw e
      | inr name =>
          ret (assign rest
                 [ ("message", msg);
                   ("error", err);
                   ("datetime", Str datetime);
                   ("level", nullish name (level_value unknown)) ])
      end
  end.

(** The [try] block of [handleLine]. *)
Definition handleLine_try (line : string) : M unit :=
  log <- parse line ;;
  has_time <- has_field "time" log ;;
  if negb has_time then handleInvalid log "time"
  else
    has_level <- has_field "level" log ;;
    if negb has_level then handleInvalid log "level"
    else
      record <- final log ;;
      handleLog record.

(** [iter.peekAnd((line) => !isValidJson(line))] and [iter.next()] *)
Definition truthy_chunk (chunk : string) : bool := negb (Str.is_empty chunk).

Definition split_lines (chunk : string) : list string := Str.split Str.LF chunk.

Definition iter_peekAnd (is_ : string -> bool) : M (option string) :=
  fun w =>
    let '(r, s) := LazyIter.peekAnd truthy_chunk split_lines is_ (iter w) in
    (r, with_iter s w).

Definition iter_next : M string :=
  fun w =>
    let '(r, s) := LazyIter.next truthy_chunk split_lines (iter w) in
    (r, with_iter s w).

(** The lookahead loop of the [catch] block, bounded by [fuel]:
    [stackParts] once no further line is taken, [None] when the bound is
    reached. *)
Fixpoint lookahead (fuel : nat) (stackParts : list string) (w : World)
  : option (Outcome (list string) * World) :=
  match fuel with
  | O => None
  | S fuel' =>
      match iter_peekAnd (fun line => negb (isValidJson line)) w with
      | (Returned (Some next), w1) =>
          match iter_next w1 with
          | (Returned _, w2) => lookahead fuel' (stackParts ++ [next]) w2
          | (Thrown e, w2) => Some (Thrown e, w2)
          | (Pending, w2) => Some (Pending, w2)
          end
      | (Returned None, w1) => Some (Returned stackParts, w1)
      | (Thrown e, w1) => Some (Thrown e, w1)
      | (Pending, w1) => Some (Pending, w1)
      end
  end.

Definition collect (stackParts : list string) : M (list string) :=
  fun w =>
    match lookahead (S (LazyIter.upcoming truthy_chunk split_lines (iter w))) stackParts w with
    | Some r => r
    | None => (Pending, w)
    end.

Definition has_marker (line : string) : bool :=
  Str.includes "error: " (Str.toLowerCase line).

Definition crash_message : string :=
  "[unable to infer due to this being a hard crash]".

Definition ErrLog_value (e : ErrLog) : Value :=
  Obj (literal
         [ ("type", Str (err_type e));
           ("message", Str (err_message e));
           ("stack", Str (err_stack e)) ]).

(** The record built from a crash run. *)
Definition crash_log (datetime : string) (stackParts : list string) : Log :=
  literal
    [ ("level", level_value fatal);
      ("datetime", Str datetime);
      ("message", Str crash_message);
      ("error",
       ErrLog_value {| err_type := crash_message; err_message := crash_message;
                       err_stack := Str.join Str.newline stackParts |}) ].

(** The [catch] block of [handleLine]. *)
Definition handleLine_catch (line : string) : M unit :=
  stackParts <- collect [line] ;;
  if negb (existsb has_marker stackParts) then ret tt
  else
    datetime <- now ;;
    handleLog (crash_log datetime stackParts).

(** [handleLine] *)
Definition handleLine (line : string) : M unit :=
  try_catch (handleLine_try line) (handleLine_catch line).

(** The lines on which the [try] block throws: [JSON.parse] throws on
    the text, the [in] test throws on a primitive, the date made of
    [time] throws ([toISOString] on an invalid date, or a [time] with no
    primitive form), or [level] has no primitive form to make a key of
    [LEVELS_MAP] with. *)
Definition try_throws (line : string) : bool :=
  match JSON_parse rt line with
  | None => true
  | Some (Obj o) =>
      has "time" o && has "level" o
      && match Date.ISO_of rt (read "time" o) with
         | inl _ => true
         | inr _ =>
             match LEVELS_MAP_get (read "level" o) with
             | inl _ => true
             | inr _ => false
             end
         end
  | Some (Arr _) | Some (Builtin _) => false
  | Some (Undefined | Null | Bool _ | Num _ | Str _) => true
  end.

(** Where a run of lines that do not parse ends: at the end of the
    stream or before a line that parses. *)
Definition ends_run (rest : list string) : Prop :=
  match rest with
  | [] => True
  | v :: _ => JSON_parse rt v <> None
  end.

(** *** flush *)

(** Where an execution of [flush] is suspended: on the request to the
    sink, on the webhook, or nowhere once it has returned. *)
Inductive Suspended : Type :=
| AtRequest
| AtWebhook
| Finished.

(** [flush] up to [await request(...)]: nothing on an empty batch,
    otherwise the batch as it stands is serialised and posted. *)
Definition flush_begin : M Suspended :=
  fun w =>
    match batch w with
    | [] => (Returned Finished, w)
    | _ :: _ => (Returned AtRequest, with_posted (posted w ++ [batch w]) w)
    end.

(** The [response] field of the failure record. *)
Definition decode (r : Response) : Value :=
  let as_json :=
    match content_type r with
    | Some ct => Str.includes "application/json" ct
    | None => false
    end in
  if as_json then
    match body_json r with Some v => v | None => Null end
  else
    match body_text r with Some s => Str s | None => Null end.

Definition failure_log (datetime : string) (r : Response) : Log :=
  literal
    [ ("datetime", Str datetime);
      ("level", level_value fatal);
      ("message",
       Str ("Failed to send logs to Parseable, got status code " ++ Str.of_Z (statusCode r)));
      ("statusCode", Num (inject_Z (statusCode r)));
      ("response", decode r) ].

(** [log.level === 'fatal' || log.level === 'error'] *)
Definition is_alert (log : Log) : bool :=
  is_string "fatal" (read "level" log) || is_string "error" (read "level" log).

(** [log.error?.stack ?? log.message] *)
Definition alert_text (log : Log) : Value :=
  let stack :=
    match read "error" log with
    | Undefined | Null => Undefined
    | e => member "stack" e
    end in
  nullish stack (read "message" log).

Definition fence : string := "```".

(** The entry made of a record; the template literal of its
    [description] throws on a text with no primitive form. *)
Definition embed (log : Log) : Exn + Embed :=
  match to_string rt (alert_text log) with
  | inl e => inl e
  | inr text =>
      inr {| title :=
               if is_string "fatal" (read "level" log)
               then "Fatal error occured in service " ++ SERVICE_NAME
               else "Error occured in service " ++ SERVICE_NAME;
             description := fence ++ text ++ fence |}
  end.

(** [errors.map(...)]: the entries in the order of the records, up to
    the first throw. *)
Fixpoint embeds (errors : list Log) : Exn + list Embed :=
  match errors with
  | [] => inr []
  | log :: errors' =>
      match embed log with
      | inl e => inl e
      | inr entry =>
          match embeds errors' with
          | inl e => inl e
          | inr entries => inr (entry :: entries)
          end
      end
  end.

(** [batch.splice(0, batch.length)] *)
Definition clear : M unit :=
  fun w => (Returned tt, with_batch [] w).

Definition webhook_failure_log (datetime message name stack : string) : Log :=
  literal
    [ ("datetime", Str datetime);
      ("level", level_value warn);
      ("message", Str "Failed to send fatal logs to Discord");
      ("error",
       Obj (literal [ ("message", Str message); ("type", Str name); ("stack", Str stack) ])) ].

(** [flush] from the outcome of its [try] block to its end: the
    [catch] block on an error, then the [splice]. *)
Definition flush_webhook (h : Webhook) : M unit :=
  match h with
  | Delivered => ret tt
  | Failed message name stack =>
      datetime <- now ;; handleLog (webhook_failure_log datetime message name stack)
  end ;;
  clear.

(** The [TypeError] of an entry that cannot be made, as the [catch]
    block of [flush] receives it. *)
Definition unconvertible : Webhook :=
  Failed "Cannot convert object to primitive value" "TypeError"
    (Error_stack rt TypeError).

(** [flush] from the reply of the sink up to the webhook call, or to
    its end when there is nothing to alert about or when making the
    entries throws: the webhook is then not called, and the [catch] block
    runs on the [TypeError]. *)
Definition flush_response (r : Response) : M Suspended :=
  (if negb (statusCode r =? 200)%Z
   then datetime <- now ;; handleLog (failure_log datetime r)
   else ret tt) ;;
  fun w =>
    match filter is_alert (batch w) with
    | [] => (clear ;; ret Finished) w
    | errors =>
        match embeds errors with
        | inr entries => (Returned AtWebhook, with_alerts (alerts w ++ [entries]) w)
        | inl _ => (flush_webhook unconvertible ;; ret Finished) w
        end
    end.

(** [flush], told the reply of the sink and the result of the webhook. *)
Definition flush (r : Response) (h : Webhook) : M unit :=
  s <- flush_begin ;;
  match s with
  | Finished => ret tt
  | _ =>
      s' <- flush_response r ;;
      match s' with
      | Finished => ret tt
      | _ => flush_webhook h
      end
  end.

(** The driver loop running while [flush] is suspended: the records it
    hands to [handleLog] in the meantime. *)
Fixpoint logged (logs : list Log) : M unit :=
  match logs with
  | [] => ret tt
  | log :: logs' => handleLog log ;; logged logs'
  end.

(** [flush] on the timer, interleaved with the driver loop: the records
    logged while the request is in flight and while the webhook is. *)
Definition flush_interleaved (during_request : list Log) (r : Response)
  (during_webhook : list Log) (h : Webhook) : M unit :=
  s <- flush_begin ;;
  match s with
  | Finished => ret tt
  | _ =>
      logged during_request ;;
      s' <- flush_response r ;;
      match s' with
      | Finished => ret tt
      | _ => logged during_webhook ;; flush_webhook h
      end
  end.

(** *** The driver loop *)

(** The body of [while (!iter.done)], its errors swallowed. *)
Definition driver_iteration : M unit :=
  try_catch (item <- iter_next ;; handleLine item) (ret tt).

(** The loop, bounded by [fuel]. *)
Fixpoint driver (fuel : nat) (w : World) : option (Outcome unit * World) :=
  match fuel with
  | O => None
  | S fuel' =>
      if LazyIter.is_done (iter w) then Some (Returned tt, w)
      else
        match driver_iteration w with
        | (Returned _, w') => driver fuel' w'
        | r => Some r
        end
  end.

(** The end of the module body when the timer does not fire meanwhile:
    the driver loop, then the last [flush]. *)
Definition finish (fuel : nat) (r : Response) (h : Webhook) (w : World)
  : option (Outcome unit * World) :=
  match driver fuel w with
  | Some (Returned _, w') => Some (flush r h w')
  | other => other
  end.

(** The record [ensureStream] logs after creating the stream. *)
Definition stream_created_log (datetime : string) : Log :=
  literal
    [ ("datetime", Str datetime);
      ("level", level_value info);
      ("message", Str "Log stream created") ].

(** [handleLog({ datetime, level: 'info', message: 'Log stream created' })] *)
Definition log_stream_created : M unit :=
  datetime <- now ;; handleLog (stream_created_log datetime).

(** *** Start-up *)

(** [const REQUIRED_ENV_VARS] *)
Definition REQUIRED_ENV_VARS : list string :=
  [ "PARSEABLE_TOKEN"; "PARSEABLE_URL"; "SERVICE_NAME"; "DISCORD_WEBHOOK_ID";
    "DISCORD_WEBHOOK_TOKEN" ].

(** The [for] loop over the variables, [env] being [process.env]. *)
Fixpoint require_env (vars : list string) (env : Object) : Outcome unit :=
  match vars with
  | [] => Returned tt
  | envVar :: vars' =>
      if negb (has envVar env)
      then Thrown (Error (envVar ++ " environment variable is not set"))
      else require_env vars' env
  end.

Definition check_env (env : Object) : Outcome unit :=
  require_env REQUIRED_ENV_VARS env.

(** [streams.some((stream) => stream.name === process.env.SERVICE_NAME)]
    over the elements of an array; reading [name] off [null] throws. *)
Fixpoint some_named (streams : list Value) : Exn + bool :=
  match streams with
  | [] => inr false
  | stream :: streams' =>
      match stream with
      | Undefined | Null => inl TypeError
      | _ =>
          if is_string SERVICE_NAME (member "name" stream) then inr true
          else some_named streams'
      end
  end.

(** The webhook as [ensureStream] finds it.  The module declares
    [discord] after it has awaited [ensureStream]; until then evaluating
    [discord] throws a [ReferenceError], whose [stack] is [trace]. *)
Definition uninitialised (trace : string) : Webhook :=
  Failed "Cannot access 'discord' before initialization" "ReferenceError" trace.

(** [flush] as [ensureStream] runs it: the [try] block throws, on
    making the entries or else on reaching [discord], with nothing sent
    to the webhook. *)
Definition flush_at_startup (r : Response) (trace : string) : M unit :=
  s <- flush_begin ;;
  match s with
  | Finished => ret tt
  | _ =>
      (if negb (statusCode r =? 200)%Z
       then datetime <- now ;; handleLog (failure_log datetime r)
       else ret tt) ;;
      fun w =>
        match filter is_alert (batch w) with
        | [] => clear w
        | errors =>
            match embeds errors with
            | inr _ => flush_webhook (uninitialised trace) w
            | inl _ => flush_webhook unconvertible w
            end
        end
  end.

(** What [ensureStream] throws once a reply is not 200: its own error
    after printing the body, or the rejection of the read of the body. *)
Definition fail_with {A} (body : option A) (message : string) (rejection : Exn) : M unit :=
  match body with
  | Some _ => throw (Error message)
  | None => throw rejection
  end.

(** [ensureStream], told the replies of the sink to its requests: the
    list of streams, the creation, the first submission and the
    retention.  [rejection] is what a failed read of a body rejects
    with. *)
Definition ensureStream (listed created flushed retention : Response)
  (rejection : Exn) (trace : string) : M unit :=
  if negb (statusCode listed =? 200)%Z
  then fail_with (body_json listed) "Failed to get log streams" rejection
  else
    match body_json listed with
    | None => throw rejection
    | Some (Arr streams) =>
        match some_named streams with
        | inl e => throw e
        | inr true => ret tt
        | inr false =>
            if negb (statusCode created =? 200)%Z
            then fail_with (body_text created) "Failed to create log stream" rejection
            else
              log_stream_created ;;
              flush_at_startup flushed trace ;;
              if negb (statusCode retention =? 200)%Z
              then fail_with (body_text retention)
                     "Failed to setup log stream retention" rejection
              else ret tt
        end
    | Some _ => throw TypeError
    end.

(** *** What runs between two suspensions *)

(** The pieces of the program that touch the batch: the classifier on
    a line, a pass of the driver loop, the three stretches of [flush]
    between its requests, and the record of [ensureStream].  The timer
    interleaves the stretches of [flush] with the rest. *)
Inductive Operation : Type :=
| HandleLine (line : string)
| DriverPass
| FlushBegin
| FlushResponse (r : Response)
| FlushWebhook (h : Webhook)
| LogStreamCreated.

Definition exec (op : Operation) (w : World) : World :=
  match op with
  | HandleLine line => snd (handleLine line w)
  | DriverPass => snd (driver_iteration w)
  | FlushBegin => snd (flush_begin w)
  | FlushResponse r => snd (flush_response r w)
  | FlushWebhook h => snd (flush_webhook h w)
  | LogStreamCreated => snd (log_stream_created w)
  end.

Definition run (ops : list Operation) (w : World) : World :=
  fold_left (fun w' op => exec op w') ops w.

End WithRuntime.

(** The stream of a state with its buffer replaced. *)
Definition rebuffer (lines : list string) (w : World) : World :=
  with_iter (LazyIter.with_buffer lines (iter w)) w.

(** *** The specification's wording *)

(** The severity table as the specification lists it: 60 fatal, 50
    error, 40 warn, 30 info, 20 debug, 10 trace, anything else unknown. *)
Definition severity_name (severity : Q) : string :=
  if Qeq_bool severity (inject_Z 60) then "fatal"
  else if Qeq_bool severity (inject_Z 50) then "error"
  else if Qeq_bool severity (inject_Z 40) then "warn"
  else if Qeq_bool severity (inject_Z 30) then "info"
  else if Qeq_bool severity (inject_Z 20) then "debug"
  else if Qeq_bool severity (inject_Z 10) then "trace"
  else "unknown".

(** The fields of [source] outside [excluded] are in [emitted] with the
    same values, and no other field outside [excluded] is. *)
Definition carries_through (excluded : list string) (source emitted : Object) : Prop :=
  forall k, ~ In k excluded -> get k emitted = get k source.

(** A structured record as the glossary defines it: a line that parses
    as an object with numeric [level] and [time]. *)
Definition is_structured (rt : Runtime) (line : string) : bool :=
  match JSON_parse rt line with
  | Some (Obj o) =>
      match get "time" o, get "level" o with
      | Some (Num _), Some (Num _) => true
      | _, _ => false
      end
  | _ => false
  end.

(** A record with [datetime] and [level] and without [name]. *)
Definition well_formed (log : Log) : bool :=
  has "datetime" log && has "level" log && negb (has "name" log).

(** The batch of a state holds well-formed records only. *)
Definition batch_ok (w : World) : Prop :=
  forallb well_formed (batch w) = true.

(** [m] keeps the batch well formed, and what it returns satisfies [Q]. *)
Definition keeps {A} (Q : A -> Prop) (m : M A) : Prop :=
  forall w,
    batch_ok w ->
    batch_ok (snd (m w)) /\ (forall a, fst (m w) = Returned a -> Q a).

(** The module state at start-up, over the chunks standard input is
    going to deliver. *)
Definition start (chunks : list string) : World :=
  {| batch := [];
     iter := LazyIter.new
               {| LazyIter.pending :=
                    map (fun c => {| LazyIter.value := Some c; LazyIter.done := false |}) chunks;
                  LazyIter.completed := false |};
     clock := 0; posted := []; alerts := [] |}.

End Transport.

(** ** A reference runtime *)

(** An executable [Runtime], used to run the transport on concrete
    lines.  [JSON.parse] follows the JSON grammar over byte strings (an
    escape [\uXXXX] is stored as the UTF-8 bytes of that code unit);
    [Date.parse] recognises the interchange format that [toISOString]
    prints; the clock starts at a fixed instant and advances by one
    millisecond at each reading.

    It stands for the engine on the inputs of the examples and no
    further.  A number is the exact value of its numeral, where the engine
    rounds to a double; [Number_toString] prints that value in positional
    digits, where the engine rounds and turns to an exponent from 1e21;
    [Date_parse] takes the one format [toISOString] prints, where the
    engine takes others too.  The examples use integers that a double
    holds exactly and dates in that format or in none.  No theorem rests on
    this runtime: each one is stated for every [Runtime]. *)

Module Node.

Import JS.

Local Open Scope char_scope.

Definition is_ws (c : ascii) : bool :=
  match c with
  | " " | "009" | "010" | "013" => true
  | _ => false
  end.

Fixpoint skip_ws (s : string) : string :=
  match s with
  | String c s' => if is_ws c then skip_ws s' else s
  | EmptyString => s
  end.

Definition digit (c : ascii) : option Z :=
  let n := nat_of_ascii c in
  if (48 <=? n)%nat && (n <=? 57)%nat then Some (Z.of_nat (n - 48)) else None.

Definition hex (c : ascii) : option Z :=
  let n := nat_of_ascii c in
  if (48 <=? n)%nat && (n <=? 57)%nat then Some (Z.of_nat (n - 48))
  else if (65 <=? n)%nat && (n <=? 70)%nat then Some (Z.of_nat (n - 55))
  else if (97 <=? n)%nat && (n <=? 102)%nat then Some (Z.of_nat (n - 87))
  else None.

(** A run of digits: its value continuing [acc], its length and the rest
    of the text. *)
Fixpoint digits (acc : Z) (count : nat) (s : string) : Z * nat * string :=
  match s with
  | String c s' =>
      match digit c with
      | Some d => digits (acc * 10 + d) (S count) s'
      | None => (acc, count, s)
      end
  | EmptyString => (acc, count, s)
  end.

(** [m * 10^e] *)
Definition scale (m e : Z) : Q :=
  if (0 <=? e)%Z then inject_Z (m * 10 ^ e)
  else Qred (Qmake m (Z.to_pos (10 ^ (- e)))).

(** A JSON number after its optional sign. *)
Definition parse_unsigned (s : string) : option (Q * string) :=
  let int_part :=
    match s with
    | String "0" s' => Some (0%Z, s')
    | _ =>
        match digits 0 0 s with
        | (_, O, _) => None
        | (n, _, s') => Some (n, s')
        end
    end in
  match int_part with
  | None => None
  | Some (n, s1) =>
      let frac :=
        match s1 with
        | String "." s2 =>
            match digits n 0 s2 with
            | (_, O, _) => None
            | (m, k, s3) => Some (m, Z.of_nat k, s3)
            end
        | _ => Some (n, 0%Z, s1)
        end in
      match frac with
      | None => None
      | Some (m, k, s3) =>
          let exponent (negative : bool) (s4 : string) :=
            match digits 0 0 s4 with
            | (_, O, _) => None
            | (e, _, s5) => Some (scale m ((if negative then - e else e) - k), s5)
            end in
          match s3 with
          | String ("e" | "E") (String "-" s4) => exponent true s4
          | String ("e" | "E") (String "+" s4) => exponent false s4
          | String ("e" | "E") s4 => exponent false s4
          | _ => Some (scale m (- k), s3)
          end
      end
  end.

(** A JSON numeral, read as the exact rational it writes; the engine
    rounds it to the nearest double, which is that value for the integers
    and the short fractions of the examples. *)
Definition parse_number (s : string) : option (Q * string) :=
  match s with
  | String "-" s' =>
      match parse_unsigned s' with
      | Some (q, rest) => Some (Qopp q, rest)
      | None => None
      end
  | _ => parse_unsigned s
  end.

Definition byte (n : Z) : ascii := ascii_of_nat (Z.to_nat n).

(** The UTF-8 bytes of a code unit. *)
Definition utf8 (cp : Z) : string :=
  if (cp <? 128)%Z then String (byte cp) EmptyString
  else if (cp <? 2048)%Z then
    String (byte (192 + cp / 64)) (String (byte (128 + cp mod 64)) EmptyString)
  else
    String (byte (224 + cp / 4096))
      (String (byte (128 + (cp / 64) mod 64))
         (String (byte (128 + cp mod 64)) EmptyString)).

(** The characters of a JSON string after its opening quote. *)
Fixpoint parse_chars (acc : string) (s : string) : option (string * string) :=
  match s with
  | EmptyString => None
  | String c s' =>
      if Ascii.eqb c Str.dquote then Some (acc, s')
      else if (nat_of_ascii c <? 32)%nat then None
      else if Ascii.eqb c "\" then
        match s' with
        | String e s2 =>
            let plain (b : ascii) := parse_chars (acc ++ String b EmptyString) s2 in
            if Ascii.eqb e Str.dquote then plain Str.dquote
            else
              match e with
              | "\" => plain "\"
              | "/" => plain "/"
              | "b" => plain "008"
              | "f" => plain "012"
              | "n" => plain "010"
              | "r" => plain "013"
              | "t" => plain "009"
              | "u" =>
                  match s2 with
                  | String h1 (String h2 (String h3 (String h4 s3))) =>
                      match hex h1, hex h2, hex h3, hex h4 with
                      | Some a, Some b, Some c', Some d =>
                          parse_chars
                            (acc ++ utf8 (((a * 16 + b) * 16 + c') * 16 + d)%Z) s3
                      | _, _, _, _ => None
                      end
                  | _ => None
                  end
              | _ => None
              end
        | EmptyString => None
        end
      else parse_chars (acc ++ String c EmptyString) s'
  end.

Definition parse_literal (word : string) (v : Value) (s : string)
  : option (Value * string) :=
  if Str.startsWith word s
  then Some (v, substring (String.length word) (String.length s - String.length word) s)
  else None.

(** A JSON value, and the inside of an array or of an object after an
    element; [fuel] bounds the nesting and the number of elements. *)
Fixpoint parse_value (fuel : nat) (s : string) : option (Value * string) :=
  match fuel with
  | O => None
  | S fuel' =>
      match skip_ws s with
      | String "{" s1 =>
          match skip_ws s1 with
          | String "}" s2 => Some (Obj [], s2)
          | _ => parse_members fuel' [] s1
          end
      | String "[" s1 =>
          match skip_ws s1 with
          | String "]" s2 => Some (Arr [], s2)
          | _ => parse_elements fuel' [] s1
          end
      | String "t" _ as s1 => parse_literal "true" (Bool true) s1
      | String "f" _ as s1 => parse_literal "false" (Bool false) s1
      | String "n" _ as s1 => parse_literal "null" Null s1
      | String c s1 as s0 =>
          if Ascii.eqb c Str.dquote then
            match parse_chars EmptyString s1 with
            | Some (text, rest) => Some (Str text, rest)
            | None => None
            end
          else
            match parse_number s0 with
            | Some (q, rest) => Some (Num q, rest)
            | None => None
            end
      | EmptyString => None
      end
  end
with parse_members (fuel : nat) (acc : Object) (s : string) : option (Value * string) :=
  match fuel with
  | O => None
  | S fuel' =>
      match skip_ws s with
      | String c s1 =>
          if Ascii.eqb c Str.dquote then
            match parse_chars EmptyString s1 with
            | Some (key, s2) =>
                match skip_ws s2 with
                | String ":" s3 =>
                    match parse_value fuel' s3 with
                    | Some (v, s4) =>
                        let acc' := set key v acc in
                        match skip_ws s4 with
                        | String "," s5 => parse_members fuel' acc' s5
                        | String "}" s5 => Some (Obj acc', s5)
                        | _ => None
                        end
                    | None => None
                    end
                | _ => None
                end
            | None => None
            end
          else None
      | EmptyString => None
      end
  end
with parse_elements (fuel : nat) (acc : list Value) (s : string) : option (Value * string) :=
  match fuel with
  | O => None
  | S fuel' =>
      match parse_value fuel' s with
      | Some (v, s1) =>
          match skip_ws s1 with
          | String "," s2 => parse_elements fuel' (acc ++ [v]) s2
          | String "]" s2 => Some (Arr (acc ++ [v]), s2)
          | _ => None
          end
      | None => None
      end
  end.

(** [JSON.parse] *)
Definition JSON_parse (s : string) : option Value :=
  match parse_value (S (String.length s)) s with
  | Some (v, rest) =>
      match skip_ws rest with
      | EmptyString => Some v
      | _ => None
      end
  | None => None
  end.

Local Close Scope char_scope.

(** The digits of [r / d] after the decimal point, [r < d]. *)
Fixpoint fraction (fuel : nat) (r d : Z) : string :=
  match fuel with
  | O => EmptyString
  | S fuel' =>
      if (r =? 0)%Z then EmptyString
      else Str.pad 1 (r * 10 / d) ++ fraction fuel' ((r * 10) mod d) d
  end.

(** [Number::toString] in positional notation: the engine's text for
    an integer below 1e21 and for a short decimal fraction. *)
Definition Number_toString (q : Q) : string :=
  let n := Z.abs (Qnum q) in
  let d := Zpos (Qden q) in
  let frac := fraction 30 (n mod d) d in
  (if (Qnum q <? 0)%Z then "-" else EmptyString)
  ++ Str.of_Z (n / d)
  ++ (if Str.is_empty frac then EmptyString else "." ++ frac).

(** The text of a value; the transport asks it of numbers and of
    built-in functions only (see [to_string]). *)
Fixpoint ToString (v : Value) : string :=
  match v with
  | Undefined => "undefined"
  | Null => "null"
  | Bool true => "true"
  | Bool false => "false"
  | Num q => Number_toString q
  | Str s => s
  | Arr items =>
      Str.join ","
        (map (fun item =>
                match item with
                | Undefined | Null => EmptyString
                | _ => ToString item
                end) items)
  | Obj _ => "[object Object]"
  | Builtin name => "function " ++ name ++ "() { [native code] }"
  end.

(** The day number of a date of the proleptic Gregorian calendar. *)
Definition days_from_civil (y m d : Z) : Z :=
  let y' := (if m <=? 2 then y - 1 else y)%Z in
  let era := (y' / 400)%Z in
  let yoe := (y' - era * 400)%Z in
  let doy := ((153 * (if 2 <? m then m - 3 else m + 9) + 2) / 5 + d - 1)%Z in
  let doe := (yoe * 365 + yoe / 4 - yoe / 100 + doy)%Z in
  (era * 146097 + doe - 719468)%Z.

Definition number_at (start len : nat) (s : string) : Z :=
  fst (fst (digits 0 0 (substring start len s))).

(** [Date.parse] of [YYYY-MM-DDTHH:mm:ss.sssZ]: the fields are read at
    their places and the text is accepted when it is what [toISOString]
    prints for the instant they give.  Any other text is [NaN] here; the
    engine also takes shorter forms, offsets and formats of its own. *)
Definition Date_parse (s : string) : option Z :=
  let tv :=
    (days_from_civil (number_at 0 4 s) (number_at 5 2 s) (number_at 8 2 s) * Date.msPerDay
     + number_at 11 2 s * 3600000 + number_at 14 2 s * 60000
     + number_at 17 2 s * 1000 + number_at 20 3 s)%Z in
  if String.eqb (Date.toISOString tv) s then Some tv else None.

Definition epoch : Z := 1700000000000.

Definition Date_now_ISO (n : nat) : string :=
  Date.toISOString (epoch + Z.of_nat n).

(** The [stack] of an error: its name and message, then the frame. *)
Definition Error_stack (e : Exn) : string :=
  (match e with
   | SyntaxError => "SyntaxError"
   | TypeError => "TypeError: Cannot convert object to primitive value"
   | RangeError => "RangeError: Invalid time value"
   | Error message => "Error: " ++ message
   end ++ Str.newline ++ "    at flush")%string.

Definition runtime : Runtime :=
  Build_Runtime JSON_parse ToString Date_parse Date_now_ISO Error_stack.

(** JSON text written with single quotes for the double ones. *)
Fixpoint json (s : string) : string :=
  match s with
  | EmptyString => EmptyString
  | String c s' => String (if Ascii.eqb c "'"%char then Str.dquote else c) (json s')
  end.

End Node.

(** ** Inputs the properties are run on *)

Module Scenario.

Import JS Transport.

Definition service : string := "svc".

(** A crash dump of two lines followed by a structured line. *)
Definition crash_head : string := "TypeError: oops".
Definition crash_tail : list string := ["    at foo.js:1:1"].
Definition ok_line : string := Node.json "{'time':1690000000000,'level':30,'msg':'ok'}".
Definition crashing : World := rebuffer (crash_tail ++ [ok_line]) (start []).

(** An empty object waiting behind a line being scanned. *)
Definition empty_object_next : World := rebuffer ["{}"] (start []).

(** A structured line that also has [name], [message] and a further
    field, and the object it parses to. *)
Definition named_line : string :=
  Node.json "{'time':0,'level':30,'name':'svc','message':'hi','pid':7}".
Definition named_object : Object :=
  [ ("time", Num 0); ("level", Num (inject_Z 30)); ("name", Str "svc");
    ("message", Str "hi"); ("pid", Num (inject_Z 7)) ].

(** The line of the specification's first scenario. *)
Definition boom_line : string := Node.json "{'time':1690000000000,'level':50,'msg':'boom'}".

(** A line without [level]. *)
Definition no_level_line : string := Node.json "{'time':1690000000000,'msg':'half'}".
Definition no_level_object : Object :=
  [ ("time", Num (inject_Z 1690000000000)); ("msg", Str "half") ].

(** A record whose [name] is the empty string. *)
Definition empty_name_log : Log :=
  [ ("datetime", Str "2023-07-22T04:26:40.000Z"); ("level", Str "info");
    ("name", Str EmptyString); ("message", Str "quiet") ].

(** A batch of one record, a sink that refuses it and a sink that takes
    it, and a record logged while the request is in flight. *)
Definition one_pending : World :=
  with_batch [stream_created_log "2023-07-22T04:26:40.000Z"] (start []).
Definition unavailable : Response :=
  {| statusCode := 503; content_type := Some "text/plain";
     body_json := None; body_text := Some "unavailable" |}.
Definition accepted : Response :=
  {| statusCode := 200; content_type := None;
     body_json := None; body_text := Some EmptyString |}.
Definition late_log : Log :=
  [ ("datetime", Str "2023-07-22T04:26:41.000Z"); ("level", Str "info");
    ("message", Str "logged during the request") ].

(** A stream with two buffered lines, and one whose only chunk has been
    taken and whose source has then ended. *)
Definition two_buffered : LazyIter.t string string :=
  LazyIter.with_buffer ["first"; "second"]
    (LazyIter.new {| LazyIter.pending := []; LazyIter.completed := false |}).
Definition one_chunk : LazyIter.Source string :=
  {| LazyIter.pending := [ {| LazyIter.value := Some "only"; LazyIter.done := false |} ];
     LazyIter.completed := false |}.
Definition drained : list LazyIter.Call := [LazyIter.CallNext; LazyIter.CallPeek].

(** A source that ends at once, and a stream that has been paused
    while its source had an empty chunk to deliver. *)
Definition ended : LazyIter.Source string :=
  {| LazyIter.pending := []; LazyIter.completed := false |}.
Definition idle : LazyIter.Source string :=
  {| LazyIter.pending :=
       [ {| LazyIter.value := Some EmptyString; LazyIter.done := false |} ];
     LazyIter.completed := false |}.
Definition paused : LazyIter.t string string := LazyIter.pause (LazyIter.new idle).

(** A record that names its service. *)
Definition named_log : Log :=
  [ ("datetime", Str "2023-07-22T04:26:40.000Z"); ("level", Str "info");
    ("name", Str "svc"); ("message", Str "hello") ].

(** A line with [level] and [time] whose [time] is no date, and which
    holds the marker; the structured line waits behind it. *)
Definition odd_time_line : string :=
  Node.json "{'time':'soon','level':30,'msg':'Error: late'}".
Definition ok_next : World := rebuffer [ok_line] (start []).

(** A chunk of two lines with no line feed at its end. *)
Definition two_lines : string := (boom_line ++ Str.newline ++ no_level_line)%string.

(** The object the structured line of the crash scenario parses to. *)
Definition ok_object : Object :=
  [ ("time", Num (inject_Z 1690000000000)); ("level", Num (inject_Z 30));
    ("msg", Str "ok") ].

(** A structured line whose [time] is past the range of dates, waiting
    behind a line of text. *)
Definition far_line : string := Node.json "{'time':1e300,'level':30,'msg':'late'}".
Definition far_next : World := rebuffer [far_line] (start []).

Definition opaque_log : Log :=
  [ ("message", Obj [("toString", Num 1)]);
    ("datetime", Str "2023-07-22T04:26:40.000Z"); ("level", Str "error") ].
Definition one_opaque : World := with_batch [opaque_log] (start []).

(** A line with [time] and a [level] that has no primitive form. *)
Definition odd_level_line : string := Node.json "{'time':0,'level':{'toString':1}}".

(** The list of streams of a sink that has none. *)
Definition no_streams : Response :=
  {| statusCode := 200; content_type := Some "application/json";
     body_json := Some (Arr []); body_text := None |}.

End Scenario.

(** * Properties *)

(** Splits the conjunctions of a goal, leaving defined predicates
    folded. *)
Ltac conjs := repeat match goal with |- _ /\ _ => split end.

(** ** Objects *)

Section ObjectFacts.

Import JS.

Lemma get_set_same (k : string) (v : Value) (o : Object) :
  get k (set k v o) = Some v.
Proof.
  induction o as [| [k' v'] o IH]; simpl.
  - now rewrite String.eqb_refl.
  - destruct (String.eqb k k') eqn:E; simpl; rewrite E; auto.
Qed.

Lemma get_set_other (k k' : string) (v : Value) (o : Object) :
  k <> k' -> get k (set k' v o) = get k o.
Proof.
  intros Hne. induction o as [| [k0 v0] o IH]; simpl.
  - destruct (String.eqb_spec k k'); congruence.
  - destruct (String.eqb_spec k' k0); simpl.
    + subst k0. destruct (String.eqb_spec k k'); congruence.
    + destruct (String.eqb_spec k k0); auto.
Qed.

Lemma get_remove_same (k : string) (o : Object) : get k (remove k o) = None.
Proof.
  induction o as [| [k' v'] o IH]; simpl; auto.
  destruct (String.eqb k k') eqn:E; simpl; auto. now rewrite E.
Qed.

Lemma get_remove_other (k k' : string) (o : Object) :
  k <> k' -> get k (remove k' o) = get k o.
Proof.
  intros Hne. induction o as [| [k0 v0] o IH]; simpl; auto.
  destruct (String.eqb_spec k' k0); simpl.
  - subst k0. destruct (String.eqb_spec k k'); congruence.
  - destruct (String.eqb_spec k k0); auto.
Qed.

Lemma has_remove_same (k : string) (o : Object) : has k (remove k o) = false.
Proof. unfold has. now rewrite get_remove_same. Qed.

Lemma has_remove_other (k k' : string) (o : Object) :
  k <> k' -> has k (remove k' o) = has k o.
Proof. intros. unfold has. now rewrite get_remove_other. Qed.

Lemma read_remove_other (k k' : string) (o : Object) :
  k <> k' -> read k (remove k' o) = read k o.
Proof. intros. unfold read. now rewrite get_remove_other. Qed.

(** A key that a spread does not write keeps its value. *)
Lemma get_assign_other (k : string) (extra o : Object) :
  ~ In k (map fst extra) -> get k (assign o extra) = get k o.
Proof.
  unfold assign. revert o.
  induction extra as [| [k' v'] extra IH]; intros o Hnot; simpl in *; auto.
  rewrite IH by tauto. apply get_set_other. intro; subst; tauto.
Qed.

(** The last write of a key decides its value. *)
Lemma get_assign_last (k : string) (v : Value) (extra extra' o : Object) :
  ~ In k (map fst extra') ->
  get k (assign o (extra ++ (k, v) :: extra')) = Some v.
Proof.
  intros Hnot. unfold assign. rewrite fold_left_app. simpl.
  fold (assign (set k v (fold_left (fun acc kv => set (fst kv) (snd kv) acc) extra o)) extra').
  rewrite get_assign_other by assumption. apply get_set_same.
Qed.

End ObjectFacts.

(** ** The stream *)

Section LazyIterFacts.

Import LazyIter.

Context {T TRaw : Type}.
Variable truthy : TRaw -> bool.
Variable transformValue : TRaw -> list T.

#[local] Abbreviation stream := (LazyIter.t T TRaw).
#[local] Abbreviation peek := (LazyIter.peek truthy transformValue).
#[local] Abbreviation next := (LazyIter.next truthy transformValue).
#[local] Abbreviation loop_iteration := (LazyIter.loop_iteration truthy transformValue).
#[local] Abbreviation loop_pass := (LazyIter.loop_pass truthy transformValue).
#[local] Abbreviation await := (LazyIter.await truthy transformValue).
#[local] Abbreviation upcoming := (LazyIter.upcoming truthy transformValue).

Lemma is_done_buffered (s : stream) (x : T) (xs : list T) :
  buffer s = x :: xs -> is_done s = false.
Proof. intros H. unfold is_done. rewrite H. apply andb_false_r. Qed.

Lemma peek_buffered (s : stream) (x : T) (xs : list T) :
  buffer s = x :: xs -> peek s = (Returned (Some x), s).
Proof.
  intros H. unfold LazyIter.peek. rewrite (is_done_buffered s x xs H).
  now rewrite H.
Qed.

Lemma next_buffered (s : stream) (x : T) (xs : list T) :
  buffer s = x :: xs -> next s = (Returned x, with_buffer xs s).
Proof.
  intros H. unfold LazyIter.next. rewrite (is_done_buffered s x xs H).
  rewrite H. unfold shift. now rewrite H.
Qed.

Lemma peekAnd_buffered (is_ : T -> bool) (s : stream) (x : T) (xs : list T) :
  buffer s = x :: xs ->
  peekAnd truthy transformValue is_ s
  = (Returned (if is_ x then Some x else None), s).
Proof. intros H. unfold peekAnd. now rewrite (peek_buffered s x xs H). Qed.

(** The [for] loop appends the items and touches nothing but the buffer
    and the queues. *)
Lemma push_items_spec (items : list T) (s : stream) :
  buffer (fst (push_items items s)) = buffer s ++ items
  /\ iter (fst (push_items items s)) = iter s
  /\ priv_done (fst (push_items items s)) = priv_done s
  /\ priv_reading (fst (push_items items s)) = priv_reading s.
Proof.
  revert s. induction items as [| item rest IH]; intros s; simpl.
  - now rewrite app_nil_r.
  - destruct (shift_resolve PeekResolved (peekWaitingPromises s)) as [p e1].
    destruct (shift_resolve NextResolved (nextWaitingPromises s)) as [n e2].
    specialize (IH (with_waiters p n (with_buffer (buffer s ++ [item]) s))).
    destruct (push_items rest _) as [s2 es]. simpl in *.
    destruct IH as (Hb & Hi & Hd & Hr). rewrite Hb, Hi, Hd, Hr.
    now rewrite <- app_assoc.
Qed.

(** A pass of the loop only appends to the buffer. *)
Lemma loop_iteration_buffer (s : stream) :
  exists items, buffer (fst (loop_iteration s)) = buffer s ++ items.
Proof.
  unfold LazyIter.loop_iteration.
  destruct (pull (iter s)) as [r i'].
  destruct (value r) as [raw |].
  - destruct (truthy raw).
    + pose proof (push_items_spec (transformValue raw) (with_iter i' s)) as (Hb & _).
      destruct (push_items _ _) as [s1 es]. simpl in *.
      exists (transformValue raw). now destruct (done r).
    + exists []. rewrite app_nil_r. now destruct (done r).
  - exists []. rewrite app_nil_r. now destruct (done r).
Qed.

(** The oldest buffered item stays the oldest through a pass. *)
Lemma loop_iteration_head (s : stream) (x : T) (xs : list T) :
  buffer s = x :: xs ->
  exists xs', buffer (fst (loop_iteration s)) = x :: xs'.
Proof.
  intros H. destruct (loop_iteration_buffer s) as [items Hb].
  exists (xs ++ items). now rewrite Hb, H.
Qed.

(** What [peek] returns is the head of the buffer it leaves. *)
Lemma peek_returns_head (s s' : stream) (x : T) :
  peek s = (Returned (Some x), s') -> exists xs, buffer s' = x :: xs.
Proof.
  unfold LazyIter.peek. destruct (is_done s); [discriminate |].
  destruct (buffer s) as [| y ys] eqn:Hb.
  - destruct (LazyIter.await _ _ _ _ _ _) as [e s2 | s2 |]; try discriminate.
    intros H. injection H as Hhd <-.
    destruct (buffer s2) as [| z zs]; [discriminate |].
    injection Hhd as <-. eauto.
  - intros H. injection H as <- <-. eauto.
Qed.

Lemma with_buffer_same (s : stream) : with_buffer (buffer s) s = s.
Proof. now destruct s. Qed.

(** Buffered items are read off the buffer. *)
Lemma reads_buffered (ls : list T) :
  forall (s : stream) (rest : list T),
    buffer s = ls ++ rest ->
    reads truthy transformValue s ls (with_buffer rest s).
Proof.
  induction ls as [| x ls IH]; intros s rest Hbuf; simpl in Hbuf.
  - rewrite <- Hbuf, with_buffer_same. constructor.
  - apply reads_cons with (s1 := s) (s2 := with_buffer (ls ++ rest) s).
    + now apply peek_buffered with (xs := ls ++ rest).
    + now apply next_buffered.
    + apply (IH (with_buffer (ls ++ rest) s) rest). reflexivity.
Qed.

(** *** Waiting *)

(** Whatever a pass of the loop preserves holds when a suspended caller
    resumes. *)
(** A pass is the body of the loop, up to the count of live loops. *)
Lemma loop_pass_spec (s : stream) :
  snd (loop_pass s) = snd (loop_iteration s)
  /\ exists l, fst (loop_pass s) = with_loops l (fst (loop_iteration s)).
Proof.
  unfold LazyIter.loop_pass. destruct (loop_iteration s) as [s' es]. simpl.
  split; [reflexivity |].
  destruct (priv_reading s'); [exists (loops s'); now destruct s' | eauto].
Qed.

(** The oldest buffered item stays the oldest through a pass. *)
Lemma loop_pass_head (s : stream) (x : T) (xs : list T) :
  buffer s = x :: xs ->
  exists xs', buffer (fst (loop_pass s)) = x :: xs'.
Proof.
  intros H. destruct (loop_pass_spec s) as [_ [l ->]]. simpl.
  now apply loop_iteration_head with (xs := xs).
Qed.

Lemma await_preserves (P : stream -> Prop) :
  (forall s, P s -> P (fst (loop_pass s))) ->
  forall mine fuel pos s,
    P s ->
    match await mine pos fuel s with
    | Woken _ s' | Stalled s' => P s'
    | OutOfFuel => True
    end.
Proof.
  intros Hpass mine fuel.
  induction fuel as [| fuel IH]; intros pos s Hs; simpl; auto.
  destruct (0 <? loops s)%nat; auto.
  specialize (Hpass s Hs).
  destruct (loop_pass s) as [s' es]. simpl in Hpass.
  destruct (settlement mine pos es) as [e | pos']; [exact Hpass | now apply IH].
Qed.

Lemma settlement_In (mine : Settled -> bool) (es : list Settled) :
  forall pos e, settlement mine pos es = inl e -> In e es.
Proof.
  induction es as [| e0 es IH]; intros pos e H; simpl in *; try discriminate.
  destruct (mine e0).
  - destruct pos as [| pos'].
    + injection H as <-. now left.
    + right. eauto.
  - right. eauto.
Qed.

(** A [next] is resolved only by a pass that pushes an item. *)
Lemma push_items_resolves (items : list T) (s : stream) :
  In NextResolved (snd (push_items items s)) -> items <> [].
Proof. destruct items; simpl; [tauto | discriminate]. Qed.

Lemma push_items_settled (items : list T) (s : stream) :
  forall e, In e (snd (push_items items s)) -> e = PeekResolved \/ e = NextResolved.
Proof.
  revert s. induction items as [| item rest IH]; intros s e; simpl; [tauto |].
  destruct (shift_resolve PeekResolved (peekWaitingPromises s)) as [p e1] eqn:E1.
  destruct (shift_resolve NextResolved (nextWaitingPromises s)) as [n e2] eqn:E2.
  specialize (IH (with_waiters p n (with_buffer (buffer s ++ [item]) s)) e).
  destruct (push_items rest _) as [s2 es]. simpl in *.
  rewrite !in_app_iff. intros [H | [H | H]]; auto.
  - destruct (peekWaitingPromises s); simpl in E1; injection E1 as <- <-;
      simpl in H; intuition.
  - destruct (nextWaitingPromises s); simpl in E2; injection E2 as <- <-;
      simpl in H; intuition.
Qed.

Lemma loop_iteration_resolves (s : stream) :
  In NextResolved (snd (loop_iteration s)) ->
  buffer (fst (loop_iteration s)) <> [].
Proof.
  unfold LazyIter.loop_iteration.
  destruct (pull (iter s)) as [r i'].
  assert (Hrej : forall (es : list Settled) a b,
             In NextResolved (es ++ repeat PeekResolved a ++ repeat NextRejected b) ->
             In NextResolved es).
  { intros es a b H. rewrite !in_app_iff in H.
    destruct H as [H | [H | H]]; auto; apply repeat_spec in H; discriminate. }
  assert (Hnil : forall a b,
             ~ In NextResolved ([] ++ repeat PeekResolved a ++ repeat NextRejected b)).
  { intros a b H. apply Hrej in H. exact H. }
  destruct (value r) as [raw |].
  - destruct (truthy raw).
    + pose proof (push_items_spec (transformValue raw) (with_iter i' s)) as (Hb & _).
      pose proof (push_items_resolves (transformValue raw) (with_iter i' s)) as Hne.
      destruct (push_items _ _) as [s1 es]. simpl in *.
      assert (Hgo : In NextResolved es -> buffer s1 <> []).
      { intros H. rewrite Hb. specialize (Hne H).
        destruct (transformValue raw); [congruence |].
        intro Habs. apply app_eq_nil in Habs. destruct Habs; discriminate. }
      destruct (done r); simpl; intros H; [apply Hrej in H |]; auto.
    + destruct (done r); simpl; intros H; [now apply Hnil in H | tauto].
  - destruct (done r); simpl; intros H; [now apply Hnil in H | tauto].
Qed.

Lemma loop_pass_resolves (s : stream) :
  In NextResolved (snd (loop_pass s)) -> buffer (fst (loop_pass s)) <> [].
Proof.
  destruct (loop_pass_spec s) as [-> [l ->]]. simpl.
  apply loop_iteration_resolves.
Qed.

Lemma await_resolved_buffer (fuel : nat) :
  forall pos s s',
    await is_next pos fuel s = Woken NextResolved s' -> buffer s' <> [].
Proof.
  induction fuel as [| fuel IH]; intros pos s s' H; simpl in H; try discriminate.
  destruct (0 <? loops s)%nat; try discriminate.
  pose proof (loop_pass_resolves s) as Hres.
  destruct (loop_pass s) as [s1 es]. simpl in Hres.
  destruct (settlement is_next pos es) as [e | pos'] eqn:E.
  - injection H as -> <-. apply Hres. eapply settlement_In; eauto.
  - eauto.
Qed.

Lemma settlement_mine (mine : Settled -> bool) (es : list Settled) :
  forall pos e, settlement mine pos es = inl e -> mine e = true.
Proof.
  induction es as [| e0 es IH]; intros pos e H; simpl in *; try discriminate.
  destruct (mine e0) eqn:E0.
  - destruct pos as [| pos'].
    + injection H as <-. exact E0.
    + eauto.
  - eauto.
Qed.

(** A caller is woken by a settlement of its own kind. *)
Lemma await_mine (mine : Settled -> bool) (fuel : nat) :
  forall pos s e s', await mine pos fuel s = Woken e s' -> mine e = true.
Proof.
  induction fuel as [| fuel IH]; intros pos s e s' H; simpl in H; try discriminate.
  destruct (0 <? loops s)%nat; try discriminate.
  destruct (loop_pass s) as [s1 es].
  destruct (settlement mine pos es) as [e1 | pos'] eqn:E.
  - injection H as -> <-. eapply settlement_mine; eauto.
  - eauto.
Qed.

(** [shift_defined]: [next] never takes from an empty buffer, so the
    failure written in [shift] does not occur. *)
Lemma shift_defined (s : stream) : fst (next s) <> Thrown JS.TypeError.
Proof.
  unfold LazyIter.next. destruct (is_done s); [discriminate |].
  destruct (buffer s) as [| x xs] eqn:Hb.
  - destruct (LazyIter.await _ _ _ _ _ _) as [e s2 | s2 |] eqn:Ha; try discriminate.
    pose proof (await_mine _ _ _ _ _ _ Ha) as Hmine.
    destruct e; try discriminate.
    apply await_resolved_buffer in Ha.
    unfold shift. destruct (buffer s2); [congruence | discriminate].
  - unfold shift. rewrite Hb. discriminate.
Qed.

(** *** A suspended caller is settled *)

Lemma settlement_app (m : Settled -> bool) (es es' : list Settled) :
  forall pos,
    settlement m pos (es ++ es')
    = match settlement m pos es with
      | inl e => inl e
      | inr pos' => settlement m pos' es'
      end.
Proof.
  induction es as [| e es IH]; intros pos; simpl; auto.
  destruct (m e); auto. destruct pos; auto.
Qed.

Lemma settlement_repeat (m : Settled -> bool) (e : Settled) (n pos : nat) :
  m e = true -> pos < n -> settlement m pos (repeat e n) = inl e.
Proof.
  intros He. revert pos. induction n as [| n IH]; intros pos Hlt; [lia |].
  simpl. rewrite He. destruct pos; auto. apply IH. lia.
Qed.

Lemma settlement_shift (peeking : bool) (s : stream) (pos : nat) :
  pos < queue peeking s ->
  let '(p, e1) := shift_resolve PeekResolved (peekWaitingPromises s) in
  let '(n, e2) := shift_resolve NextResolved (nextWaitingPromises s) in
  match settlement (mine peeking) pos (e1 ++ e2) with
  | inl _ => True
  | inr pos' => pos' < (if peeking then p else n)
  end.
Proof.
  unfold queue, mine.
  destruct peeking, (peekWaitingPromises s), (nextWaitingPromises s);
    simpl; intros H; try lia; destruct pos; simpl; auto; lia.
Qed.

(** Through the [for] loop a waiter is settled or stays in its queue. *)
Lemma settlement_push_items (peeking : bool) (items : list T) :
  forall (s : stream) (pos : nat),
    pos < queue peeking s ->
    match settlement (mine peeking) pos (snd (push_items items s)) with
    | inl _ => True
    | inr pos' => pos' < queue peeking (fst (push_items items s))
    end.
Proof.
  induction items as [| item rest IH]; intros s pos Hpos; simpl; auto.
  pose proof (settlement_shift peeking s pos Hpos) as Hshift.
  destruct (shift_resolve PeekResolved (peekWaitingPromises s)) as [p e1].
  destruct (shift_resolve NextResolved (nextWaitingPromises s)) as [n e2].
  specialize (IH (with_waiters p n (with_buffer (buffer s ++ [item]) s))).
  destruct (push_items rest _) as [s2 es]. simpl in *.
  rewrite app_assoc, settlement_app.
  destruct (settlement (mine peeking) pos (e1 ++ e2)) as [e | pos']; auto.
  apply IH. unfold queue. now destruct peeking.
Qed.

Lemma settlement_loop_iteration (peeking : bool) (s : stream) (pos : nat) :
  pos < queue peeking s ->
  match settlement (mine peeking) pos (snd (loop_iteration s)) with
  | inl _ => True
  | inr pos' =>
      pos' < queue peeking (fst (loop_iteration s))
      /\ S (length (pending (iter (fst (loop_iteration s)))))
         = length (pending (iter s))
  end.
Proof.
  intros Hpos.
  assert (Hall : forall (s1 : stream) (es : list Settled),
             match settlement (mine peeking) pos es with
             | inl _ => True
             | inr pos' => pos' < queue peeking s1
             end ->
             match
               settlement (mine peeking) pos
                 (es ++ repeat PeekResolved (peekWaitingPromises s1)
                     ++ repeat NextRejected (nextWaitingPromises s1))
             with
             | inl _ => True
             | inr _ => False
             end).
  { intros s1 es H. rewrite settlement_app.
    destruct (settlement (mine peeking) pos es) as [e | pos']; auto.
    rewrite settlement_app. unfold queue, mine in *. destruct peeking.
    - now rewrite settlement_repeat.
    - replace (settlement is_next pos' (repeat PeekResolved (peekWaitingPromises s1)))
        with (@inr Settled nat pos').
      + now rewrite settlement_repeat.
      + clear. induction (peekWaitingPromises s1); simpl; auto. }
  unfold LazyIter.loop_iteration, pull.
  destruct (pending (iter s)) as [| r rest] eqn:Hp; simpl.
  - specialize (Hall (with_iter {| pending := []; completed := true |} s) []).
    simpl in Hall.
    destruct (settlement _ _ _); auto. exfalso. apply Hall. exact Hpos.
  - destruct (value r) as [raw |].
    + destruct (truthy raw).
      * match goal with
        | |- context [push_items ?items ?s0] =>
            pose proof (settlement_push_items peeking items s0 pos Hpos) as Hpush;
            pose proof (push_items_spec items s0) as (_ & Hi & _);
            destruct (push_items items s0) as [s1 es]
        end.
        simpl in *.
        destruct (done r); simpl.
        -- specialize (Hall s1 es Hpush). destruct (settlement _ _ _); tauto.
        -- destruct (settlement _ _ _); auto. rewrite Hi. simpl. auto.
      * destruct (done r); simpl.
        -- specialize (Hall (with_iter {| pending := rest;
                                           completed := completed (iter s) || true |} s) []).
           simpl in Hall. destruct (settlement _ _ _); auto. exfalso. apply Hall. exact Hpos.
        -- auto.
    + destruct (done r); simpl.
      * specialize (Hall (with_iter {| pending := rest;
                                        completed := completed (iter s) || true |} s) []).
        simpl in Hall. destruct (settlement _ _ _); auto. exfalso. apply Hall. exact Hpos.
      * auto.
Qed.

(** With a pass for each pending result and one more, a queued caller
    does not run out of fuel: it is woken, or no loop is left alive. *)
Lemma await_settles (peeking : bool) (fuel : nat) :
  forall (pos : nat) (s : stream),
    pos < queue peeking s ->
    length (pending (iter s)) < fuel ->
    await (mine peeking) pos fuel s <> OutOfFuel.
Proof.
  induction fuel as [| fuel IH]; intros pos s Hpos Hfuel; [lia |].
  simpl. destruct (0 <? loops s)%nat; [| discriminate].
  pose proof (settlement_loop_iteration peeking s pos Hpos) as Hpass.
  destruct (loop_pass_spec s) as [Hes [l Hst]].
  destruct (loop_pass s) as [s' es]. simpl in Hes, Hst. subst es s'.
  destruct (settlement (mine peeking) pos (snd (loop_iteration s))) as [e | pos'];
    [discriminate |].
  destruct Hpass as [Hq Hlen]. apply IH.
  - unfold queue in *. simpl. exact Hq.
  - simpl. lia.
Qed.

Lemma await_stalled (m : Settled -> bool) (fuel : nat) :
  forall (pos : nat) (s s' : stream),
    await m pos fuel s = Stalled s' -> loops s' = 0.
Proof.
  induction fuel as [| fuel IH]; intros pos s s' H; simpl in H; [discriminate |].
  destruct (Nat.ltb_spec 0 (loops s)) as [Hr | Hr].
  - destruct (loop_pass s) as [s1 es].
    destruct (settlement m pos es); [discriminate | eauto].
  - injection H as <-. lia.
Qed.

(** [peek] stays pending only when no loop is alive (all have been
    paused away). *)
Lemma peek_pending (s : stream) :
  fst (peek s) = Pending -> loops (snd (peek s)) = 0.
Proof.
  unfold LazyIter.peek. destruct (is_done s); [discriminate |].
  destruct (buffer s); [| discriminate].
  match goal with
  | |- context [LazyIter.await _ _ ?m ?p ?f ?s1] =>
      pose proof (await_settles true f p s1) as Hfuel;
      destruct (LazyIter.await truthy transformValue m p f s1) as [e s2 | s2 |] eqn:Ha
  end; simpl; try discriminate.
  - intros _. eapply await_stalled; eauto.
  - exfalso. apply Hfuel; [simpl; lia | unfold patience; simpl; lia | exact Ha].
Qed.

(** So does [next]. *)
Lemma next_pending (s : stream) :
  fst (next s) = Pending -> loops (snd (next s)) = 0.
Proof.
  unfold LazyIter.next. destruct (is_done s); [discriminate |].
  destruct (buffer s) eqn:Hb.
  - match goal with
    | |- context [LazyIter.await _ _ ?m ?p ?f ?s1] =>
        pose proof (await_settles false f p s1) as Hfuel;
        destruct (LazyIter.await truthy transformValue m p f s1) as [e s2 | s2 |] eqn:Ha
    end; simpl.
    + destruct e; simpl; try discriminate;
        unfold shift; destruct (buffer s2); discriminate.
    + intros _. eapply await_stalled; eauto.
    + exfalso. apply Hfuel; [simpl; lia | unfold patience; simpl; lia | exact Ha].
  - unfold shift. rewrite Hb. discriminate.
Qed.

(** *** Counting what is left *)

Lemma upcoming_loop_iteration (s : stream) :
  upcoming (fst (loop_iteration s)) = upcoming s.
Proof.
  unfold LazyIter.loop_iteration, LazyIter.upcoming, pull.
  destruct (pending (iter s)) as [| r rest] eqn:Hp; simpl.
  - reflexivity.
  - unfold yield at 2.
    destruct (value r) as [raw |].
    + destruct (truthy raw).
      * match goal with
        | |- context [push_items ?items ?s0] =>
            pose proof (push_items_spec items s0) as (Hb & Hi & _);
            destruct (push_items items s0) as [s1 es]
        end.
        simpl in *.
        destruct (done r); simpl; rewrite Hb, Hi; simpl; rewrite length_app; lia.
      * destruct (done r); simpl; lia.
    + destruct (done r); simpl; lia.
Qed.

Lemma upcoming_await (mine : Settled -> bool) (fuel pos : nat) (s : stream) :
  match await mine pos fuel s with
  | Woken _ s' | Stalled s' => upcoming s' = upcoming s
  | OutOfFuel => True
  end.
Proof.
  apply (await_preserves (fun s' => upcoming s' = upcoming s)); auto.
  intros s' H. destruct (loop_pass_spec s') as [_ [l ->]].
  unfold LazyIter.upcoming in *. simpl.
  pose proof (upcoming_loop_iteration s') as Hu.
  unfold LazyIter.upcoming in Hu. congruence.
Qed.

Lemma upcoming_peek (s : stream) : upcoming (snd (peek s)) = upcoming s.
Proof.
  unfold LazyIter.peek. destruct (is_done s); auto.
  destruct (buffer s) eqn:Hb; auto.
  match goal with
  | |- context [LazyIter.await _ _ ?m ?p ?f ?s1] =>
      pose proof (upcoming_await m f p s1) as H;
      destruct (LazyIter.await truthy transformValue m p f s1)
  end; simpl; auto.
Qed.

Lemma upcoming_shift (s : stream) (x : T) (s' : stream) :
  shift s = (Returned x, s') -> S (upcoming s') = upcoming s.
Proof.
  unfold shift. destruct (buffer s) as [| y ys] eqn:Hb; intros H; try discriminate.
  injection H as <- <-. unfold LazyIter.upcoming. simpl. now rewrite Hb.
Qed.

(** An item taken is one item less to come. *)
Lemma upcoming_next (s : stream) (x : T) (s' : stream) :
  next s = (Returned x, s') -> S (upcoming s') = upcoming s.
Proof.
  unfold LazyIter.next. destruct (is_done s); try discriminate.
  destruct (buffer s) eqn:Hb.
  - match goal with
    | |- context [LazyIter.await _ _ ?m ?p ?f ?s1] =>
        pose proof (upcoming_await m f p s1) as Hu;
        destruct (LazyIter.await truthy transformValue m p f s1) as [e s2 | s2 |]
    end; try discriminate.
    destruct e; try discriminate; intros H; apply upcoming_shift in H;
      rewrite H, Hu; reflexivity.
  - apply upcoming_shift.
Qed.

(** *** Completion *)

Lemma done_is_sound_loop_iteration (s : stream) :
  done_is_sound s -> done_is_sound (fst (loop_iteration s)).
Proof.
  unfold done_is_sound, LazyIter.loop_iteration, pull. intros Hs.
  destruct (pending (iter s)) as [| r rest]; simpl; auto.
  destruct (value r) as [raw |].
  - destruct (truthy raw).
    + match goal with
      | |- context [push_items ?items ?s0] =>
          pose proof (push_items_spec items s0) as (_ & Hi & Hd & _);
          destruct (push_items items s0) as [s1 es]
      end.
      simpl in *.
      destruct (done r) eqn:Hr; simpl.
      * intros _. rewrite Hi. simpl. apply orb_true_r.
      * rewrite Hi, Hd. simpl. rewrite orb_false_r. exact Hs.
    + destruct (done r) eqn:Hr; simpl.
      * intros _. apply orb_true_r.
      * rewrite orb_false_r. exact Hs.
  - destruct (done r) eqn:Hr; simpl.
    + intros _. apply orb_true_r.
    + rewrite orb_false_r. exact Hs.
Qed.

Lemma done_is_sound_loop_pass (s : stream) :
  done_is_sound s -> done_is_sound (fst (loop_pass s)).
Proof.
  intros Hs. destruct (loop_pass_spec s) as [_ [l ->]].
  exact (done_is_sound_loop_iteration s Hs).
Qed.

Lemma done_is_sound_call (c : Call) (s : stream) :
  done_is_sound s -> done_is_sound (call truthy transformValue c s).
Proof.
  intros Hs.
  assert (Hawait : forall mine pos fuel p n,
             match await mine pos fuel (with_waiters p n s) with
             | Woken _ s' | Stalled s' => done_is_sound s'
             | OutOfFuel => True
             end).
  { intros. apply await_preserves; auto using done_is_sound_loop_pass. }
  assert (Hshift : forall s2 : stream, done_is_sound s2 -> done_is_sound (snd (shift s2))).
  { intros s2 H2. unfold shift. destruct (buffer s2); simpl; auto. }
  destruct c; simpl.
  - unfold LazyIter.peek. destruct (is_done s); auto.
    destruct (buffer s); auto.
    match goal with
    | |- context [LazyIter.await _ _ ?m ?p ?f (with_waiters ?a ?b s)] =>
        specialize (Hawait m p f a b);
        destruct (LazyIter.await truthy transformValue m p f (with_waiters a b s))
    end; simpl; auto.
  - unfold LazyIter.next. destruct (is_done s); auto.
    destruct (buffer s) eqn:Hb.
    + match goal with
      | |- context [LazyIter.await _ _ ?m ?p ?f (with_waiters ?a ?b s)] =>
          specialize (Hawait m p f a b);
          destruct (LazyIter.await truthy transformValue m p f (with_waiters a b s))
            as [e s2 | s2 |]
      end; simpl; auto.
      destruct e; simpl; auto.
    + auto.
  - exact Hs.
  - unfold resume. destruct (priv_done s); simpl; auto.
  - destruct (0 <? loops s)%nat; auto using done_is_sound_loop_pass.
Qed.

Lemma done_is_sound_after (calls : list Call) (s : stream) :
  done_is_sound s -> done_is_sound (after truthy transformValue calls s).
Proof.
  revert s. induction calls as [| c calls IH]; intros s Hs; simpl; auto.
  apply IH. now apply done_is_sound_call.
Qed.

Lemma is_done_iff (s : stream) :
  is_done s = true <-> priv_done s = true /\ buffer s = [].
Proof.
  unfold is_done. rewrite andb_true_iff.
  destruct (buffer s); intuition discriminate.
Qed.

(** C8.  With an item in the buffer, two [peek]s in a row with no
    [next] between them both return the oldest buffered item, and the
    stream after them is the stream before them: nothing is removed and
    nothing is pulled. *)
Theorem peek_twice_same_item (s : stream) (x : T) (xs : list T) :
  buffer s = x :: xs ->
  let '(first, s1) := peek s in
  let '(second, s2) := peek s1 in
  first = Returned (Some x) /\ second = Returned (Some x) /\ s1 = s /\ s2 = s.
Proof.
  intros H. rewrite (peek_buffered s x xs H). rewrite (peek_buffered s x xs H).
  repeat split.
Qed.

(** Passes of the loop between the two calls change neither answer. *)
Lemma peek_after_passes (n : nat) (s : stream) (x : T) (xs : list T) :
  buffer s = x :: xs ->
  fst (peek (Nat.iter n (fun s' => fst (loop_pass s')) s)) = Returned (Some x).
Proof.
  intros H.
  assert (Hhead : exists xs', buffer (Nat.iter n (fun s' => fst (loop_pass s')) s) = x :: xs').
  { induction n as [| n IH]; simpl; eauto.
    destruct IH as [xs' IH]. eapply loop_pass_head; eauto. }
  destruct Hhead as [xs' Hhead]. now rewrite (peek_buffered _ x xs' Hhead).
Qed.

(** C9.  On a stream in any state it can reach from its construction,
    when [done] is true the wrapped iterator has reported completion and
    the buffer is empty, and [next] fails with the exhausted-stream
    error, leaving the stream as it is. *)
Theorem next_when_done_is_exhausted (source : Source TRaw) (calls : list Call) :
  let s := after truthy transformValue calls (new source) in
  is_done s = true ->
  completed (iter s) = true /\ buffer s = []
  /\ next s = (Thrown exhausted, s).
Proof.
  intros s Hdone.
  pose proof (proj1 (is_done_iff s) Hdone) as [Hd Hb].
  repeat split; auto.
  - apply (done_is_sound_after calls (new source)); auto.
    unfold done_is_sound. simpl. discriminate.
  - unfold LazyIter.next. now rewrite Hdone.
Qed.

End LazyIterFacts.

(** ** What the stream delivers *)

Section LazyIterDelivery.

Import LazyIter.

Context {T TRaw : Type}.
Variable truthy : TRaw -> bool.
Variable transformValue : TRaw -> list T.

#[local] Abbreviation stream := (LazyIter.t T TRaw).
#[local] Abbreviation peek := (LazyIter.peek truthy transformValue).
#[local] Abbreviation next := (LazyIter.next truthy transformValue).
#[local] Abbreviation loop_pass := (LazyIter.loop_pass truthy transformValue).
#[local] Abbreviation await := (LazyIter.await truthy transformValue).
#[local] Abbreviation items := (LazyIter.items truthy transformValue).
#[local] Abbreviation deliverable := (LazyIter.deliverable truthy transformValue).
#[local] Abbreviation contribution := (LazyIter.contribution truthy transformValue).

(** With nobody waiting the [for] loop only fills the buffer. *)
Lemma push_items_quiet (new_items : list T) :
  forall s : stream,
    peekWaitingPromises s = 0 -> nextWaitingPromises s = 0 ->
    push_items new_items s = (with_buffer (buffer s ++ new_items) s, []).
Proof.
  induction new_items as [| item rest IH]; intros s Hp Hn; simpl.
  - rewrite app_nil_r. now destruct s.
  - rewrite Hp, Hn. simpl.
    rewrite IH by reflexivity. simpl.
    rewrite <- app_assoc. simpl.
    destruct s; simpl in *; subst; reflexivity.
Qed.

(** The one waiter is released by the first item pushed. *)
Lemma push_items_wakes (peeking : bool) (x : T) (xs : list T) (s : stream) :
  peekWaitingPromises s = (if peeking then 1 else 0) ->
  nextWaitingPromises s = (if peeking then 0 else 1) ->
  push_items (x :: xs) s
  = (with_waiters 0 0 (with_buffer (buffer s ++ x :: xs) s),
     [if peeking then PeekResolved else NextResolved]).
Proof.
  intros Hp Hn. simpl. rewrite Hp, Hn.
  destruct peeking; simpl; rewrite push_items_quiet by reflexivity; simpl;
    rewrite <- app_assoc; reflexivity.
Qed.

Lemma await_step (m : Settled -> bool) (pos fuel : nat) (s : stream) :
  0 < loops s ->
  await m pos (S fuel) s
  = match settlement m pos (snd (loop_pass s)) with
    | inl e => Woken e (fst (loop_pass s))
    | inr pos' => await m pos' fuel (fst (loop_pass s))
    end.
Proof.
  intros Hl. cbn [LazyIter.await].
  destruct (Nat.ltb_spec 0 (loops s)) as [_ | Hbad]; [| lia].
  now destruct (loop_pass s).
Qed.

Lemma await_live (peeking : bool) (rs : list (IteratorResult TRaw)) :
  forall (fuel : nat) (s : stream),
    pending (iter s) = rs ->
    length rs < fuel ->
    live s -> priv_done s = false -> buffer s = [] ->
    exists e s',
      await (mine peeking) 0 fuel (waiting peeking s) = Woken e s'
      /\ live s'
      /\ items s' = deliverable rs
      /\ match deliverable rs with
         | [] => e = (if peeking then PeekResolved else NextRejected)
                 /\ priv_done s' = true /\ buffer s' = []
         | x :: _ => e = (if peeking then PeekResolved else NextResolved)
                     /\ exists rest, buffer s' = x :: rest
         end.
Proof.
  induction rs as [| r rs IH]; intros fuel s Hrs Hfuel Hlive Hd Hb;
    (destruct fuel as [| fuel]; [simpl in Hfuel; lia |]);
    destruct s as [d rd b p n [pend comp] l]; simpl in Hrs, Hd, Hb; subst;
    destruct Hlive as (Hp & Hn & Hrun); simpl in Hp, Hn, Hrun; subst;
    destruct (Hrun eq_refl) as [-> Hl].
  - simpl await. unfold waiting. simpl loops.
    destruct (Nat.ltb_spec 0 l) as [_ | Hbad]; [| lia].
    unfold LazyIter.loop_pass, LazyIter.loop_iteration, pull. simpl.
    destruct peeking; simpl;
      (eexists; eexists; split; [reflexivity |]);
      unfold live, LazyIter.items; simpl; repeat split; auto; discriminate.
  - assert (Hdel : deliverable (r :: rs)
                   = contribution r ++ (if done r then [] else deliverable rs))
      by reflexivity.
    rewrite Hdel. clear Hdel.
    assert (Hquiet :
              contribution r = [] ->
              exists e s',
                await (mine peeking) 0 (S fuel)
                  (waiting peeking
                     {| priv_done := false; priv_reading := true; buffer := [];
                        peekWaitingPromises := 0; nextWaitingPromises := 0;
                        iter := {| pending := r :: rs; completed := comp |};
                        loops := l |}) = Woken e s'
                /\ live s'
                /\ items s' = (if done r then [] else deliverable rs)
                /\ match (if done r then [] else deliverable rs) with
                   | [] => e = (if peeking then PeekResolved else NextRejected)
                           /\ priv_done s' = true /\ buffer s' = []
                   | x :: _ => e = (if peeking then PeekResolved else NextResolved)
                               /\ exists rest, buffer s' = x :: rest
                   end).
    { intros Hc.
      assert (Hpass :
                LazyIter.loop_iteration truthy transformValue
                  (waiting peeking
                     {| priv_done := false; priv_reading := true; buffer := [];
                        peekWaitingPromises := 0; nextWaitingPromises := 0;
                        iter := {| pending := r :: rs; completed := comp |};
                        loops := l |})
                = if done r
                  then ({| priv_done := true; priv_reading := false; buffer := [];
                           peekWaitingPromises := 0; nextWaitingPromises := 0;
                           iter := {| pending := rs; completed := comp || true |};
                           loops := l |},
                        [if peeking then PeekResolved else NextRejected])
                  else (waiting peeking
                          {| priv_done := false; priv_reading := true; buffer := [];
                             peekWaitingPromises := 0; nextWaitingPromises := 0;
                             iter := {| pending := rs; completed := comp || false |};
                             loops := l |}, [])).
      { unfold LazyIter.loop_iteration, pull, LazyIter.contribution in *. simpl pending.
        cbv iota beta.
        destruct (value r) as [raw |]; [destruct (truthy raw) |].
        - rewrite Hc. simpl. destruct (done r); destruct peeking; reflexivity.
        - simpl. destruct (done r); destruct peeking; reflexivity.
        - simpl. destruct (done r); destruct peeking; reflexivity. }
      rewrite await_step by exact Hl.
      unfold LazyIter.loop_pass. rewrite Hpass.
      destruct (done r).
      - simpl. destruct peeking; simpl;
          (eexists; eexists; split; [reflexivity |]);
          unfold live, LazyIter.items; simpl; repeat split; auto; discriminate.
      - cbn [priv_reading waiting with_waiters fst snd settlement].
        apply (IH fuel
                 {| priv_done := false; priv_reading := true; buffer := [];
                    peekWaitingPromises := 0; nextWaitingPromises := 0;
                    iter := {| pending := rs; completed := comp || false |};
                    loops := l |}); simpl; auto; try lia.
        + simpl in Hfuel. lia.
        + repeat split; auto. }
    destruct (contribution r) as [| x xs] eqn:Hc; [now apply Hquiet |]. clear Hquiet IH.
    assert (Hpass :
              LazyIter.loop_iteration truthy transformValue
                (waiting peeking
                   {| priv_done := false; priv_reading := true; buffer := [];
                      peekWaitingPromises := 0; nextWaitingPromises := 0;
                      iter := {| pending := r :: rs; completed := comp |};
                      loops := l |})
              = ({| priv_done := done r; priv_reading := negb (done r);
                    buffer := x :: xs;
                    peekWaitingPromises := 0; nextWaitingPromises := 0;
                    iter := {| pending := rs; completed := comp || done r |};
                    loops := l |},
                 [if peeking then PeekResolved else NextResolved])).
    { unfold LazyIter.loop_iteration, pull, LazyIter.contribution in *. simpl pending.
      cbv iota beta.
      destruct (value r) as [raw |]; [destruct (truthy raw) |]; try discriminate.
      rewrite Hc.
      rewrite (push_items_wakes peeking) by (destruct peeking; reflexivity).
      destruct (done r); destruct peeking; reflexivity. }
    rewrite await_step by exact Hl.
    unfold LazyIter.loop_pass. rewrite Hpass. cbn [fst snd priv_reading].
    assert (Hs : settlement (mine peeking) 0 [if peeking then PeekResolved else NextResolved]
                 = inl (if peeking then PeekResolved else NextResolved))
      by (destruct peeking; reflexivity).
    rewrite Hs.
    eexists. eexists. split; [reflexivity |].
    destruct (done r); unfold live, LazyIter.items; simpl;
      rewrite ?app_nil_r; repeat split; auto; try discriminate; eauto.
Qed.

Lemma live_waiting (peeking : bool) (s : stream) :
  live s ->
  with_waiters (if peeking then S (peekWaitingPromises s) else peekWaitingPromises s)
    (if peeking then nextWaitingPromises s else S (nextWaitingPromises s)) s
  = waiting peeking s
  /\ (if peeking then peekWaitingPromises s else nextWaitingPromises s) = 0.
Proof. intros (Hp & Hn & _). rewrite Hp, Hn. now destruct peeking. Qed.

(** [peek] on a live stream: the first of the items to come, after
    waiting for it if need be, with nothing taken; nothing only at the
    end. *)
Lemma peek_live (s : stream) :
  live s ->
  exists s',
    peek s = (Returned (hd_error (items s)), s')
    /\ live s'
    /\ items s' = items s
    /\ (items s = [] -> is_done s' = true)
    /\ (forall x xs, items s = x :: xs -> exists rest, buffer s' = x :: rest).
Proof.
  intros Hlive.
  destruct (buffer s) as [| b bs] eqn:Hb; destruct (priv_done s) eqn:Hd.
  - assert (Hitems : items s = []) by (unfold LazyIter.items; now rewrite Hb, Hd).
    rewrite Hitems. exists s.
    unfold LazyIter.peek, is_done. rewrite Hb, Hd. cbn [andb hd_error].
    split; [reflexivity |]. split; [exact Hlive |]. split; [exact Hitems |].
    split; [reflexivity | intros; discriminate].
  - assert (Hitems : items s = deliverable (pending (iter s)))
      by (unfold LazyIter.items; now rewrite Hb, Hd).
    rewrite Hitems.
    unfold LazyIter.peek, is_done. rewrite Hb, Hd. cbn [andb].
    destruct Hlive as (Hp & Hn & Hrun). rewrite Hn, Hp.
    destruct (await_live true (pending (iter s))
                (patience (with_waiters 1 0 s)) s eq_refl
                ltac:(unfold patience; simpl; lia)
                (conj Hp (conj Hn Hrun)) Hd Hb)
      as (e & s' & Ha & Hl' & Hi & Hm).
    unfold waiting, mine in Ha. rewrite Ha. cbv iota beta.
    exists s'.
    destruct (deliverable (pending (iter s))) as [| x xs] eqn:Hdel.
    + destruct Hm as (_ & Hd' & Hb'). rewrite Hb'.
      split; [reflexivity |]. split; [exact Hl' |]. split; [exact Hi |].
      split; [intros _; unfold is_done; rewrite ?Hd', ?Hb'; reflexivity
             | intros; discriminate].
    + destruct Hm as (_ & rest & Hb'). rewrite Hb'.
      split; [reflexivity |]. split; [exact Hl' |]. split; [exact Hi |].
      split; [intros; discriminate |].
      intros y ys [= <- <-]. eauto.
  - assert (Hitems : items s = b :: bs)
      by (unfold LazyIter.items; rewrite Hb, Hd; apply app_nil_r).
    rewrite Hitems. exists s.
    unfold LazyIter.peek, is_done. rewrite Hb, Hd. cbn [andb hd_error].
    split; [reflexivity |]. split; [exact Hlive |]. split; [exact Hitems |].
    split; [intros; discriminate |].
    intros x xs [= <- _]. eauto.
  - assert (Hitems : items s = b :: bs ++ deliverable (pending (iter s)))
      by (unfold LazyIter.items; now rewrite Hb, Hd).
    rewrite Hitems. exists s.
    unfold LazyIter.peek, is_done. rewrite Hb, Hd. cbn [andb hd_error].
    split; [reflexivity |]. split; [exact Hlive |]. split; [exact Hitems |].
    split; [intros; discriminate |].
    intros x xs [= <- _]. eauto.
Qed.

(** [next] on a live stream: the first of the items to come, taken;
    the exhausted-stream error only at the end. *)
Lemma next_live (s : stream) :
  live s ->
  match items s with
  | [] =>
      exists s', next s = (Thrown exhausted, s')
                 /\ live s' /\ items s' = [] /\ is_done s' = true
  | x :: xs =>
      exists s', next s = (Returned x, s') /\ live s' /\ items s' = xs
  end.
Proof.
  intros Hlive.
  assert (Hbuffered :
            forall b bs,
              buffer s = b :: bs ->
              exists s', next s = (Returned b, s') /\ live s'
                         /\ items s' = bs ++ (if priv_done s then []
                                               else deliverable (pending (iter s)))).
  { intros b bs Hb. exists (with_buffer bs s).
    unfold LazyIter.next, is_done, shift. rewrite Hb, andb_false_r.
    split; [reflexivity |]. split; [exact Hlive | reflexivity]. }
  destruct (buffer s) as [| b bs] eqn:Hb; destruct (priv_done s) eqn:Hd.
  - assert (Hitems : items s = []) by (unfold LazyIter.items; now rewrite Hb, Hd).
    rewrite Hitems. exists s.
    unfold LazyIter.next, is_done. rewrite Hb, Hd. cbn [andb].
    split; [reflexivity |]. split; [exact Hlive |]. split; [exact Hitems |].
    reflexivity.
  - assert (Hitems : items s = deliverable (pending (iter s)))
      by (unfold LazyIter.items; now rewrite Hb, Hd).
    rewrite Hitems.
    unfold LazyIter.next, is_done. rewrite Hb, Hd. cbn [andb].
    destruct Hlive as (Hp & Hn & Hrun). rewrite Hn, Hp.
    destruct (await_live false (pending (iter s))
                (patience (with_waiters 0 1 s)) s eq_refl
                ltac:(unfold patience; simpl; lia)
                (conj Hp (conj Hn Hrun)) Hd Hb)
      as (e & s' & Ha & Hl' & Hi & Hm).
    unfold waiting, mine in Ha. rewrite Ha. cbv iota beta.
    destruct (deliverable (pending (iter s))) as [| x xs] eqn:Hdel.
    + destruct Hm as (-> & Hd' & Hb').
      exists s'. split; [reflexivity |]. split; [exact Hl' |]. split; [exact Hi |].
      unfold is_done. now rewrite Hd', Hb'.
    + destruct Hm as (-> & rest & Hb').
      unfold shift. rewrite Hb'.
      exists (with_buffer rest s'). split; [reflexivity |].
      split; [exact Hl' |].
      unfold LazyIter.items in *. simpl. rewrite Hb' in Hi. simpl in Hi. congruence.
  - assert (Hitems : items s = b :: bs)
      by (unfold LazyIter.items; rewrite Hb, Hd; apply app_nil_r).
    rewrite Hitems. destruct (Hbuffered b bs eq_refl) as (s' & Hn & Hl' & Hi).
    exists s'. rewrite app_nil_r in Hi. auto.
  - assert (Hitems : items s = b :: bs ++ deliverable (pending (iter s)))
      by (unfold LazyIter.items; now rewrite Hb, Hd).
    rewrite Hitems. destruct (Hbuffered b bs eq_refl) as (s' & Hn & Hl' & Hi).
    exists s'. auto.
Qed.

(** The items to come are read one after the other, to the end. *)
Lemma reads_items (todo : list T) :
  forall s : stream,
    items s = todo ->
    live s ->
    exists s_end s_after,
      reads truthy transformValue s todo s_end
      /\ next s_end = (Thrown exhausted, s_after)
      /\ is_done s_after = true.
Proof.
  induction todo as [| x xs IH]; intros s Htodo Hlive; symmetry in Htodo.
  - pose proof (next_live s Hlive) as Hnext. rewrite <- Htodo in Hnext.
    destruct Hnext as (s' & Hn & _ & _ & Hdone).
    exists s, s'. repeat split; auto. constructor.
  - destruct (peek_live s Hlive) as (s1 & Hpeek & Hlive1 & Hitems1 & _).
    rewrite <- Htodo in Hpeek, Hitems1. simpl in Hpeek.
    pose proof (next_live s1 Hlive1) as Hnext. rewrite Hitems1 in Hnext.
    destruct Hnext as (s2 & Hn & Hlive2 & Hitems2).
    destruct (IH s2 Hitems2 Hlive2) as (s_end & s_after & Hr & Hx & Hd).
    exists s_end, s_after. repeat split; auto.
    eapply reads_cons; eauto.
Qed.

(** X1.  A live stream hands out every deliverable item once, in the
    order of arrival, through [peek] and [next]; after the last one
    [next] fails with the exhausted-stream error and the stream is done. *)
Theorem live_stream_delivers_in_order (s : stream) :
  live s ->
  exists s_end s_after,
    reads truthy transformValue s (items s) s_end
    /\ next s_end = (Thrown exhausted, s_after)
    /\ is_done s_after = true.
Proof. intros Hlive. now apply reads_items. Qed.

End LazyIterDelivery.

(** ** The protocol of the stream *)

Section LazyIterProtocol.

Import LazyIter.

Context {T TRaw : Type}.
Variable truthy : TRaw -> bool.
Variable transformValue : TRaw -> list T.

#[local] Abbreviation stream := (LazyIter.t T TRaw).
#[local] Abbreviation peek := (LazyIter.peek truthy transformValue).
#[local] Abbreviation next := (LazyIter.next truthy transformValue).
#[local] Abbreviation loop_iteration := (LazyIter.loop_iteration truthy transformValue).
#[local] Abbreviation loop_pass := (LazyIter.loop_pass truthy transformValue).
#[local] Abbreviation await := (LazyIter.await truthy transformValue).
#[local] Abbreviation items := (LazyIter.items truthy transformValue).
#[local] Abbreviation call := (LazyIter.call truthy transformValue).
#[local] Abbreviation after := (LazyIter.after truthy transformValue).

(** A rejection is settled only by the pass that sets [#done]. *)
Lemma loop_iteration_rejects (s : stream) :
  In NextRejected (snd (loop_iteration s)) ->
  priv_done (fst (loop_iteration s)) = true.
Proof.
  unfold LazyIter.loop_iteration.
  destruct (pull (iter s)) as [r i'].
  assert (Hpush : forall items0 s0,
             ~ In NextRejected (snd (push_items items0 s0 : stream * list Settled))).
  { intros items0 s0 H. apply (push_items_settled items0 s0) in H.
    destruct H; discriminate. }
  destruct (value r) as [raw |]; [destruct (truthy raw) |].
  - pose proof (Hpush (transformValue raw) (with_iter i' s)) as Hno.
    destruct (push_items _ _) as [s1 es]. simpl in Hno.
    destruct (done r); simpl; [reflexivity | tauto].
  - destruct (done r); simpl; [reflexivity | tauto].
  - destruct (done r); simpl; [reflexivity | tauto].
Qed.

Lemma await_rejected (m : Settled -> bool) (fuel : nat) :
  forall pos s s',
    await m pos fuel s = Woken NextRejected s' -> priv_done s' = true.
Proof.
  induction fuel as [| fuel IH]; intros pos s s' H; simpl in H; try discriminate.
  destruct (0 <? loops s)%nat; try discriminate.
  pose proof (loop_iteration_rejects s) as Hrej.
  destruct (loop_pass_spec truthy transformValue s) as [Hes [l Hst]].
  destruct (loop_pass s) as [s1 es]. simpl in Hes, Hst. subst es s1.
  destruct (settlement m pos (snd (loop_iteration s))) as [e | pos'] eqn:E.
  - injection H as -> <-. apply settlement_In in E. simpl. auto.
  - eauto.
Qed.

(** X2.  For a single consumer, that is a call of [next] made while
    no other call is waiting on the stream, [next] fails in one way only:
    with the exhausted-stream error, and only once the wrapped iterator has
    ended.  In particular the caller never shifts an empty buffer. *)
Theorem next_fails_only_when_exhausted (s : stream) (e : JS.Exn) :
  peekWaitingPromises s = 0 ->
  nextWaitingPromises s = 0 ->
  fst (next s) = Thrown e ->
  e = exhausted /\ priv_done (snd (next s)) = true.
Proof.
  intros _ _.
  unfold LazyIter.next. destruct (is_done s) eqn:Hdone.
  - simpl. intros [= <-]. split; [reflexivity |].
    now apply is_done_iff in Hdone.
  - destruct (buffer s) as [| x xs] eqn:Hb.
    + destruct (LazyIter.await _ _ _ _ _ _) as [e' s2 | s2 |] eqn:Ha;
        try discriminate.
      destruct e'.
      * pose proof (await_mine _ _ _ _ _ _ _ _ Ha). discriminate.
      * pose proof (await_resolved_buffer _ _ _ _ _ _ Ha) as Hne.
        unfold shift. destruct (buffer s2); [congruence | discriminate].
      * simpl. intros [= <-]. split; [reflexivity |].
        eapply await_rejected; eauto.
    + unfold shift. rewrite Hb. discriminate.
Qed.

(** X3.  [peek] on a live stream returns the first item still to be
    delivered, waiting for it to arrive when the buffer is empty, and
    leaves every item in place; it returns nothing only at the end of
    the stream. *)
Theorem peek_waits_without_taking (s : stream) :
  live s ->
  fst (peek s) = Returned (hd_error (items s))
  /\ items (snd (peek s)) = items s
  /\ live (snd (peek s)).
Proof.
  intros Hlive.
  destruct (peek_live truthy transformValue s Hlive) as (s' & Hpeek & Hl & Hi & _).
  rewrite Hpeek. auto.
Qed.

(** X4.  Over a source that settles every pull and ends, a call made
    while no other call is waiting stays pending only when no execution of
    [loop] is left alive, that is after [pause()] with no [resume()]: as
    long as a loop is alive the call is settled, by an item or by the end
    of the source. *)
Theorem pending_call_has_no_loop (s : stream) :
  peekWaitingPromises s = 0 ->
  nextWaitingPromises s = 0 ->
  (fst (peek s) = Pending -> loops (snd (peek s)) = 0)
  /\ (fst (next s) = Pending -> loops (snd (next s)) = 0).
Proof. intros _ _. split; [apply peek_pending | apply next_pending]. Qed.

Lemma done_call (c : Call) (s : stream) :
  is_done s = true -> loops s = 0 ->
  is_done (call c s) = true /\ loops (call c s) = 0.
Proof.
  intros Hdone Hl.
  destruct c; simpl.
  - unfold LazyIter.peek. now rewrite Hdone.
  - unfold LazyIter.next. now rewrite Hdone.
  - auto.
  - unfold resume. pose proof Hdone as Hd. apply is_done_iff in Hd.
    destruct Hd as [-> _]. auto.
  - now rewrite Hl.
Qed.

(** X5.  Once [done] holds and no loop is left, it holds for good:
    whatever is called afterwards, [resume()] answers [false] and starts
    nothing, [peek()] returns nothing and [next()] fails. *)
Theorem done_is_permanent (calls : list Call) (s : stream) :
  is_done s = true ->
  loops s = 0 ->
  let s' := after calls s in
  is_done s' = true
  /\ loops s' = 0
  /\ fst (resume s') = false
  /\ fst (peek s') = Returned None
  /\ fst (next s') = Thrown exhausted.
Proof.
  intros Hdone Hl.
  assert (Hinv : is_done (after calls s) = true /\ loops (after calls s) = 0).
  { revert s Hdone Hl. induction calls as [| c calls IH]; intros s Hdone Hl; simpl; auto.
    apply IH; now apply done_call. }
  destruct Hinv as [Hd' Hl']. simpl.
  repeat split; auto.
  - unfold resume. apply is_done_iff in Hd'. destruct Hd' as [-> _]. reflexivity.
  - unfold LazyIter.peek. now rewrite Hd'.
  - unfold LazyIter.next. now rewrite Hd'.
Qed.

(** With nobody waiting, a pass moves the items of one result from the
    iterator to the buffer. *)
Lemma loop_pass_items (s : stream) :
  peekWaitingPromises s = 0 -> nextWaitingPromises s = 0 ->
  priv_done s = false ->
  items (fst (loop_pass s)) = items s
  /\ peekWaitingPromises (fst (loop_pass s)) = 0
  /\ nextWaitingPromises (fst (loop_pass s)) = 0
  /\ (priv_reading s = false -> loops (fst (loop_pass s)) = pred (loops s)).
Proof.
  intros Hp Hn Hd.
  unfold LazyIter.loop_pass, LazyIter.loop_iteration, LazyIter.items, pull.
  rewrite Hd.
  destruct s as [d rd b p n [pend comp] l]; simpl in Hp, Hn, Hd; subst. simpl.
  destruct pend as [| r rs]; simpl.
  - rewrite app_nil_r. repeat split; auto.
  - assert (Hpush : forall new_items,
               push_items new_items
                 {| priv_done := false; priv_reading := rd; buffer := b;
                    peekWaitingPromises := 0; nextWaitingPromises := 0;
                    iter := {| pending := rs; completed := comp || done r |};
                    loops := l |}
               = ({| priv_done := false; priv_reading := rd; buffer := b ++ new_items;
                     peekWaitingPromises := 0; nextWaitingPromises := 0;
                     iter := {| pending := rs; completed := comp || done r |};
                     loops := l |}, [])).
    { intros new_items. now rewrite (push_items_quiet new_items) by reflexivity. }
    unfold LazyIter.contribution.
    destruct (value r) as [raw |]; [destruct (truthy raw) |];
      rewrite ?Hpush; destruct (done r); destruct rd; simpl;
      rewrite ?app_nil_r, <- ?app_assoc; repeat split; auto; discriminate.
Qed.

(** X6.  [pause()] lets the result in flight arrive and then stops the
    pulling: a call on the empty buffer stays pending.  [resume()] brings
    the stream back to life with every item still to be delivered: pausing
    loses nothing. *)
Theorem pause_then_resume_loses_nothing (s : stream) :
  live s ->
  priv_done s = false ->
  loops s = 1 ->
  let paused := call LoopPass (pause s) in
  items paused = items s
  /\ loops paused = 0
  /\ call LoopPass paused = paused
  /\ (is_done paused = false -> buffer paused = [] -> fst (peek paused) = Pending)
  /\ fst (resume paused) = negb (priv_done paused)
  /\ live (snd (resume paused))
  /\ items (snd (resume paused)) = items s.
Proof.
  intros (Hp & Hn & _) Hd Hl. cbn zeta.
  assert (Hcall : call LoopPass (pause s) = fst (loop_pass (pause s))).
  { simpl. now rewrite Hl. }
  rewrite Hcall.
  destruct (loop_pass_items (pause s) Hp Hn Hd) as (Hi & Hp' & Hn' & Hl').
  specialize (Hl' eq_refl). simpl in Hl'. rewrite Hl in Hl'. simpl in Hl'.
  set (paused := fst (loop_pass (pause s))) in *.
  assert (Hitems : items paused = items s) by (rewrite Hi; reflexivity).
  split; [exact Hitems |]. split; [exact Hl' |].
  split; [simpl; now rewrite Hl' |].
  split.
  { intros Hnd Hb. unfold LazyIter.peek. rewrite Hnd, Hb.
    unfold patience. cbn [LazyIter.await]. simpl loops. now rewrite Hl'. }
  unfold resume. destruct (priv_done paused) eqn:Hd'; simpl.
  - repeat split; auto; congruence.
  - repeat split; auto; simpl; lia.
Qed.

End LazyIterProtocol.

(** ** The classifier *)

Section TransportFacts.

Import JS Transport.

Variable rt : Runtime.
Variable SERVICE_NAME : string.

#[local] Abbreviation handleLog := (Transport.handleLog rt).
#[local] Abbreviation handleLine := (Transport.handleLine rt).
#[local] Abbreviation now := (Transport.now rt).

(** *** handleLog *)

Lemma name_warning_has_no_name (datetime : string) (log : Log) :
  read "name" (name_warning datetime log) = Undefined
  /\ remove "name" (name_warning datetime log) = name_warning datetime log.
Proof. split; reflexivity. Qed.

(** The equation of the source: warn first when [name] is set, then
    push the rest. *)
Lemma handleLog_unfold (log : Log) (w : World) :
  handleLog log w
  = ((if truthy (read "name" log)
      then datetime <- now ;; handleLog (name_warning datetime log)
      else ret tt) ;;
     push (remove "name" log)) w.
Proof.
  unfold Transport.handleLog at 1. simpl.
  destruct (truthy (read "name" log)); reflexivity.
Qed.

Lemma handleLog_plain (log : Log) (w : World) :
  truthy (read "name" log) = false ->
  handleLog log w = push (remove "name" log) w.
Proof. intros H. rewrite handleLog_unfold, H. reflexivity. Qed.

Lemma handleLog_named (log : Log) (w : World) :
  truthy (read "name" log) = true ->
  handleLog log w
  = (Returned tt,
     with_batch
       (batch w ++ [name_warning (Date_now_ISO rt (clock w)) log; remove "name" log])
       (with_clock (S (clock w)) w)).
Proof.
  intros H. rewrite handleLog_unfold, H. unfold bind, Transport.now.
  rewrite handleLog_plain by reflexivity.
  destruct w; unfold push, with_batch, with_clock; simpl.
  now rewrite <- app_assoc.
Qed.

(** [handleLog] always returns. *)
Lemma handleLog_returns (log : Log) (w : World) :
  fst (handleLog log w) = Returned tt.
Proof.
  destruct (truthy (read "name" log)) eqn:H.
  - now rewrite handleLog_named.
  - now rewrite handleLog_plain.
Qed.

(** C10.  A record whose [name] is present with a falsy value is
    appended without its [name], and nothing else is appended: no
    warning is written, and the clock is not even read. *)
Theorem falsy_name_stripped_without_warning (log : Log) (v : Value) (w : World) :
  get "name" log = Some v ->
  truthy v = false ->
  handleLog log w = (Returned tt, with_batch (batch w ++ [remove "name" log]) w)
  /\ has "name" (remove "name" log) = false.
Proof.
  intros Hget Hfalsy. split.
  - apply handleLog_plain. unfold read. now rewrite Hget.
  - apply has_remove_same.
Qed.

(** *** Lines with a missing field *)

Lemma handleInvalid_spec (log : Value) (field : string) (w : World) :
  handleInvalid rt log field w
  = (Returned tt,
     with_batch (batch w ++ [missing_field_warning (Date_now_ISO rt (clock w)) field log])
       (with_clock (S (clock w)) w)).
Proof.
  unfold handleInvalid, bind, Transport.now.
  rewrite handleLog_plain by reflexivity. reflexivity.
Qed.

(** C6.  A line that parses as an object without [time], or with
    [time] and without [level], appends exactly one record: the [warn]
    diagnostic that names the missing field (the first one missing) and
    holds the parsed object under [log].  No other record is appended. *)
Theorem missing_field_one_warning (line : string) (o : Object) (w : World) :
  JSON_parse rt line = Some (Obj o) ->
  has "time" o && has "level" o = false ->
  let field := if has "time" o then "level" else "time" in
  let diagnostic := missing_field_warning (Date_now_ISO rt (clock w)) field (Obj o) in
  handleLine line w
  = (Returned tt, with_batch (batch w ++ [diagnostic]) (with_clock (S (clock w)) w))
  /\ read "level" diagnostic = Str "warn"
  /\ read "message" diagnostic = Str ("Invalid log line, missing " ++ field ++ " field")
  /\ read "log" diagnostic = Obj o.
Proof.
  intros Hparse Hmissing. simpl. split; [| repeat split].
  unfold Transport.handleLine, try_catch, handleLine_try, parse.
  rewrite Hparse. unfold bind at 1. unfold ret at 1.
  unfold has_field, in_. unfold bind at 1. unfold ret at 1.
  destruct (has "time" o) eqn:Htime; cbn [negb].
  - simpl in Hmissing. unfold bind at 1. unfold ret at 1. rewrite Hmissing.
    cbn [negb]. now rewrite handleInvalid_spec.
  - now rewrite handleInvalid_spec.
Qed.

(** A line that parses as an array has no [time] either and gets the
    same warning. *)
Lemma array_line_one_warning (line : string) (items : list Value) (w : World) :
  JSON_parse rt line = Some (Arr items) ->
  handleLine line w
  = (Returned tt,
     with_batch
       (batch w ++ [missing_field_warning (Date_now_ISO rt (clock w)) "time" (Arr items)])
       (with_clock (S (clock w)) w)).
Proof.
  intros Hparse.
  unfold Transport.handleLine, try_catch, handleLine_try, parse.
  rewrite Hparse. unfold bind at 1. unfold ret at 1.
  unfold has_field, in_. unfold bind at 1. unfold ret at 1. cbn [negb].
  now rewrite handleInvalid_spec.
Qed.

(** A line that parses as a number, a string, a boolean or [null] makes
    the [in] test throw and goes down the crash path like text that does
    not parse. *)
Lemma primitive_line_is_crash (line : string) (v : Value) (w : World) :
  JSON_parse rt line = Some v ->
  in_ "time" v = inl TypeError ->
  handleLine line w = handleLine_catch rt line w.
Proof.
  intros Hparse Hin.
  unfold Transport.handleLine, try_catch, handleLine_try, parse.
  rewrite Hparse. unfold bind at 1. unfold ret at 1.
  unfold has_field. rewrite Hin. reflexivity.
Qed.

(** *** Structured lines *)

Lemma Qeq_bool_inject (q : Q) (n k : Z) :
  Qeq q (inject_Z n) -> Qeq_bool q (inject_Z k) = (k =? n)%Z.
Proof.
  intros Hq. destruct (Z.eqb_spec k n) as [-> | Hne].
  - now apply Qeq_bool_iff.
  - destruct (Qeq_bool q (inject_Z k)) eqn:E; auto.
    apply Qeq_bool_iff in E. rewrite Hq in E.
    apply (proj1 (inject_Z_injective n k)) in E. congruence.
Qed.

(** The table of the source read at a number is the table of the
    specification. *)
Lemma LEVELS_MAP_numeric (q : Q) :
  exists name,
    LEVELS_MAP_get rt (Num q) = inr name
    /\ nullish name (level_value unknown) = Str (severity_name q).
Proof.
  unfold LEVELS_MAP_get, severity_name.
  eexists. split; [reflexivity |].
  destruct (Qeq_bool q (inject_Z (Qfloor q))) eqn:Eint.
  - apply Qeq_bool_iff in Eint.
    rewrite !(Qeq_bool_inject q (Qfloor q)) by exact Eint.
    unfold LEVELS_MAP. cbn [table_entry].
    repeat match goal with
           | |- context [(?k =? Qfloor q)%Z] => destruct (k =? Qfloor q)%Z; [reflexivity |]
           end.
    reflexivity.
  - assert (Hnot : forall k, Qeq_bool q (inject_Z k) = false).
    { intros k. destruct (Qeq_bool q (inject_Z k)) eqn:E; auto.
      apply Qeq_bool_iff in E.
      assert (Hfloor : Qfloor q = k) by (rewrite E; apply Qfloor_Z).
      rewrite Hfloor in Eint.
      apply Qeq_bool_iff in E. congruence. }
    now rewrite !Hnot.
Qed.

Lemma final_spec (o : Object) (t : Q) (tv : Z) (name : Value) (w : World) :
  get "time" o = Some (Num t) ->
  Date.TimeClip t = Some tv ->
  LEVELS_MAP_get rt (read "level" o) = inr name ->
  exists record : Log,
    final rt (Obj o) w = (Returned record, w)
    /\ get "level" record = Some (nullish name (level_value unknown))
    /\ get "message" record = Some (read "msg" o)
    /\ get "error" record = Some (read "err" o)
    /\ get "datetime" record = Some (Str (Date.toISOString tv))
    /\ carries_through ["msg"; "time"; "err"; "level"; "message"; "error"; "datetime"] o record.
Proof.
  intros Htime Hclip Hlevel.
  assert (Hread : read "time" o = Num t) by (unfold read; now rewrite Htime).
  unfold final, properties. cbv zeta. rewrite Hread.
  unfold Date.ISO_of, Date.construct. rewrite Hclip, Hlevel.
  eexists. split; [reflexivity |].
  set (rest := remove "level" (remove "err" (remove "time" (remove "msg" o)))).
  split; [| split; [| split; [| split]]].
  - apply (get_assign_last "level" _ [_; _; _] []). simpl. tauto.
  - apply (get_assign_last "message" _ [] [_; _; _]). simpl. intuition discriminate.
  - apply (get_assign_last "error" _ [_] [_; _]). simpl. intuition discriminate.
  - apply (get_assign_last "datetime" _ [_; _] [_]). simpl. intuition discriminate.
  - intros k Hk. simpl in Hk.
    rewrite get_assign_other by (simpl; intuition).
    unfold rest.
    rewrite !get_remove_other by (intro; subst; intuition).
    reflexivity.
Qed.

(** C5, as the code has it.  A line that parses as an object whose
    [time] is a number in the range of dates and whose [level] is a
    number appends a record with the level of the table, [message] equal
    to the object's [msg], [error] equal to its [err], [datetime] the
    ISO-8601 text of [time], no [name], and every field other than
    [msg], [err], [time], [level], [message], [error], [datetime] and
    [name] as the object has it.  A warning precedes it when the object
    has a truthy [name]. *)
Theorem structured_line_record
  (line : string) (o : Object) (t lvl : Q) (tv : Z) (w : World) :
  JSON_parse rt line = Some (Obj o) ->
  get "time" o = Some (Num t) ->
  Date.TimeClip t = Some tv ->
  get "level" o = Some (Num lvl) ->
  exists record emitted : Log,
    emitted = remove "name" record
    /\ fst (handleLine line w) = Returned tt
    /\ batch (snd (handleLine line w))
       = batch w
         ++ (if truthy (read "name" o)
             then [name_warning (Date_now_ISO rt (clock w)) record]
             else [])
         ++ [emitted]
    /\ get "level" emitted = Some (Str (severity_name lvl))
    /\ get "message" emitted = Some (read "msg" o)
    /\ get "error" emitted = Some (read "err" o)
    /\ get "datetime" emitted = Some (Str (Date.toISOString tv))
    /\ get "name" emitted = None
    /\ carries_through
         ["msg"; "time"; "err"; "level"; "message"; "error"; "datetime"; "name"]
         o emitted.
Proof.
  intros Hparse Htime Hclip Hlevel.
  destruct (LEVELS_MAP_numeric lvl) as (name & Hname_of & Hseverity).
  assert (Hkey : LEVELS_MAP_get rt (read "level" o) = inr name)
    by (unfold read; now rewrite Hlevel).
  destruct (final_spec o t tv name w Htime Hclip Hkey)
    as (record & Hfinal & Hl & Hm & He & Hd & Hcarry).
  exists record, (remove "name" record).
  assert (Hname : read "name" record = read "name" o).
  { unfold read. rewrite Hcarry; [reflexivity |]. simpl. intuition discriminate. }
  assert (Hrun : handleLine line w = handleLog record w).
  { unfold Transport.handleLine, try_catch, handleLine_try, parse.
    rewrite Hparse. unfold bind at 1. unfold ret at 1.
    unfold has_field, in_, has. rewrite Htime, Hlevel.
    unfold bind at 1. unfold ret at 1. cbn [negb].
    unfold bind at 1. unfold ret at 1. cbn [negb].
    unfold bind at 1. rewrite Hfinal.
    pose proof (handleLog_returns record w) as Hret.
    destruct (Transport.handleLog rt record w) as [[| |] w']; simpl in Hret;
      try discriminate; reflexivity. }
  rewrite Hrun.
  split; [reflexivity |].
  split; [apply handleLog_returns |].
  split.
  { destruct (truthy (read "name" o)) eqn:Hn.
    - rewrite handleLog_named by congruence. reflexivity.
    - rewrite handleLog_plain by congruence. reflexivity. }
  rewrite !get_remove_other by discriminate.
  rewrite Hseverity in Hl.
  repeat split; auto using get_remove_same.
  intros k Hk. simpl in Hk.
  rewrite get_remove_other by (intro; subst; intuition).
  apply Hcarry. simpl. intuition.
Qed.

(** *** The lookahead of the crash path *)

#[local] Abbreviation upcoming := (LazyIter.upcoming truthy_chunk split_lines).
#[local] Abbreviation unparseable := (fun line : string => negb (isValidJson rt line)).

Lemma rebuffer_same (w : World) (lines : list string) :
  LazyIter.buffer (iter w) = lines -> rebuffer lines w = w.
Proof. intros <-. destruct w as [b [] c p a]. reflexivity. Qed.

Lemma rebuffer_rebuffer (w : World) (lines lines' : list string) :
  rebuffer lines (rebuffer lines' w) = rebuffer lines w.
Proof. reflexivity. Qed.

Lemma iter_peekAnd_buffered (is_ : string -> bool) (w : World) (x : string) (xs : list string) :
  LazyIter.buffer (iter w) = x :: xs ->
  iter_peekAnd is_ w = (Returned (if is_ x then Some x else None), w).
Proof.
  intros H. unfold iter_peekAnd.
  rewrite (peekAnd_buffered _ _ is_ (iter w) x xs H).
  f_equal. destruct w. reflexivity.
Qed.

Lemma iter_next_buffered (w : World) (x : string) (xs : list string) :
  LazyIter.buffer (iter w) = x :: xs ->
  iter_next w = (Returned x, rebuffer xs w).
Proof.
  intros H. unfold iter_next. now rewrite (next_buffered _ _ (iter w) x xs H).
Qed.

Lemma upcoming_iter_peekAnd (is_ : string -> bool) (w : World) :
  upcoming (iter (snd (iter_peekAnd is_ w))) = upcoming (iter w).
Proof.
  unfold iter_peekAnd, LazyIter.peekAnd.
  pose proof (upcoming_peek truthy_chunk split_lines (iter w)) as H.
  destruct (LazyIter.peek truthy_chunk split_lines (iter w)) as [[[x |] | |] s'];
    simpl in *; exact H.
Qed.

Lemma upcoming_iter_next (w : World) (x : string) (w' : World) :
  iter_next w = (Returned x, w') -> S (upcoming (iter w')) = upcoming (iter w).
Proof.
  unfold iter_next.
  pose proof (upcoming_next truthy_chunk split_lines (iter w)) as H.
  destruct (LazyIter.next truthy_chunk split_lines (iter w)) as [r s'].
  intros E. injection E as -> <-. simpl. eauto.
Qed.

(** The loop ends within the fuel [collect] gives it: each line taken
    is one line less to come. *)
Lemma lookahead_total (fuel : nat) :
  forall (stackParts : list string) (w : World),
    upcoming (iter w) < fuel -> lookahead rt fuel stackParts w <> None.
Proof.
  induction fuel as [| fuel IH]; intros parts w Hfuel; [lia |].
  simpl.
  pose proof (upcoming_iter_peekAnd unparseable w) as Hpeek.
  destruct (iter_peekAnd unparseable w) as [[[x |] | |] w1]; try discriminate.
  simpl in Hpeek.
  pose proof (upcoming_iter_next w1) as Hnext.
  destruct (iter_next w1) as [[y | |] w2]; try discriminate.
  apply IH. specialize (Hnext y w2 eq_refl). lia.
Qed.

(** The equation of the [while] loop. *)
Lemma collect_unfold (stackParts : list string) (w : World) :
  collect rt stackParts w
  = match iter_peekAnd unparseable w with
    | (Returned (Some next), w1) =>
        match iter_next w1 with
        | (Returned _, w2) => collect rt (stackParts ++ [next]) w2
        | (Thrown e, w2) => (Thrown e, w2)
        | (Pending, w2) => (Pending, w2)
        end
    | (Returned None, w1) => (Returned stackParts, w1)
    | (Thrown e, w1) => (Thrown e, w1)
    | (Pending, w1) => (Pending, w1)
    end.
Proof.
  unfold collect at 1. cbn [lookahead].
  pose proof (upcoming_iter_peekAnd unparseable w) as Hpeek.
  destruct (iter_peekAnd unparseable w) as [[[x |] | |] w1]; try reflexivity.
  simpl in Hpeek.
  pose proof (upcoming_iter_next w1) as Hnext.
  destruct (iter_next w1) as [[y | |] w2]; try reflexivity.
  specialize (Hnext y w2 eq_refl).
  unfold collect. rewrite <- Hpeek, <- Hnext.
  pose proof (lookahead_total (S (upcoming (iter w2))) (stackParts ++ [x]) w2) as Htotal.
  destruct (lookahead rt (S (upcoming (iter w2))) (stackParts ++ [x]) w2);
    [reflexivity | exfalso; apply Htotal; [lia | reflexivity]].
Qed.

(** A peeked line on which [JSON.parse] throws is consumed and becomes
    the next fragment. *)
Lemma collect_takes
  (stackParts : list string) (w : World) (peeked : string) (rest : list string) :
  LazyIter.buffer (iter w) = peeked :: rest ->
  JSON_parse rt peeked = None ->
  collect rt stackParts w = collect rt (stackParts ++ [peeked]) (rebuffer rest w).
Proof.
  intros Hbuf Hparse.
  rewrite collect_unfold, (iter_peekAnd_buffered _ w peeked rest Hbuf).
  unfold isValidJson. rewrite Hparse. cbn [negb].
  now rewrite (iter_next_buffered w peeked rest Hbuf).
Qed.

(** A peeked line that parses ends the scan and stays where it is. *)
Lemma collect_stops
  (stackParts : list string) (w : World) (peeked : string) (rest : list string) :
  LazyIter.buffer (iter w) = peeked :: rest ->
  JSON_parse rt peeked <> None ->
  collect rt stackParts w = (Returned stackParts, w).
Proof.
  intros Hbuf Hparse.
  rewrite collect_unfold, (iter_peekAnd_buffered _ w peeked rest Hbuf).
  unfold isValidJson. destruct (JSON_parse rt peeked); [reflexivity | congruence].
Qed.

(** C4, as the code has it.  Whenever the scan peeks a line, be it
    buffered already or awaited, it takes that line as a fragment exactly
    when [JSON.parse] throws on it, and carries on with the line consumed;
    as soon as the peeked line parses, as any JSON value, the scan ends
    with that line left at the head of the stream. *)
Theorem lookahead_consumes_unparseable
  (stackParts : list string) (w : World) (peeked : string)
  (s' : LazyIter.t string string) :
  LazyIter.peek truthy_chunk split_lines (iter w) = (Returned (Some peeked), s') ->
  exists rest,
    LazyIter.buffer s' = peeked :: rest
    /\ (JSON_parse rt peeked = None ->
        collect rt stackParts w
        = collect rt (stackParts ++ [peeked])
            (Transport.with_iter (LazyIter.with_buffer rest s') w))
    /\ (JSON_parse rt peeked <> None ->
        collect rt stackParts w = (Returned stackParts, Transport.with_iter s' w)).
Proof.
  intros Hpeek.
  destruct (peek_returns_head _ _ _ _ _ Hpeek) as [rest Hbuf].
  exists rest. split; [exact Hbuf |].
  assert (Hscan : iter_peekAnd unparseable w
                  = (Returned (if unparseable peeked then Some peeked else None),
                     Transport.with_iter s' w)).
  { unfold iter_peekAnd, LazyIter.peekAnd. now rewrite Hpeek. }
  split; intros Hparse; rewrite collect_unfold, Hscan; unfold isValidJson.
  - rewrite Hparse. cbn [negb].
    now rewrite (iter_next_buffered (Transport.with_iter s' w) peeked rest Hbuf).
  - destruct (JSON_parse rt peeked); [reflexivity | congruence].
Qed.

(** When the stream ends under the scan, the scan ends with it. *)
Lemma lookahead_ends_with_stream
  (stackParts : list string) (w : World) (s' : LazyIter.t string string) :
  LazyIter.peek truthy_chunk split_lines (iter w) = (Returned None, s') ->
  collect rt stackParts w = (Returned stackParts, Transport.with_iter s' w).
Proof.
  intros Hpeek. rewrite collect_unfold.
  unfold iter_peekAnd, LazyIter.peekAnd. now rewrite Hpeek.
Qed.

(** A run of unparseable lines that the stream delivers is collected
    whole. *)
Lemma collect_reads (s s1 : LazyIter.t string string) (ls : list string) :
  LazyIter.reads truthy_chunk split_lines s ls s1 ->
  forall (stackParts : list string) (w : World),
    iter w = s ->
    Forall (fun l => JSON_parse rt l = None) ls ->
    collect rt stackParts w
    = collect rt (stackParts ++ ls) (Transport.with_iter s1 w).
Proof.
  induction 1 as [s | s s1 s2 s' x xs Hpeek Hnext Hreads IH];
    intros parts w Hiter Hls.
  - subst s. rewrite app_nil_r. now destruct w.
  - inversion Hls as [| ? ? Hx Hxs]; subst.
    rewrite collect_unfold.
    unfold iter_peekAnd, LazyIter.peekAnd. rewrite Hpeek.
    unfold isValidJson. rewrite Hx. cbn [negb].
    unfold iter_next. cbn [iter Transport.with_iter]. rewrite Hnext.
    change (Transport.with_iter s2 (Transport.with_iter s1 w))
      with (Transport.with_iter s2 w).
    rewrite (IH (parts ++ [x]) (Transport.with_iter s2 w) eq_refl Hxs).
    now rewrite <- app_assoc.
Qed.

Lemma is_structured_parses (line : string) :
  is_structured rt line = true -> JSON_parse rt line <> None.
Proof. unfold is_structured. destruct (JSON_parse rt line); [discriminate | discriminate]. Qed.

(** A line that parses as an object with a [time] in the range of
    dates and a numeric [level] is handed to [handleLog] as the record
    [final] makes of it. *)
Lemma structured_line_handled
  (line : string) (o : Object) (t lvl : Q) (tv : Z) (w : World) :
  JSON_parse rt line = Some (Obj o) ->
  get "time" o = Some (Num t) ->
  Date.TimeClip t = Some tv ->
  get "level" o = Some (Num lvl) ->
  exists own : Log,
    handleLine line w = handleLog own w
    /\ read "name" own = read "name" o
    /\ get "level" own = Some (Str (severity_name lvl))
    /\ get "datetime" own = Some (Str (Date.toISOString tv))
    /\ get "message" own = Some (read "msg" o).
Proof.
  intros Hparse Htime Hclip Hlevel.
  destruct (LEVELS_MAP_numeric lvl) as (name & Hname_of & Hseverity).
  assert (Hkey : LEVELS_MAP_get rt (read "level" o) = inr name)
    by (unfold read; now rewrite Hlevel).
  destruct (final_spec o t tv name w Htime Hclip Hkey)
    as (own & Hfinal & Hl & Hm & _ & Hd & Hcarry).
  exists own. rewrite Hseverity in Hl.
  split; [| split; [| auto]].
  - unfold Transport.handleLine, try_catch, handleLine_try, parse.
    rewrite Hparse. unfold bind at 1. unfold ret at 1.
    unfold has_field, in_, has. rewrite Htime, Hlevel.
    unfold bind at 1. unfold ret at 1. cbn [negb].
    unfold bind at 1. unfold ret at 1. cbn [negb].
    unfold bind at 1. rewrite Hfinal.
    pose proof (handleLog_returns own w) as Hret.
    destruct (Transport.handleLog rt own w) as [[| |] w']; simpl in Hret;
      try discriminate; reflexivity.
  - unfold read. rewrite Hcarry; [reflexivity |]. simpl. intuition discriminate.
Qed.

(** C3, as the code has it.  A run of unparseable lines (the one
    handed to [handleLine] and those the stream delivers after it,
    buffered or still to arrive) followed by a structured line whose
    [time] is in the range of dates.  Without the marker in any line of
    the run nothing is appended; with it, exactly one record is appended,
    at level [fatal], whose [error.stack] is the lines of the run joined by
    newlines in their order.  Either way the structured line is left at
    the head of the stream, and the next pass of the driver loop takes it
    and appends its own record: the one of its level and [time], without
    [name], after a warning when it has a truthy [name]. *)
Theorem crash_run_then_structured_line
  (line : string) (ls : list string) (v : string)
  (o : Object) (t lvl : Q) (tv : Z)
  (s1 s2 : LazyIter.t string string) (w : World) :
  JSON_parse rt line = None ->
  Forall (fun l => JSON_parse rt l = None) ls ->
  JSON_parse rt v = Some (Obj o) ->
  get "time" o = Some (Num t) ->
  Date.TimeClip t = Some tv ->
  get "level" o = Some (Num lvl) ->
  LazyIter.reads truthy_chunk split_lines (iter w) ls s1 ->
  LazyIter.peek truthy_chunk split_lines s1 = (Returned (Some v), s2) ->
  let run := line :: ls in
  let record := crash_log (Date_now_ISO rt (clock w)) run in
  let w' :=
    if existsb has_marker run
    then with_batch (batch w ++ [record])
           (with_clock (S (clock w)) (Transport.with_iter s2 w))
    else Transport.with_iter s2 w in
  handleLine line w = (Returned tt, w')
  /\ read "level" record = Str "fatal"
  /\ member "stack" (read "error" record) = Str (Str.join Str.newline run)
  /\ exists (rest : list string) (own emitted : Log),
       LazyIter.buffer (iter w') = v :: rest
       /\ emitted = remove "name" own
       /\ fst (driver_iteration rt w') = Returned tt
       /\ batch (snd (driver_iteration rt w'))
          = batch w'
            ++ (if truthy (read "name" o)
                then [name_warning (Date_now_ISO rt (clock w')) own]
                else [])
            ++ [emitted]
       /\ get "level" emitted = Some (Str (severity_name lvl))
       /\ get "datetime" emitted = Some (Str (Date.toISOString tv))
       /\ get "message" emitted = Some (read "msg" o)
       /\ LazyIter.buffer (iter (snd (driver_iteration rt w'))) = rest.
Proof.
  intros Hline Hls Hv Htime Hclip Hlevel Hreads Hpeek run record w'.
  split; [| split; [reflexivity | split; [reflexivity |]]].
  - unfold Transport.handleLine, try_catch, handleLine_try, parse.
    rewrite Hline. unfold bind at 1. unfold throw at 1.
    unfold handleLine_catch, bind at 1.
    rewrite (collect_reads _ _ _ Hreads [line] w eq_refl Hls).
    change ([line] ++ ls) with run.
    assert (Hstop : collect rt run (Transport.with_iter s1 w)
                    = (Returned run, Transport.with_iter s2 w)).
    { rewrite collect_unfold. unfold iter_peekAnd, LazyIter.peekAnd.
      cbn [iter Transport.with_iter]. rewrite Hpeek.
      unfold isValidJson. now rewrite Hv. }
    rewrite Hstop. subst w'.
    destruct (existsb has_marker run); cbn [negb]; [| reflexivity].
    unfold bind, Transport.now. rewrite handleLog_plain by reflexivity.
    reflexivity.
  - destruct (peek_returns_head _ _ _ _ _ Hpeek) as [rest Hbuf].
    assert (Hhead : LazyIter.buffer (iter w') = v :: rest).
    { subst w'. now destruct (existsb has_marker run). }
    destruct (structured_line_handled v o t lvl tv (rebuffer rest w')
                Hv Htime Hclip Hlevel) as (own & Hrun & Hname & Hl & Hd & Hm).
    exists rest, own, (remove "name" own).
    assert (Hpass : driver_iteration rt w' = handleLog own (rebuffer rest w')).
    { unfold driver_iteration, try_catch, bind.
      rewrite (iter_next_buffered w' v rest Hhead), Hrun.
      pose proof (handleLog_returns own (rebuffer rest w')) as Hret.
      destruct (Transport.handleLog rt own (rebuffer rest w')) as [[| |] w2];
        simpl in Hret; try discriminate; reflexivity. }
    rewrite Hpass, !get_remove_other by discriminate.
    split; [exact Hhead |]. split; [reflexivity |].
    split; [apply handleLog_returns |].
    rewrite <- Hname.
    destruct (truthy (read "name" own)) eqn:Hn.
    + rewrite handleLog_named by exact Hn. cbn. auto 6.
    + rewrite handleLog_plain by exact Hn. cbn. auto 6.
Qed.

(** The same with the run already in the buffer when its first line is
    handled. *)
Lemma crash_run_buffered
  (line : string) (ls : list string) (v : string) (rest : list string) (w : World) :
  JSON_parse rt line = None ->
  Forall (fun l => JSON_parse rt l = None) ls ->
  JSON_parse rt v <> None ->
  LazyIter.buffer (iter w) = ls ++ v :: rest ->
  handleLine_catch rt line w
  = (if existsb has_marker (line :: ls)
     then datetime <- now ;; handleLog (crash_log datetime (line :: ls))
     else ret tt) (rebuffer (v :: rest) w).
Proof.
  intros Hline Hls Hv Hbuf.
  unfold handleLine_catch, bind at 1.
  rewrite (collect_reads _ _ _ (reads_buffered _ _ ls (iter w) (v :: rest) Hbuf)
             [line] w eq_refl Hls).
  change (Transport.with_iter (LazyIter.with_buffer (v :: rest) (iter w)) w)
    with (rebuffer (v :: rest) w).
  rewrite (collect_stops ([line] ++ ls) (rebuffer (v :: rest) w) v rest eq_refl Hv).
  change ([line] ++ ls) with (line :: ls).
  now destruct (existsb has_marker (line :: ls)).
Qed.

(** *** The batch invariant *)

Lemma keeps_ret {A} (Q : A -> Prop) (a : A) : Q a -> keeps Q (ret a).
Proof. intros H w Hw. split; auto. simpl. now intros ? [= <-]. Qed.

Lemma keeps_throw {A} (Q : A -> Prop) (e : Exn) : keeps Q (throw e).
Proof. intros w Hw. split; auto. simpl. discriminate. Qed.

Lemma keeps_bind {A B} (Q : A -> Prop) (R : B -> Prop) (m : M A) (k : A -> M B) :
  keeps Q m -> (forall a, Q a -> keeps R (k a)) -> keeps R (bind m k).
Proof.
  intros Hm Hk w Hw. unfold bind.
  destruct (Hm w Hw) as [Hw1 Ha].
  destruct (m w) as [[a | e |] w1]; simpl in *.
  - apply Hk; auto.
  - split; auto. discriminate.
  - split; auto. discriminate.
Qed.

Lemma keeps_try_catch {A} (Q : A -> Prop) (body handler : M A) :
  keeps Q body -> keeps Q handler -> keeps Q (try_catch body handler).
Proof.
  intros Hb Hh w Hw. unfold try_catch.
  destruct (Hb w Hw) as [Hw1 Ha].
  destruct (body w) as [[a | e |] w1]; simpl in *;
    [split; auto | apply Hh; auto | split; [auto | discriminate]].
Qed.

Lemma keeps_now : keeps (fun _ => True) now.
Proof. intros w Hw. split; auto. Qed.

Lemma keeps_push (log : Log) :
  well_formed log = true -> keeps (fun _ => True) (push log).
Proof.
  intros Hlog w Hw. split; auto. unfold batch_ok in *. simpl.
  rewrite forallb_app, Hw. simpl. now rewrite Hlog.
Qed.

Lemma well_formed_rest (log : Log) :
  has "datetime" log = true -> has "level" log = true ->
  well_formed (remove "name" log) = true.
Proof.
  intros Hd Hl. unfold well_formed.
  rewrite !has_remove_other by discriminate.
  now rewrite has_remove_same, Hd, Hl.
Qed.

(** What [handleLog] appends is well formed, whenever it is given a
    record with [datetime] and [level]. *)
Lemma keeps_handleLog (log : Log) :
  has "datetime" log = true -> has "level" log = true ->
  keeps (fun _ => True) (handleLog log).
Proof.
  intros Hd Hl w Hw. split; auto.
  destruct (truthy (read "name" log)) eqn:Hn.
  - rewrite handleLog_named by assumption. unfold batch_ok in *. simpl.
    rewrite forallb_app, Hw. simpl.
    now rewrite well_formed_rest.
  - rewrite handleLog_plain by assumption.
    now apply keeps_push; [apply well_formed_rest |].
Qed.

Lemma keeps_stream {A} (m : M A) :
  (forall w, batch (snd (m w)) = batch w) -> keeps (fun _ => True) m.
Proof. intros H w Hw. split; auto. unfold batch_ok. now rewrite H. Qed.

Lemma batch_iter_peekAnd (is_ : string -> bool) (w : World) :
  batch (snd (iter_peekAnd is_ w)) = batch w.
Proof.
  unfold iter_peekAnd.
  now destruct (LazyIter.peekAnd truthy_chunk split_lines is_ (iter w)).
Qed.

Lemma batch_iter_next (w : World) : batch (snd (iter_next w)) = batch w.
Proof.
  unfold iter_next.
  now destruct (LazyIter.next truthy_chunk split_lines (iter w)).
Qed.

Lemma batch_lookahead (fuel : nat) :
  forall (stackParts : list string) (w : World) r,
    lookahead rt fuel stackParts w = Some r -> batch (snd r) = batch w.
Proof.
  induction fuel as [| fuel IH]; intros parts w r H; simpl in H; [discriminate |].
  pose proof (batch_iter_peekAnd unparseable w) as Hp.
  destruct (iter_peekAnd unparseable w) as [[[x |] | |] w1]; simpl in Hp;
    try (injection H as <-; exact Hp).
  pose proof (batch_iter_next w1) as Hn.
  destruct (iter_next w1) as [[y | |] w2]; simpl in Hn;
    try (injection H as <-; simpl; congruence).
  rewrite (IH _ _ _ H). congruence.
Qed.

Lemma batch_collect (stackParts : list string) (w : World) :
  batch (snd (collect rt stackParts w)) = batch w.
Proof.
  unfold collect.
  destruct (lookahead rt _ stackParts w) eqn:E; [| reflexivity].
  eapply batch_lookahead; eauto.
Qed.

Lemma final_literal_fields (rest : Object) (msg err lvl : Value) (datetime : string) :
  let record :=
    assign rest
      [ ("message", msg); ("error", err); ("datetime", Str datetime); ("level", lvl) ] in
  has "datetime" record = true /\ has "level" record = true.
Proof.
  pose proof (get_assign_last "datetime" (Str datetime)
                [("message", msg); ("error", err)] [("level", lvl)] rest) as Hd.
  pose proof (get_assign_last "level" lvl
                [("message", msg); ("error", err); ("datetime", Str datetime)] [] rest) as Hl.
  cbn [app] in Hd, Hl. unfold has.
  rewrite Hd by (simpl; intuition discriminate).
  rewrite Hl by (simpl; tauto).
  auto.
Qed.

Lemma keeps_final (log : Value) :
  keeps (fun record => has "datetime" record = true /\ has "level" record = true)
    (final rt log).
Proof.
  intros w Hw. unfold final.
  destruct (Date.ISO_of rt (read "time" (properties log))) as [e | datetime]; simpl.
  - split; auto. discriminate.
  - destruct (LEVELS_MAP_get rt (read "level" (properties log))) as [e | name]; simpl.
    + split; auto. discriminate.
    + split; auto. intros a [= <-]. apply final_literal_fields.
Qed.

Lemma keeps_handleInvalid (log : Value) (field : string) :
  keeps (fun _ => True) (handleInvalid rt log field).
Proof.
  unfold handleInvalid. eapply keeps_bind; [apply keeps_now |].
  intros datetime _. now apply keeps_handleLog.
Qed.

Lemma keeps_handleLine (line : string) : keeps (fun _ => True) (handleLine line).
Proof.
  unfold Transport.handleLine. apply keeps_try_catch.
  - unfold handleLine_try.
    eapply (keeps_bind (fun _ => True)).
    { unfold parse. destruct (JSON_parse rt line); [now apply keeps_ret | apply keeps_throw]. }
    intros log _.
    eapply (keeps_bind (fun _ => True)).
    { unfold has_field. destruct (in_ "time" log); [apply keeps_throw | now apply keeps_ret]. }
    intros has_time _. destruct has_time; cbn [negb]; [| apply keeps_handleInvalid].
    eapply (keeps_bind (fun _ => True)).
    { unfold has_field. destruct (in_ "level" log); [apply keeps_throw | now apply keeps_ret]. }
    intros has_level _. destruct has_level; cbn [negb]; [| apply keeps_handleInvalid].
    eapply keeps_bind; [apply keeps_final |].
    intros record [Hd Hl]. now apply keeps_handleLog.
  - unfold handleLine_catch.
    eapply (keeps_bind (fun _ => True)).
    { apply keeps_stream. apply batch_collect. }
    intros parts _.
    destruct (existsb has_marker parts); cbn [negb]; [| now apply keeps_ret].
    eapply keeps_bind; [apply keeps_now |].
    intros datetime _. now apply keeps_handleLog.
Qed.

Lemma keeps_driver_iteration : keeps (fun _ => True) (driver_iteration rt).
Proof.
  unfold driver_iteration. apply keeps_try_catch; [| now apply keeps_ret].
  eapply (keeps_bind (fun _ => True)).
  - apply keeps_stream. apply batch_iter_next.
  - intros item _. apply keeps_handleLine.
Qed.

Lemma keeps_clear : keeps (fun _ => True) clear.
Proof. intros w Hw. split; [reflexivity | auto]. Qed.

Lemma keeps_flush_begin : keeps (fun _ => True) flush_begin.
Proof.
  apply keeps_stream. intros w. unfold flush_begin.
  destruct (batch w) eqn:E; simpl; auto.
Qed.

Lemma keeps_flush_webhook (h : Webhook) :
  keeps (fun _ => True) (flush_webhook rt h).
Proof.
  unfold flush_webhook.
  eapply (keeps_bind (fun _ => True)); [| intros; apply keeps_clear].
  destruct h; [now apply keeps_ret |].
  eapply keeps_bind; [apply keeps_now |].
  intros datetime _. now apply keeps_handleLog.
Qed.

Lemma keeps_flush_response (r : Response) :
  keeps (fun _ => True) (flush_response rt SERVICE_NAME r).
Proof.
  unfold flush_response.
  eapply (keeps_bind (fun _ => True)).
  - destruct (negb (statusCode r =? 200)%Z); [| now apply keeps_ret].
    eapply keeps_bind; [apply keeps_now |].
    intros datetime _. now apply keeps_handleLog.
  - intros _ _ w Hw.
    destruct (filter is_alert (batch w)) as [| l errors]; [split; [reflexivity | auto] |].
    destruct (embeds rt SERVICE_NAME (l :: errors)); [| split; [exact Hw | auto]].
    apply (keeps_bind (fun _ => True)); [apply keeps_flush_webhook | | exact Hw].
    intros; now apply keeps_ret.
Qed.

Lemma keeps_log_stream_created : keeps (fun _ => True) (log_stream_created rt).
Proof.
  unfold log_stream_created. eapply keeps_bind; [apply keeps_now |].
  intros datetime _. now apply keeps_handleLog.
Qed.

Lemma batch_ok_exec (op : Operation) (w : World) :
  batch_ok w -> batch_ok (exec rt SERVICE_NAME op w).
Proof.
  intros Hw. destruct op; simpl.
  - now apply keeps_handleLine.
  - now apply keeps_driver_iteration.
  - now apply keeps_flush_begin.
  - now apply keeps_flush_response.
  - now apply keeps_flush_webhook.
  - now apply keeps_log_stream_created.
Qed.

(** C7.  From start-up, through any sequence of the operations that
    touch the batch (lines classified, passes of the driver loop, the
    stretches of [flush] in any interleaving, the record of
    [ensureStream]), every record in the batch has [datetime] and [level]
    and none has [name]. *)
Theorem batch_records_well_formed (chunks : list string) (ops : list Operation) :
  forallb well_formed (batch (run rt SERVICE_NAME ops (start chunks))) = true.
Proof.
  change (batch_ok (run rt SERVICE_NAME ops (start chunks))).
  assert (H : batch_ok (start chunks)) by reflexivity.
  revert H. generalize (start chunks).
  induction ops as [| op ops IH]; intros w Hw; simpl; auto.
  apply IH. now apply batch_ok_exec.
Qed.

(** *** flush *)

#[local] Abbreviation flush := (Transport.flush rt SERVICE_NAME).
#[local] Abbreviation flush_interleaved := (Transport.flush_interleaved rt SERVICE_NAME).

Lemma handleLog_posted (log : Log) (w : World) :
  posted (snd (handleLog log w)) = posted w.
Proof.
  destruct (truthy (read "name" log)) eqn:H.
  - now rewrite handleLog_named.
  - now rewrite handleLog_plain.
Qed.

Lemma logged_spec (logs : list Log) :
  forall w,
    fst (logged rt logs w) = Returned tt
    /\ posted (snd (logged rt logs w)) = posted w.
Proof.
  induction logs as [| log logs IH]; intros w; simpl; auto.
  unfold bind.
  pose proof (handleLog_returns log w) as Hr.
  pose proof (handleLog_posted log w) as Hp.
  destruct (Transport.handleLog rt log w) as [[[] | |] w1]; simpl in *; try discriminate.
  destruct (IH w1) as [H1 H2]. split; congruence.
Qed.

Lemma flush_webhook_spec (h : Webhook) (w : World) :
  fst (flush_webhook rt h w) = Returned tt
  /\ batch (snd (flush_webhook rt h w)) = []
  /\ posted (snd (flush_webhook rt h w)) = posted w.
Proof.
  unfold flush_webhook, bind. destruct h as [| message name stack].
  - simpl. auto.
  - unfold Transport.now.
    match goal with
    | |- context [Transport.handleLog rt ?log ?w0] =>
        pose proof (handleLog_returns log w0) as Hr;
        pose proof (handleLog_posted log w0) as Hp;
        destruct (Transport.handleLog rt log w0) as [[[] | |] w1]
    end; simpl in Hr; try discriminate.
    simpl in *. auto.
Qed.

(** After the reply of the sink, [flush] is over with an empty batch or
    waits for the webhook; what was posted stays as it is. *)
Lemma flush_response_spec (r : Response) (w : World) :
  let '(s, w') := flush_response rt SERVICE_NAME r w in
  posted w' = posted w
  /\ (s = Returned Finished /\ batch w' = [] \/ s = Returned AtWebhook).
Proof.
  assert (Hgo : forall w1,
             posted w1 = posted w ->
             let '(s, w') :=
               match filter is_alert (batch w1) with
               | [] => (clear ;; ret Finished) w1
               | l :: l0 =>
                   match embeds rt SERVICE_NAME (l :: l0) with
                   | inr entries =>
                       (Returned AtWebhook, with_alerts (alerts w1 ++ [entries]) w1)
                   | inl _ =>
                       (flush_webhook rt (unconvertible rt) ;; ret Finished) w1
                   end
               end in
             posted w' = posted w
             /\ (s = Returned Finished /\ batch w' = [] \/ s = Returned AtWebhook)).
  { intros w1 Hp. destruct (filter is_alert (batch w1)) as [| l l0]; [simpl; auto |].
    destruct (embeds rt SERVICE_NAME (l :: l0)); [| simpl; auto].
    unfold bind.
    destruct (flush_webhook_spec (unconvertible rt) w1) as (Hr & Hb & Hposted).
    destruct (flush_webhook rt (unconvertible rt) w1) as [o w2]. simpl in *. subst o.
    simpl. split; [congruence | auto]. }
  unfold flush_response, bind at 1.
  destruct (negb (statusCode r =? 200)%Z).
  - unfold bind, Transport.now.
    match goal with
    | |- context [Transport.handleLog rt ?log ?w0] =>
        pose proof (handleLog_returns log w0) as Hr;
        pose proof (handleLog_posted log w0) as Hp;
        destruct (Transport.handleLog rt log w0) as [[[] | |] w1]
    end; simpl in Hr; try discriminate.
    now apply Hgo.
  - now apply Hgo.
Qed.

(** Whatever is logged while it is suspended, a [flush] that found a
    batch posts that batch alone and leaves the batch empty. *)
Lemma flush_interleaved_spec
  (during_request : list Log) (r : Response) (during_webhook : list Log)
  (h : Webhook) (w : World) :
  batch w <> [] ->
  exists w',
    flush_interleaved during_request r during_webhook h w = (Returned tt, w')
    /\ batch w' = []
    /\ posted w' = posted w ++ [batch w].
Proof.
  intros Hne. unfold Transport.flush_interleaved, bind at 1, flush_begin.
  destruct (batch w) as [| b bs] eqn:Hb; [congruence |]. clear Hne.
  set (w0 := with_posted (posted w ++ [b :: bs]) w).
  unfold bind at 1.
  destruct (logged_spec during_request w0) as [Hr1 Hp1].
  destruct (logged rt during_request w0) as [[[] | |] w1]; simpl in Hr1; try discriminate.
  unfold bind at 1.
  pose proof (flush_response_spec r w1) as Hresp.
  destruct (flush_response rt SERVICE_NAME r w1) as [s w2].
  destruct Hresp as [Hp2 [[-> Hb2] | ->]].
  - exists w2. simpl in *. repeat split; auto. congruence.
  - unfold bind.
    destruct (logged_spec during_webhook w2) as [Hr3 Hp3].
    destruct (logged rt during_webhook w2) as [[[] | |] w3]; simpl in Hr3; try discriminate.
    destruct (flush_webhook_spec h w3) as (Hr4 & Hb4 & Hp4).
    destruct (flush_webhook rt h w3) as [o w4]. simpl in *. subst o.
    exists w4. repeat split; auto. congruence.
Qed.

Lemma flush_is_uninterrupted (r : Response) (h : Webhook) (w : World) :
  flush r h w = flush_interleaved [] r [] h w.
Proof.
  unfold Transport.flush, Transport.flush_interleaved, bind, logged, ret.
  destruct (flush_begin w) as [[[] | |] w1]; try reflexivity;
    destruct (flush_response rt SERVICE_NAME r w1) as [[[] | |] w2]; reflexivity.
Qed.

Lemma handleLog_alerts (log : Log) (w : World) :
  alerts (snd (handleLog log w)) = alerts w.
Proof.
  destruct (truthy (read "name" log)) eqn:H.
  - now rewrite handleLog_named.
  - now rewrite handleLog_plain.
Qed.

Lemma flush_webhook_alerts (h : Webhook) (w : World) :
  alerts (snd (flush_webhook rt h w)) = alerts w.
Proof.
  unfold flush_webhook, bind. destruct h as [| message name stack]; [reflexivity |].
  unfold Transport.now.
  match goal with
  | |- context [Transport.handleLog rt ?log ?w0] =>
      pose proof (handleLog_alerts log w0) as Ha;
      destruct (Transport.handleLog rt log w0) as [[[] | |] w1]
  end; simpl in *; auto.
Qed.

(** On a status other than 200 the failure record joins the batch and
    the alerts are taken from the batch with it. *)
Lemma flush_response_failed (r : Response) (w : World) :
  statusCode r <> 200%Z ->
  let failure := failure_log (Date_now_ISO rt (clock w)) r in
  let w1 := with_batch (batch w ++ [failure]) (with_clock (S (clock w)) w) in
  flush_response rt SERVICE_NAME r w
  = match embeds rt SERVICE_NAME (filter is_alert (batch w ++ [failure])) with
    | inr entries => (Returned AtWebhook, with_alerts (alerts w ++ [entries]) w1)
    | inl _ => (flush_webhook rt (unconvertible rt) ;; ret Finished) w1
    end.
Proof.
  intros Hstatus failure w1. unfold flush_response.
  destruct (Z.eqb_spec (statusCode r) 200); [congruence |]. cbn [negb].
  unfold bind at 1.
  assert (Hlog : (datetime <- now ;; handleLog (failure_log datetime r)) w
                 = (Returned tt, w1)).
  { unfold bind, Transport.now. rewrite handleLog_plain by reflexivity. reflexivity. }
  rewrite Hlog.
  assert (Halert : is_alert failure = true) by reflexivity.
  cbn [batch w1 with_batch]. rewrite filter_app. cbn [filter]. rewrite Halert.
  destruct (filter is_alert (batch w) ++ [failure]) as [| a l] eqn:Hf.
  - apply app_eq_nil in Hf. destruct Hf; discriminate.
  - reflexivity.
Qed.

(** C1, what the code does.  When the sink answers with a status
    other than 200, the failure record goes through [handleLog] into the
    batch and is then removed with the rest by the final [splice]: after
    the flush the batch is empty, and the only body posted is the failed
    batch.  The record is sent to the webhook with the other alerts when
    their entries can be made; when making them throws, nothing is sent to
    the webhook. *)
Theorem failed_submission_leaves_empty_batch (r : Response) (h : Webhook) (w : World) :
  batch w <> [] ->
  statusCode r <> 200%Z ->
  let failure := failure_log (Date_now_ISO rt (clock w)) r in
  let w' := snd (flush r h w) in
  fst (flush r h w) = Returned tt
  /\ batch w' = []
  /\ posted w' = posted w ++ [batch w]
  /\ alerts w'
     = alerts w
       ++ match embeds rt SERVICE_NAME (filter is_alert (batch w ++ [failure])) with
          | inr entries => [entries]
          | inl _ => []
          end.
Proof.
  intros Hne Hstatus failure w'. subst w'.
  rewrite flush_is_uninterrupted.
  destruct (flush_interleaved_spec [] r [] h w Hne) as (w' & E & H2 & H3).
  split; [now rewrite E |]. split; [now rewrite E |]. split; [now rewrite E |].
  clear w' E H2 H3.
  unfold Transport.flush_interleaved, bind at 1, flush_begin.
  destruct (batch w) as [| b bs] eqn:Hb; [congruence |].
  unfold logged at 1, bind at 1, ret at 1.
  unfold bind at 1. rewrite (flush_response_failed r _ Hstatus).
  cbn [batch clock alerts with_posted]. rewrite Hb. fold failure.
  destruct (embeds rt SERVICE_NAME (filter is_alert ((b :: bs) ++ [failure])))
    as [e | entries].
  - unfold bind at 1. rewrite app_nil_r.
    match goal with
    | |- context [flush_webhook rt ?h0 ?w0] =>
        pose proof (flush_webhook_alerts h0 w0) as Ha;
        destruct (flush_webhook rt h0 w0) as [[[] | |] w2]
    end; exact Ha.
  - unfold logged, bind at 1, ret at 1.
    rewrite flush_webhook_alerts. reflexivity.
Qed.

(** [handleLog] only appends, and the last record it appends is its
    argument without [name]. *)
Lemma handleLog_appends (log : Log) (w : World) :
  exists before,
    batch (snd (handleLog log w)) = batch w ++ before ++ [remove "name" log].
Proof.
  destruct (truthy (read "name" log)) eqn:H.
  - rewrite handleLog_named by assumption. eexists [_]. reflexivity.
  - rewrite handleLog_plain by assumption. exists []. reflexivity.
Qed.

Lemma logged_appends (logs : list Log) :
  forall w,
    exists added,
      batch (snd (logged rt logs w)) = batch w ++ added
      /\ forall log, In log logs -> In (remove "name" log) added.
Proof.
  induction logs as [| log logs IH]; intros w; simpl.
  - exists []. split; [now rewrite app_nil_r | tauto].
  - unfold bind.
    pose proof (handleLog_returns log w) as Hr.
    destruct (handleLog_appends log w) as [before Hb].
    destruct (Transport.handleLog rt log w) as [[[] | |] w1]; simpl in *; try discriminate.
    destruct (IH w1) as (added & Ha & Hin).
    exists (before ++ [remove "name" log] ++ added). split.
    + rewrite Ha, Hb. now rewrite <- !app_assoc.
    + intros l [<- | Hl]; rewrite !in_app_iff; simpl; auto.
Qed.

(** C2, what the code does.  The body posted is the batch as it stood
    when the flush began.  Records handed to [handleLog] while the request
    is in flight are in the batch when the reply comes, are not in what was
    posted, and are removed all the same by the final [splice], which
    empties the batch whatever it then holds. *)
Theorem records_logged_during_flush_are_dropped
  (during_request : list Log) (r : Response) (h : Webhook) (w : World) :
  batch w <> [] ->
  let started := snd (flush_begin w) in
  let replied := snd (logged rt during_request started) in
  let w' := snd (flush_interleaved during_request r [] h w) in
  posted started = posted w ++ [batch w]
  /\ (forall log, In log during_request -> In (remove "name" log) (batch replied))
  /\ fst (flush_interleaved during_request r [] h w) = Returned tt
  /\ posted w' = posted w ++ [batch w]
  /\ batch w' = [].
Proof.
  intros Hne started replied w'.
  destruct (flush_interleaved_spec during_request r [] h w Hne) as (w1 & E & H2 & H3).
  subst w'. rewrite E. simpl.
  split.
  { subst started. unfold flush_begin. destruct (batch w) eqn:Hb; [congruence |].
    reflexivity. }
  split; [| auto].
  intros log Hlog. subst replied.
  destruct (logged_appends during_request started) as (added & Ha & Hin).
  rewrite Ha. apply in_or_app. right. auto.
Qed.

End TransportFacts.

(** ** The classifier and the driver loop on a live stream *)

Section TransportDelivery.

Import JS Transport.

Variable rt : Runtime.
Variable SERVICE_NAME : string.

#[local] Abbreviation handleLog := (Transport.handleLog rt).
#[local] Abbreviation handleLine := (Transport.handleLine rt).
#[local] Abbreviation lines := (LazyIter.items truthy_chunk split_lines).
#[local] Abbreviation live := (@LazyIter.live string string).
#[local] Abbreviation unparseable := (fun line : string => negb (isValidJson rt line)).

(** *** The stream under the classifier *)

Lemma iter_peekAnd_live (is_ : string -> bool) (w : World) :
  live (iter w) ->
  exists s',
    iter_peekAnd is_ w
    = (Returned match lines (iter w) with
                | [] => None
                | x :: _ => if is_ x then Some x else None
                end, Transport.with_iter s' w)
    /\ live s' /\ lines s' = lines (iter w).
Proof.
  intros Hlive.
  destruct (peek_live truthy_chunk split_lines (iter w) Hlive)
    as (s' & Hpeek & Hl & Hi & _).
  exists s'. unfold iter_peekAnd, LazyIter.peekAnd. rewrite Hpeek.
  destruct (lines (iter w)); simpl; auto.
Qed.

Lemma iter_next_live (w : World) :
  live (iter w) ->
  match lines (iter w) with
  | [] =>
      exists s', iter_next w = (Thrown LazyIter.exhausted, Transport.with_iter s' w)
                 /\ live s' /\ lines s' = [] /\ LazyIter.is_done s' = true
  | x :: xs =>
      exists s', iter_next w = (Returned x, Transport.with_iter s' w)
                 /\ live s' /\ lines s' = xs
  end.
Proof.
  intros Hlive.
  pose proof (next_live truthy_chunk split_lines (iter w) Hlive) as Hnext.
  unfold iter_next.
  destruct (lines (iter w)); destruct Hnext as (s' & Hn & H); exists s';
    rewrite Hn; auto.
Qed.

Lemma longest_unparseable_run (todo : list string) :
  exists run rest,
    todo = run ++ rest
    /\ Forall (fun l => JSON_parse rt l = None) run
    /\ ends_run rt rest.
Proof.
  induction todo as [| x xs (run & rest & -> & Hrun & Hrest)].
  - exists [], []. simpl. auto.
  - destruct (JSON_parse rt x) eqn:Hx.
    + exists [], (x :: run ++ rest). simpl. conjs; auto. congruence.
    + exists (x :: run), rest. conjs; auto.
Qed.

(** The scan takes the longest run of lines that do not parse. *)
Lemma collect_live (run : list string) :
  forall (rest parts : list string) (w : World),
    live (iter w) ->
    lines (iter w) = run ++ rest ->
    Forall (fun l => JSON_parse rt l = None) run ->
    ends_run rt rest ->
    exists s',
      collect rt parts w = (Returned (parts ++ run), Transport.with_iter s' w)
      /\ live s' /\ lines s' = rest.
Proof.
  induction run as [| x xs IH]; intros rest parts w Hlive Htodo Hrun Hrest;
    destruct (iter_peekAnd_live unparseable w Hlive) as (s1 & Hpeek & Hl1 & Hi1);
    rewrite Htodo in Hpeek, Hi1; cbv beta in Hpeek.
  - exists s1. rewrite collect_unfold, Hpeek, app_nil_r. cbn [app].
    assert (Hnone : match rest with
                    | [] => None
                    | v :: _ => if negb (isValidJson rt v) then Some v else None
                    end = None).
    { destruct rest as [| v rest']; [reflexivity |]. simpl in Hrest.
      unfold isValidJson. destruct (JSON_parse rt v); [reflexivity | congruence]. }
    rewrite Hnone. auto.
  - inversion Hrun as [| ? ? Hx Hxs]; subst.
    cbn [app] in Hpeek, Hi1.
    assert (Hux : negb (isValidJson rt x) = true)
      by (unfold isValidJson; now rewrite Hx).
    rewrite Hux in Hpeek. clear Hux.
    pose proof (iter_next_live (Transport.with_iter s1 w) Hl1) as Hnext.
    cbn [iter Transport.with_iter] in Hnext. rewrite Hi1 in Hnext.
    destruct Hnext as (s2 & Hnext & Hl2 & Hi2).
    change (Transport.with_iter s2 (Transport.with_iter s1 w))
      with (Transport.with_iter s2 w) in Hnext.
    destruct (IH rest (parts ++ [x]) (Transport.with_iter s2 w) Hl2 Hi2 Hxs Hrest)
      as (s' & Hc & Hl' & Hi').
    exists s'.
    rewrite collect_unfold, Hpeek, Hnext, Hc, <- app_assoc. auto.
Qed.

(** *** The two paths of the classifier *)

(** What [handleLog] does to the state: it appends to the batch and may
    read the clock. *)
Lemma handleLog_effect (log : Log) (w : World) :
  exists logs c,
    logs <> []
    /\ handleLog log w
       = (Returned tt, with_batch (batch w ++ logs) (with_clock c w)).
Proof.
  destruct (truthy (read "name" log)) eqn:Hname.
  - rewrite handleLog_named by exact Hname. eexists. eexists.
    split; [| reflexivity]. discriminate.
  - rewrite handleLog_plain by exact Hname.
    exists [remove "name" log], (clock w). split; [discriminate |].
    now destruct w.
Qed.

(** The [try] block either throws with the state as it was, or returns
    having appended at least one record. *)
Lemma handleLine_try_spec (line : string) (w : World) :
  if try_throws rt line
  then exists e, handleLine_try rt line w = (Thrown e, w)
  else exists logs c,
         logs <> []
         /\ handleLine_try rt line w
            = (Returned tt, with_batch (batch w ++ logs) (with_clock c w)).
Proof.
  assert (Hinvalid : forall log field,
             exists logs c,
               logs <> []
               /\ handleInvalid rt log field w
                  = (Returned tt, with_batch (batch w ++ logs) (with_clock c w))).
  { intros log field. rewrite handleInvalid_spec. eexists. eexists.
    split; [| reflexivity]. discriminate. }
  unfold try_throws, handleLine_try, parse.
  destruct (JSON_parse rt line) as [v |]; [| eexists; reflexivity].
  destruct v as [| | b | q | s | vs | o | name];
    cbv beta iota delta [bind ret throw has_field in_ negb];
    try (eexists; reflexivity); try apply Hinvalid.
  destruct (has "time" o); cbv beta iota delta [negb andb]; [| apply Hinvalid].
  destruct (has "level" o); cbv beta iota delta [negb andb]; [| apply Hinvalid].
  unfold final, properties. cbv zeta.
  destruct (Date.ISO_of rt (read "time" o)) as [e | datetime];
    cbv beta iota delta [ret throw]; [eexists; reflexivity |].
  destruct (LEVELS_MAP_get rt (read "level" o)) as [e | name];
    cbv beta iota delta [ret throw].
  - eexists. reflexivity.
  - apply handleLog_effect.
Qed.

(** The [catch] block on a live stream. *)
Lemma handleLine_catch_live (line : string) (run rest : list string) (w : World) :
  live (iter w) ->
  lines (iter w) = run ++ rest ->
  Forall (fun l => JSON_parse rt l = None) run ->
  ends_run rt rest ->
  exists s',
    live s' /\ lines s' = rest
    /\ handleLine_catch rt line w
       = (Returned tt,
          if existsb has_marker (line :: run)
          then with_batch (batch w ++ [crash_log (Date_now_ISO rt (clock w)) (line :: run)])
                 (with_clock (S (clock w)) (Transport.with_iter s' w))
          else Transport.with_iter s' w).
Proof.
  intros Hlive Hsplit Hrun Hrest.
  destruct (collect_live run rest [line] w Hlive Hsplit Hrun Hrest)
    as (s' & Hc & Hl' & Hi').
  exists s'. conjs; auto.
  unfold handleLine_catch, bind at 1. rewrite Hc.
  change ([line] ++ run) with (line :: run).
  destruct (existsb has_marker (line :: run)); cbn [negb]; [| reflexivity].
  unfold bind, Transport.now. rewrite handleLog_plain by reflexivity.
  reflexivity.
Qed.

(** [handleLine] on a live stream returns, with the stream live and
    short of the lines it has taken. *)
Lemma handleLine_live (line : string) (w : World) :
  live (iter w) ->
  exists w' taken,
    handleLine line w = (Returned tt, w')
    /\ live (iter w')
    /\ lines (iter w) = taken ++ lines (iter w')
    /\ (try_throws rt line = false -> taken = [])
    /\ posted w' = posted w /\ alerts w' = alerts w.
Proof.
  intros Hlive.
  pose proof (handleLine_try_spec line w) as Htry.
  unfold Transport.handleLine, try_catch.
  destruct (try_throws rt line).
  - destruct Htry as [e ->].
    destruct (longest_unparseable_run (lines (iter w)))
      as (run & rest & Hsplit & Hrun & Hrest).
    destruct (handleLine_catch_live line run rest w Hlive Hsplit Hrun Hrest)
      as (s' & Hl' & Hi' & ->).
    eexists. exists run. split; [reflexivity |].
    destruct (existsb has_marker (line :: run)); cbn; conjs; auto;
      try congruence; discriminate.
  - destruct Htry as (logs & c & _ & ->).
    eexists. exists []. split; [reflexivity |]. cbn. conjs; auto.
Qed.

(** X7.  A record with a truthy [name] is answered with two records,
    in this order: a [warn] record that holds the whole original record
    under [log], then the record without its [name].  Neither has a
    [name], and the clock is read once, for the warning. *)
Theorem named_record_warned_then_stripped (log : Log) (w : World) :
  truthy (read "name" log) = true ->
  let warning := name_warning (Date_now_ISO rt (clock w)) log in
  handleLog log w
  = (Returned tt,
     with_batch (batch w ++ [warning; remove "name" log]) (with_clock (S (clock w)) w))
  /\ read "level" warning = Str "warn"
  /\ read "log" warning = Obj log
  /\ has "name" warning = false
  /\ has "name" (remove "name" log) = false.
Proof.
  intros Hname warning. split; [now apply handleLog_named |].
  conjs; try reflexivity. apply has_remove_same.
Qed.

(** *** handleLine never throws *)




(** X9.  A line on which the [try] block throws (text that does not
    parse, a bare number, string, boolean or [null], or an object with
    [time] and [level] whose [time] is not a date or whose [level] has no
    primitive form) opens a crash run on a live stream: the lines
    that follow are taken as long as they do not parse, up to the end of
    the stream or to the first line that parses, which stays in the
    stream.  One [fatal] record with the whole run is appended if a line
    of the run has the marker, and nothing otherwise: without the marker
    the run is dropped. *)
Theorem unusable_line_opens_crash_run
  (line : string) (run rest : list string) (w : World) :
  live (iter w) ->
  try_throws rt line = true ->
  lines (iter w) = run ++ rest ->
  Forall (fun l => JSON_parse rt l = None) run ->
  ends_run rt rest ->
  exists w',
    handleLine line w = (Returned tt, w')
    /\ batch w'
       = batch w
         ++ (if existsb has_marker (line :: run)
             then [crash_log (Date_now_ISO rt (clock w)) (line :: run)]
             else [])
    /\ lines (iter w') = rest
    /\ live (iter w')
    /\ posted w' = posted w
    /\ alerts w' = alerts w.
Proof.
  intros Hlive Hthrows Hsplit Hrun Hrest.
  pose proof (handleLine_try_spec line w) as Htry. rewrite Hthrows in Htry.
  destruct Htry as [e Htry].
  destruct (handleLine_catch_live line run rest w Hlive Hsplit Hrun Hrest)
    as (s' & Hl' & Hi' & Hcatch).
  unfold Transport.handleLine, try_catch. rewrite Htry, Hcatch.
  eexists. split; [reflexivity |].
  destruct (existsb has_marker (line :: run)); cbn; rewrite ?app_nil_r; conjs; auto.
Qed.

(** X10.  A line on which the [try] block does not throw (an array,
    an object that lacks [time] or [level], or an object whose [time]
    makes a date and whose [level] makes a key of the table) is answered
    on the spot: [handleLine] returns having appended at least one record,
    and the stream, the requests and the alerts are as they were. *)
Theorem usable_line_is_answered (line : string) (w : World) :
  try_throws rt line = false ->
  exists logs c,
    logs <> []
    /\ handleLine line w
       = (Returned tt, with_batch (batch w ++ logs) (with_clock c w)).
Proof.
  intros Husable.
  pose proof (handleLine_try_spec line w) as Htry. rewrite Husable in Htry.
  destruct Htry as (logs & c & Hne & Htry).
  exists logs, c. split; [exact Hne |].
  unfold Transport.handleLine, try_catch. now rewrite Htry.
Qed.

(** *** The driver loop *)

Lemma with_iter_same (w : World) : Transport.with_iter (iter w) w = w.
Proof. now destruct w. Qed.

(** The [try] block has nothing to do with the stream. *)
Lemma handleLog_frame (log : Log) (s : LazyIter.t string string) (w : World) :
  handleLog log (Transport.with_iter s w)
  = (Returned tt, Transport.with_iter s (snd (handleLog log w))).
Proof.
  destruct (truthy (read "name" log)) eqn:Hname.
  - now rewrite !handleLog_named by exact Hname.
  - now rewrite !handleLog_plain by exact Hname.
Qed.

Lemma handleLine_try_frame (line : string) (s : LazyIter.t string string) (w : World) :
  handleLine_try rt line (Transport.with_iter s w)
  = (fst (handleLine_try rt line w),
     Transport.with_iter s (snd (handleLine_try rt line w))).
Proof.
  assert (Hinvalid : forall log field,
             handleInvalid rt log field (Transport.with_iter s w)
             = (fst (handleInvalid rt log field w),
                Transport.with_iter s (snd (handleInvalid rt log field w)))).
  { intros log field. now rewrite !handleInvalid_spec. }
  unfold handleLine_try, parse.
  destruct (JSON_parse rt line) as [v |]; [| reflexivity].
  destruct v as [| | b | q | s0 | vs | o | name];
    cbv beta iota delta [bind ret throw has_field in_ negb];
    try reflexivity; try apply Hinvalid.
  destruct (has "time" o); cbv beta iota delta [negb]; [| apply Hinvalid].
  destruct (has "level" o); cbv beta iota delta [negb]; [| apply Hinvalid].
  unfold final, properties. cbv zeta.
  destruct (Date.ISO_of rt (read "time" o)) as [e | datetime]; [reflexivity |].
  destruct (LEVELS_MAP_get rt (read "level" o)) as [e | name]; [reflexivity |].
  cbv beta iota delta [ret].
  rewrite handleLog_frame.
  match goal with
  | |- context [Transport.handleLog rt ?log w] =>
      pose proof (handleLog_returns rt log w) as Hr;
      destruct (Transport.handleLog rt log w) as [[[] | |] w1]
  end; simpl in Hr; try discriminate.
  reflexivity.
Qed.

(** With a line that parses (or nothing) next in the stream, what
    [handleLine] does to the batch and the clock does not depend on the
    stream, and the stream keeps its lines. *)
Lemma handleLine_apart (x : string) (w : World) (s1 s2 : LazyIter.t string string) :
  live s1 -> live s2 ->
  ends_run rt (lines s1) -> ends_run rt (lines s2) ->
  exists s1' s2' w',
    handleLine x (Transport.with_iter s1 w) = (Returned tt, Transport.with_iter s1' w')
    /\ handleLine x (Transport.with_iter s2 w) = (Returned tt, Transport.with_iter s2' w')
    /\ live s1' /\ lines s1' = lines s1
    /\ live s2' /\ lines s2' = lines s2
    /\ posted w' = posted w /\ alerts w' = alerts w.
Proof.
  intros Hl1 Hl2 He1 He2.
  pose proof (handleLine_try_spec x w) as Htry.
  unfold Transport.handleLine, try_catch.
  rewrite !handleLine_try_frame.
  destruct (try_throws rt x).
  - destruct Htry as [e ->]. cbn [fst snd].
    destruct (handleLine_catch_live x [] (lines s1) (Transport.with_iter s1 w)
                Hl1 eq_refl (Forall_nil _) He1) as (s1' & Hl1' & Hi1' & ->).
    destruct (handleLine_catch_live x [] (lines s2) (Transport.with_iter s2 w)
                Hl2 eq_refl (Forall_nil _) He2) as (s2' & Hl2' & Hi2' & ->).
    exists s1', s2'.
    destruct (existsb has_marker [x]).
    + eexists (with_batch _ (with_clock _ w)).
      split; [reflexivity |]. split; [reflexivity |]. conjs; auto.
    + exists w. split; [reflexivity |]. split; [reflexivity |]. conjs; auto.
  - destruct Htry as (logs & c & _ & ->). cbn [fst snd].
    exists s1, s2. eexists. split; [reflexivity |]. split; [reflexivity |].
    conjs; auto.
Qed.

(** The loop on a live stream, with one unit of fuel for each line and
    two for the end. *)
Lemma driver_live (n : nat) :
  forall w : World,
    live (iter w) ->
    length (lines (iter w)) <= n ->
    exists w',
      driver rt (2 + n) w = Some (Returned tt, w')
      /\ LazyIter.is_done (iter w') = true
      /\ posted w' = posted w
      /\ alerts w' = alerts w.
Proof.
  assert (Hend : forall fuel w, LazyIter.is_done (iter w) = true ->
                                driver rt (S fuel) w = Some (Returned tt, w)).
  { intros fuel w Hd. simpl. now rewrite Hd. }
  induction n as [| n IH]; intros w Hlive Hlen.
  - change (2 + 0) with 2.
    destruct (LazyIter.is_done (iter w)) eqn:Hd.
    + exists w. rewrite Hend by exact Hd. conjs; auto.
    + cbn [driver]. rewrite Hd.
      pose proof (iter_next_live w Hlive) as Hnext.
      destruct (lines (iter w)) as [| x xs]; [| simpl in Hlen; lia].
      destruct Hnext as (s' & Hnext & Hl' & Hi' & Hd').
      unfold driver_iteration, try_catch, bind. rewrite Hnext.
      cbv beta iota delta [ret]. cbn [iter Transport.with_iter]. rewrite Hd'.
      eexists. split; [reflexivity |]. cbn. conjs; auto.
  - change (2 + S n) with (S (2 + n)).
    destruct (LazyIter.is_done (iter w)) eqn:Hd.
    + exists w. rewrite Hend by exact Hd. conjs; auto.
    + cbn [driver]. rewrite Hd.
      pose proof (iter_next_live w Hlive) as Hnext.
      destruct (lines (iter w)) as [| x xs] eqn:Hlines.
      * destruct Hnext as (s' & Hnext & Hl' & Hi' & Hd').
        unfold driver_iteration, try_catch, bind. rewrite Hnext.
        cbv beta iota delta [ret]. change (2 + n) with (S (S n)).
        rewrite Hend by exact Hd'.
        eexists. split; [reflexivity |]. cbn. conjs; auto.
      * destruct Hnext as (s' & Hnext & Hl' & Hi').
        destruct (handleLine_live x (Transport.with_iter s' w) Hl')
          as (w1 & taken & Hline & Hl1 & Htaken & _ & Hp1 & Ha1).
        cbn [iter Transport.with_iter] in Htaken. rewrite Hi' in Htaken.
        unfold driver_iteration, try_catch, bind. rewrite Hnext, Hline.
        destruct (IH w1 Hl1) as (w' & Hdrv & Hd' & Hp' & Ha').
        { simpl in Hlen. rewrite Htaken, length_app in Hlen. lia. }
        cbn [posted alerts Transport.with_iter] in Hp1, Ha1.
        exists w'. split; [exact Hdrv |].
        split; [exact Hd' |]. split; congruence.
Qed.

(** A line on which the try block does not throw has parsed. *)
Lemma quiet_line_parses (line : string) :
  try_throws rt line = false -> JSON_parse rt line <> None.
Proof.
  unfold try_throws. destruct (JSON_parse rt line); [discriminate | discriminate].
Qed.

Lemma parsed_ends_run (ls : list string) :
  Forall (fun l => JSON_parse rt l <> None) ls -> ends_run rt ls.
Proof. intros H. destruct H; simpl; auto. Qed.

(** The loop on lines that all parse, beside the same calls of
    [handleLine] made one after the other on a state [wr] that differs by
    its stream alone. *)
Lemma driver_run (n : nat) :
  forall w wr : World,
    w = Transport.with_iter (iter w) wr ->
    live (iter w) -> live (iter wr) ->
    Forall (fun l => JSON_parse rt l <> None) (lines (iter w)) ->
    ends_run rt (lines (iter wr)) ->
    length (lines (iter w)) <= n ->
    exists w',
      driver rt (2 + n) w = Some (Returned tt, w')
      /\ LazyIter.is_done (iter w') = true
      /\ posted w' = posted w
      /\ batch w' = batch (run rt SERVICE_NAME (map HandleLine (lines (iter w))) wr)
      /\ clock w' = clock (run rt SERVICE_NAME (map HandleLine (lines (iter w))) wr).
Proof.
  assert (Hend : forall fuel w, LazyIter.is_done (iter w) = true ->
                                driver rt (S fuel) w = Some (Returned tt, w)).
  { intros fuel w Hd. simpl. now rewrite Hd. }
  assert (Hnil : forall w, LazyIter.is_done (iter w) = true -> lines (iter w) = []).
  { intros w Hd. apply is_done_iff in Hd. destruct Hd as [Hd Hb].
    unfold LazyIter.items. now rewrite Hd, Hb. }
  assert (Hsame : forall w wr, w = Transport.with_iter (iter w) wr ->
                               batch w = batch wr /\ clock w = clock wr).
  { intros w wr ->. split; reflexivity. }
  assert (Hlast : forall fuel w wr,
             w = Transport.with_iter (iter w) wr ->
             live (iter w) -> lines (iter w) = [] ->
             exists w',
               driver rt (S (S fuel)) w = Some (Returned tt, w')
               /\ LazyIter.is_done (iter w') = true
               /\ posted w' = posted w
               /\ batch w' = batch wr /\ clock w' = clock wr).
  { intros fuel w wr Hrel Hlive Hlines.
    destruct (Hsame w wr Hrel) as [Hb Hc].
    destruct (LazyIter.is_done (iter w)) eqn:Hd.
    - exists w. rewrite Hend by exact Hd. conjs; auto.
    - cbn [driver]. rewrite Hd.
      pose proof (iter_next_live w Hlive) as Hnext. rewrite Hlines in Hnext.
      destruct Hnext as (s' & Hnext & Hl' & Hi' & Hd').
      unfold driver_iteration, try_catch, bind. rewrite Hnext.
      cbv beta iota delta [ret]. cbn [iter Transport.with_iter]. rewrite Hd'.
      eexists. split; [reflexivity |]. cbn. conjs; auto. }
  induction n as [| n IH]; intros w wr Hrel Hlive Hlr Hall Hends Hlen.
  - destruct (lines (iter w)) as [| x xs] eqn:Hlines; [| simpl in Hlen; lia].
    apply (Hlast 0 w wr Hrel Hlive Hlines).
  - destruct (lines (iter w)) as [| x xs] eqn:Hlines.
    + apply (Hlast (S n) w wr Hrel Hlive Hlines).
    + change (2 + S n) with (S (2 + n)). cbn [driver].
      assert (Hd : LazyIter.is_done (iter w) = false).
      { destruct (LazyIter.is_done (iter w)) eqn:Hd; [| reflexivity].
        rewrite (Hnil w Hd) in Hlines. discriminate. }
      rewrite Hd.
      pose proof (iter_next_live w Hlive) as Hnext. rewrite Hlines in Hnext.
      destruct Hnext as (s' & Hnext & Hl' & Hi').
      inversion Hall as [| ? ? Hx Hxs]; subst x0 l.
      assert (Hends' : ends_run rt (lines s'))
        by (rewrite Hi'; now apply parsed_ends_run).
      destruct (handleLine_apart x wr s' (iter wr) Hl' Hlr Hends' Hends)
        as (s1' & s2' & w1 & Hline1 & Hline2 & Hl1' & Hi1' & Hl2' & Hi2' & Hp1 & _).
      rewrite with_iter_same in Hline2.
      assert (Hnext' : iter_next w = (Returned x, Transport.with_iter s' wr)).
      { rewrite Hnext. f_equal. rewrite Hrel at 1. reflexivity. }
      unfold driver_iteration, try_catch, bind. rewrite Hnext', Hline1.
      destruct (IH (Transport.with_iter s1' w1) (Transport.with_iter s2' w1))
        as (w' & Hdrv & Hd' & Hp' & Hb' & Hc'); try reflexivity; cbn [iter Transport.with_iter];
        try assumption.
      * rewrite Hi1', Hi'. exact Hxs.
      * now rewrite Hi2'.
      * rewrite Hi1', Hi'. simpl in Hlen. lia.
      * cbn [iter Transport.with_iter] in Hb', Hc'. rewrite Hi1', Hi' in Hb', Hc'.
        exists w'. split; [exact Hdrv |]. split; [exact Hd' |].
        split.
        { rewrite Hp'. cbn [posted Transport.with_iter]. rewrite Hp1.
          rewrite Hrel. reflexivity. }
        unfold run in *. cbn [map fold_left exec]. rewrite Hline2. cbn [snd].
        split; assumption.
Qed.

(** X11.  On a live stream over a source that ends (standard input
    is closed after its last chunk), the driver loop ends: with enough fuel
    for the lines to come it returns with the stream done, having sent
    nothing itself. *)
Theorem driver_drains_the_stream (w : World) :
  live (iter w) ->
  exists w',
    driver rt (2 + length (lines (iter w))) w = Some (Returned tt, w')
    /\ LazyIter.is_done (iter w') = true
    /\ posted w' = posted w
    /\ alerts w' = alerts w.
Proof.
  intros Hlive.
  apply (driver_live (length (lines (iter w))) w Hlive (Nat.le_refl _)).
Qed.

(** X12.  When every line to come parses, the driver loop hands the
    lines to [handleLine] one by one in the order of the input, and the
    batch it leaves is the batch of these calls in sequence. *)
Theorem driver_handles_lines_in_order (w : World) :
  live (iter w) ->
  Forall (fun l => JSON_parse rt l <> None) (lines (iter w)) ->
  exists w',
    driver rt (2 + length (lines (iter w))) w = Some (Returned tt, w')
    /\ batch w' = batch (run rt SERVICE_NAME (map HandleLine (lines (iter w))) w)
    /\ clock w' = clock (run rt SERVICE_NAME (map HandleLine (lines (iter w))) w).
Proof.
  intros Hlive Hall.
  destruct (driver_run (length (lines (iter w))) w w
              (eq_sym (with_iter_same w)) Hlive Hlive Hall
              (parsed_ends_run _ Hall) (Nat.le_refl _))
    as (w' & Hdrv & _ & _ & Hb & Hc).
  eauto.
Qed.

End TransportDelivery.

(** ** Flushing *)

Section TransportFlush.

Import JS Transport.

Variable rt : Runtime.
Variable SERVICE_NAME : string.

#[local] Abbreviation handleLog := (Transport.handleLog rt).
#[local] Abbreviation handleLine := (Transport.handleLine rt).
#[local] Abbreviation flush := (Transport.flush rt SERVICE_NAME).
#[local] Abbreviation embeds := (Transport.embeds rt SERVICE_NAME).
#[local] Abbreviation lines := (LazyIter.items truthy_chunk split_lines).
#[local] Abbreviation live := (@LazyIter.live string string).

Lemma flush_idle (r : Response) (h : Webhook) (w : World) :
  batch w = [] -> flush r h w = (Returned tt, w).
Proof.
  intros Hb. unfold Transport.flush, bind, flush_begin. now rewrite Hb.
Qed.

Lemma flush_empties (r : Response) (h : Webhook) (w : World) :
  batch (snd (flush r h w)) = [].
Proof.
  destruct (batch w) as [| b bs] eqn:Hb.
  - now rewrite flush_idle.
  - rewrite flush_is_uninterrupted.
    destruct (flush_interleaved_spec rt SERVICE_NAME [] r [] h w) as (w' & E & H & _);
      [congruence |].
    now rewrite E.
Qed.

Lemma flush_webhook_iter (h : Webhook) (w : World) :
  iter (snd (flush_webhook rt h w)) = iter w.
Proof.
  unfold flush_webhook, bind. destruct h as [| message name stack]; [reflexivity |].
  unfold Transport.now. rewrite handleLog_plain by reflexivity. reflexivity.
Qed.

(** The webhook message of a batch: one entry for each [error] or
    [fatal] record, none when there is no such record or when making the
    entries throws. *)
Lemma flush_accepted (r : Response) (h : Webhook) (w : World) :
  statusCode r = 200%Z ->
  batch w <> [] ->
  fst (flush r h w) = Returned tt
  /\ batch (snd (flush r h w)) = []
  /\ posted (snd (flush r h w)) = posted w ++ [batch w]
  /\ alerts (snd (flush r h w))
     = alerts w
       ++ match filter is_alert (batch w) with
          | [] => []
          | errors =>
              match embeds errors with
              | inr entries => [entries]
              | inl _ => []
              end
          end
  /\ iter (snd (flush r h w)) = iter w.
Proof.
  intros Hstatus Hne.
  set (w0 := with_posted (posted w ++ [batch w]) w).
  assert (Hflush :
            flush r h w
            = match filter is_alert (batch w) with
              | [] => (Returned tt, with_batch [] w0)
              | errors =>
                  match embeds errors with
                  | inr entries =>
                      flush_webhook rt h (with_alerts (alerts w ++ [entries]) w0)
                  | inl _ => flush_webhook rt (unconvertible rt) w0
                  end
              end).
  { cbv beta iota delta [Transport.flush bind flush_begin flush_response].
    destruct (batch w) as [| b bs] eqn:Hb; [congruence |].
    rewrite Hstatus. cbn [Z.eqb Pos.eqb negb].
    cbv beta iota delta [ret]. cbn [batch with_posted]. rewrite Hb.
    destruct (filter is_alert (b :: bs)) as [| a l]; [reflexivity |].
    destruct (embeds (a :: l)) as [e | entries]; [| reflexivity].
    subst w0.
    destruct (flush_webhook_spec rt (unconvertible rt)
                (with_posted (posted w ++ [b :: bs]) w)) as (Hr & _).
    destruct (flush_webhook rt (unconvertible rt) _) as [o w2]. simpl in Hr. subst o.
    reflexivity. }
  rewrite Hflush. clear Hflush.
  assert (Hgo : forall h0 w1,
             posted w1 = posted w ++ [batch w] -> iter w1 = iter w ->
             fst (flush_webhook rt h0 w1) = Returned tt
             /\ batch (snd (flush_webhook rt h0 w1)) = []
             /\ posted (snd (flush_webhook rt h0 w1)) = posted w ++ [batch w]
             /\ alerts (snd (flush_webhook rt h0 w1)) = alerts w1
             /\ iter (snd (flush_webhook rt h0 w1)) = iter w).
  { intros h0 w1 Hp Hi.
    destruct (flush_webhook_spec rt h0 w1) as (Hr & Hbatch & Hposted).
    pose proof (flush_webhook_alerts rt h0 w1) as Halerts.
    pose proof (flush_webhook_iter h0 w1) as Hiter.
    conjs; congruence. }
  destruct (filter is_alert (batch w)) as [| a l] eqn:Hf.
  - simpl. rewrite app_nil_r. conjs; auto.
  - destruct (embeds (a :: l)) as [e | entries].
    + destruct (Hgo (unconvertible rt) w0 eq_refl eq_refl) as (H1 & H2 & H3 & H4 & H5).
      rewrite app_nil_r. conjs; auto.
    + destruct (Hgo h (with_alerts (alerts w ++ [entries]) w0) eq_refl eq_refl)
        as (H1 & H2 & H3 & H4 & H5).
      conjs; auto.
Qed.


(** X14.  A [flush] that follows a [flush] with nothing logged in
    between does nothing: the first has left the batch empty, whatever the
    sink and the webhook answered. *)
Theorem second_flush_is_idle (r r' : Response) (h h' : Webhook) (w : World) :
  flush r' h' (snd (flush r h w)) = (Returned tt, snd (flush r h w)).
Proof. apply flush_idle, flush_empties. Qed.

(** X15.  A crash dump from the input to the alert.  On an empty
    batch, a run of lines that opens with a line the [try] block throws
    on and holds the marker is handled and then flushed to a sink that
    answers 200: the body posted holds the one [fatal] record of the run,
    and the webhook gets one message with one embed, titled as a fatal
    error of the service, whose description is the lines of the run joined
    by newlines between code fences. *)
Theorem crash_dump_reaches_webhook
  (line : string) (run rest : list string) (r : Response) (h : Webhook) (w : World) :
  live (iter w) ->
  batch w = [] ->
  try_throws rt line = true ->
  lines (iter w) = run ++ rest ->
  Forall (fun l => JSON_parse rt l = None) run ->
  ends_run rt rest ->
  existsb has_marker (line :: run) = true ->
  statusCode r = 200%Z ->
  let handled := snd (handleLine line w) in
  let flushed := snd (flush r h handled) in
  posted flushed = posted w ++ [[crash_log (Date_now_ISO rt (clock w)) (line :: run)]]
  /\ alerts flushed
     = alerts w
       ++ [[ {| title := "Fatal error occured in service " ++ SERVICE_NAME;
                description := fence ++ Str.join Str.newline (line :: run) ++ fence |} ]]
  /\ batch flushed = []
  /\ lines (iter flushed) = rest.
Proof.
  intros Hlive Hbatch Hthrows Hsplit Hrun Hrest Hmarker Hstatus.
  pose proof (handleLine_try_spec rt line w) as Htry. rewrite Hthrows in Htry.
  destruct Htry as [e Htry].
  destruct (handleLine_catch_live rt line run rest w Hlive Hsplit Hrun Hrest)
    as (s' & Hl' & Hi' & Hcatch).
  rewrite Hmarker, Hbatch in Hcatch. cbn [app] in Hcatch.
  unfold Transport.handleLine, try_catch. rewrite Htry, Hcatch. cbn [snd].
  set (record := crash_log (Date_now_ISO rt (clock w)) (line :: run)).
  set (handled := with_batch [record] _).
  destruct (flush_accepted r h handled Hstatus) as (_ & H2 & H3 & H4 & H5);
    [discriminate |].
  cbn zeta. rewrite H2, H3, H4, H5. conjs; auto.
Qed.

(** X21.  The exit of the program, the timer not having fired: when
    every line to come parses and the sink answers 200, the driver loop
    followed by the last [flush] ends with the stream done and the batch
    empty, having posted in one body the records of all the lines in
    input order (and nothing when no record was made). *)
Theorem remaining_records_are_posted_at_exit (r : Response) (h : Webhook) (w : World) :
  live (iter w) ->
  Forall (fun l => JSON_parse rt l <> None) (lines (iter w)) ->
  statusCode r = 200%Z ->
  let records := batch (run rt SERVICE_NAME (map HandleLine (lines (iter w))) w) in
  exists w',
    finish rt SERVICE_NAME (2 + length (lines (iter w))) r h w = Some (Returned tt, w')
    /\ posted w' = posted w ++ match records with [] => [] | _ => [records] end
    /\ batch w' = []
    /\ LazyIter.is_done (iter w') = true.
Proof.
  intros Hlive Hall Hstatus records.
  destruct (driver_run rt SERVICE_NAME (length (lines (iter w))) w w
              (eq_sym (with_iter_same w)) Hlive Hlive Hall
              (parsed_ends_run rt _ Hall) (Nat.le_refl _))
    as (wd & Hdrv & Hdone & Hposted & Hbatch & _).
  fold records in Hbatch.
  unfold finish. rewrite Hdrv.
  destruct records as [| b bs].
  - exists wd. rewrite flush_idle by exact Hbatch.
    rewrite app_nil_r. conjs; auto.
  - destruct (flush_accepted r h wd Hstatus) as (H1 & H2 & H3 & _ & H5);
      [congruence |].
    exists (snd (flush r h wd)).
    destruct (flush r h wd) as [o wf]. simpl in *. subst o.
    conjs; congruence.
Qed.

End TransportFlush.

(** ** Lines and chunks *)

Section StrFacts.

Lemma append_nil_r (s : string) : (s ++ EmptyString)%string = s.
Proof. induction s as [| c s IH]; simpl; congruence. Qed.

Lemma append_assoc (a b c : string) : ((a ++ b) ++ c)%string = (a ++ (b ++ c))%string.
Proof. induction a as [| x a IH]; simpl; congruence. Qed.

Lemma split_aux_cons (sep : ascii) (s : string) :
  forall acc, exists x xs, Str.split_aux sep acc s = x :: xs.
Proof.
  induction s as [| c s IH]; intros acc; simpl; eauto.
  destruct (Ascii.eqb c sep); eauto.
Qed.

Lemma join_cons (sep x : string) (xs : list string) :
  xs <> [] -> Str.join sep (x :: xs) = (x ++ sep ++ Str.join sep xs)%string.
Proof. destruct xs; [congruence | reflexivity]. Qed.

Lemma join_split_aux (s : string) :
  forall acc, Str.join Str.newline (Str.split_aux Str.LF acc s) = (acc ++ s)%string.
Proof.
  induction s as [| c s IH]; intros acc; simpl.
  - now rewrite append_nil_r.
  - destruct (Ascii.eqb_spec c Str.LF) as [-> | Hc].
    + destruct (split_aux_cons Str.LF s EmptyString) as (x & xs & Hx).
      rewrite join_cons by (rewrite Hx; discriminate).
      now rewrite IH.
    + rewrite IH, append_assoc. reflexivity.
Qed.

(** [s.includes('\n')] looks for a line feed among the characters. *)
Lemma includes_newline_app (a : string) (c : ascii) :
  Str.includes Str.newline (a ++ String c EmptyString)
  = Str.includes Str.newline a || Ascii.eqb Str.LF c.
Proof.
  induction a as [| x a IH].
  - simpl. now rewrite andb_true_r, orb_false_r.
  - cbn [append Str.includes]. rewrite IH.
    unfold Str.newline. cbn [Str.startsWith].
    destruct (a ++ String c EmptyString)%string; destruct a;
      rewrite ?andb_true_r, ?orb_assoc; reflexivity.
Qed.

Lemma split_aux_no_newline (s : string) :
  forall acc,
    Str.includes Str.newline acc = false ->
    Forall (fun l => Str.includes Str.newline l = false) (Str.split_aux Str.LF acc s).
Proof.
  induction s as [| c s IH]; intros acc Hacc; simpl.
  - auto.
  - destruct (Ascii.eqb_spec c Str.LF) as [-> | Hc].
    + constructor; [exact Hacc |]. now apply IH.
    + apply IH. rewrite includes_newline_app, Hacc. cbn [orb].
      apply Ascii.eqb_neq. congruence.
Qed.

Lemma join_split_lines (chunk : string) :
  Str.join Str.newline (Transport.split_lines chunk) = chunk.
Proof. apply join_split_aux. Qed.

Lemma split_lines_cons (chunk : string) : Transport.split_lines chunk <> [].
Proof.
  unfold Transport.split_lines, Str.split.
  destruct (split_aux_cons Str.LF chunk EmptyString) as (x & xs & ->). discriminate.
Qed.

(** X16.  Splitting a chunk into lines loses nothing and cuts at every
    line feed: the items joined by line feeds give the chunk back, no
    item holds a line feed, and there is always at least one item (the
    last one being what follows the last line feed, empty when the chunk
    ends with one). *)
Theorem split_lines_round_trip (chunk : string) :
  Str.join Str.newline (Transport.split_lines chunk) = chunk
  /\ Forall (fun l => Str.includes Str.newline l = false) (Transport.split_lines chunk)
  /\ Transport.split_lines chunk <> [].
Proof.
  split; [apply join_split_lines | split; [| apply split_lines_cons]].
  unfold Transport.split_lines, Str.split. now apply split_aux_no_newline.
Qed.

Lemma join_app (sep : string) (l1 l2 : list string) :
  l1 <> [] -> l2 <> [] ->
  Str.join sep (l1 ++ l2) = (Str.join sep l1 ++ sep ++ Str.join sep l2)%string.
Proof.
  intros H1 H2. induction l1 as [| x l1 IH]; [congruence |].
  destruct l1 as [| y l1].
  - cbn [app]. now rewrite join_cons.
  - change ((x :: y :: l1) ++ l2) with (x :: ((y :: l1) ++ l2)).
    rewrite join_cons by discriminate.
    rewrite IH by discriminate.
    rewrite (join_cons sep x (y :: l1)) by discriminate.
    now rewrite !append_assoc.
Qed.

End StrFacts.

Section Chunks.

Import Transport.

#[local] Abbreviation lines := (LazyIter.items truthy_chunk split_lines).

Lemma start_lines (chunks : list string) :
  lines (iter (start chunks)) = concat (map split_lines (filter truthy_chunk chunks)).
Proof.
  unfold LazyIter.items, start. simpl.
  induction chunks as [| c chunks IH]; [reflexivity |].
  simpl. unfold LazyIter.contribution at 1. simpl.
  destruct (truthy_chunk c); simpl; now rewrite IH.
Qed.

Lemma join_chunks (chunks : list string) :
  Str.join Str.newline (concat (map split_lines chunks)) = Str.join Str.newline chunks.
Proof.
  induction chunks as [| c cs IH]; [reflexivity |].
  cbn [map concat].
  pose proof (join_split_lines c) as Hjoin.
  pose proof (split_lines_cons c) as Hne.
  destruct cs as [| c' cs].
  - simpl. now rewrite app_nil_r.
  - assert (Hrest : concat (map split_lines (c' :: cs)) <> []).
    { cbn [map concat]. pose proof (split_lines_cons c') as Hne'.
      destruct (split_lines c'); [congruence | cbn [app]; discriminate]. }
    rewrite join_app by assumption.
    rewrite IH, Hjoin. now rewrite (join_cons _ c (c' :: cs)) by discriminate.
Qed.

(** X17.  What a consumer reads from standard input, given in chunks
    and then closed: calling [peek] and [next] in turn it gets the lines
    of the non-empty chunks, chunk after chunk, and then the
    exhausted-stream error.  A chunk boundary acts as a line feed: the
    items read are those of the chunks joined by line feeds, so that a line
    cut in two by a boundary is read as two items. *)
Theorem chunk_boundary_breaks_a_line (chunks : list string) :
  let delivered := concat (map split_lines (filter truthy_chunk chunks)) in
  (exists s_end s_after,
      LazyIter.reads truthy_chunk split_lines (iter (start chunks)) delivered s_end
      /\ LazyIter.next truthy_chunk split_lines s_end
         = (Thrown LazyIter.exhausted, s_after)
      /\ LazyIter.is_done s_after = true)
  /\ Str.join Str.newline delivered = Str.join Str.newline (filter truthy_chunk chunks).
Proof.
  cbn zeta. split; [| apply join_chunks].
  apply reads_items; [apply start_lines |].
  unfold LazyIter.live, start. simpl. auto.
Qed.

End Chunks.

(** ** Start-up *)

Section StartUp.

Import JS Transport.

Variable rt : Runtime.
Variable SERVICE_NAME : string.

#[local] Abbreviation ensureStream := (Transport.ensureStream rt SERVICE_NAME).
#[local] Abbreviation some_named := (Transport.some_named SERVICE_NAME).

Lemma require_env_spec (env : Object) (vars : list string) :
  (require_env vars env = Returned tt <-> forall v, In v vars -> has v env = true)
  /\ (forall e,
        require_env vars env = Thrown e ->
        exists v,
          In v vars /\ has v env = false
          /\ e = Error (v ++ " environment variable is not set"))
  /\ require_env vars env <> Pending.
Proof.
  induction vars as [| x vars (IHr & IHt & IHp)]; simpl.
  - conjs; try discriminate. split; [tauto | reflexivity].
  - destruct (has x env) eqn:Hx; cbn [negb].
    + conjs; auto.
      * rewrite IHr. split; [intros H v [<- | Hv]; auto | auto].
      * intros e He. destruct (IHt e He) as (v & Hv & Hm & ->). eauto.
    + conjs; try discriminate.
      * split; [discriminate |]. intros H. rewrite (H x) in Hx by auto. discriminate.
      * intros e [= <-]. eauto.
Qed.

(** X18.  Start-up goes on exactly when each of the five required
    variables is in the environment, set to anything, the empty string
    included.  Otherwise it throws an error that names a required
    variable that is missing. *)
Theorem start_up_requires_each_variable (env : Object) :
  (check_env env = Returned tt <-> forall v, In v REQUIRED_ENV_VARS -> has v env = true)
  /\ (forall e,
        check_env env = Thrown e ->
        exists v,
          In v REQUIRED_ENV_VARS /\ has v env = false
          /\ e = Error (v ++ " environment variable is not set"))
  /\ check_env env <> Pending.
Proof. apply require_env_spec. Qed.

Lemma log_stream_created_spec (w : World) :
  log_stream_created rt w
  = (Returned tt,
     with_batch (batch w ++ [stream_created_log (Date_now_ISO rt (clock w))])
       (with_clock (S (clock w)) w)).
Proof.
  unfold log_stream_created, bind, Transport.now.
  now rewrite handleLog_plain by reflexivity.
Qed.

(** The first submission posts the record of the creation and clears
    the batch, with nothing sent to the webhook. *)
Lemma flush_at_startup_spec (flushed : Response) (trace : string) (w : World) (log : Log) :
  batch w = [log] ->
  is_alert log = false ->
  fst (flush_at_startup rt SERVICE_NAME flushed trace w) = Returned tt
  /\ batch (snd (flush_at_startup rt SERVICE_NAME flushed trace w)) = []
  /\ posted (snd (flush_at_startup rt SERVICE_NAME flushed trace w)) = posted w ++ [[log]]
  /\ alerts (snd (flush_at_startup rt SERVICE_NAME flushed trace w)) = alerts w.
Proof.
  intros Hb Hquiet.
  cbv beta iota delta [flush_at_startup bind flush_begin]. rewrite Hb.
  destruct (negb (statusCode flushed =? 200)%Z).
  - unfold Transport.now. rewrite handleLog_plain by reflexivity.
    cbv beta iota delta [push]. cbn [batch with_batch with_clock with_posted].
    rewrite Hb. cbn [app filter]. rewrite Hquiet.
    assert (Halert : forall datetime, is_alert (remove "name" (failure_log datetime flushed)) = true)
      by reflexivity.
    rewrite Halert.
    match goal with
    | |- context [embeds rt SERVICE_NAME ?errors] =>
        assert (Hentries : exists entries, embeds rt SERVICE_NAME errors = inr entries)
          by (eexists; reflexivity);
        destruct Hentries as [entries ->]
    end.
    cbv beta iota delta [flush_webhook uninitialised bind].
    unfold Transport.now. rewrite handleLog_plain by reflexivity.
    cbn. auto.
  - cbv beta iota delta [ret]. cbn [batch with_posted]. rewrite Hb.
    cbn [filter]. rewrite Hquiet. cbn. auto.
Qed.

(** X19.  When the sink lists no stream of the service's name and
    accepts the creation, [ensureStream] posts one body that holds the
    ["Log stream created"] record alone, and leaves the batch empty.  This
    whatever the sink answers to that submission: a refusal is neither
    retried nor sent to the webhook, which is not initialised yet.  It then
    returns if the retention is accepted, and throws if not. *)
Theorem ensureStream_seeds_the_new_stream
  (listed created flushed retention : Response) (rejection : Exn) (trace : string)
  (streams : list Value) (w : World) :
  statusCode listed = 200%Z ->
  body_json listed = Some (Arr streams) ->
  some_named streams = inr false ->
  statusCode created = 200%Z ->
  batch w = [] ->
  let result := ensureStream listed created flushed retention rejection trace w in
  posted (snd result) = posted w ++ [[stream_created_log (Date_now_ISO rt (clock w))]]
  /\ batch (snd result) = []
  /\ alerts (snd result) = alerts w
  /\ (statusCode retention = 200%Z -> fst result = Returned tt)
  /\ (statusCode retention <> 200%Z -> exists e, fst result = Thrown e).
Proof.
  intros Hlisted Hbody Hnone Hcreated Hbatch. cbn zeta.
  set (log := stream_created_log (Date_now_ISO rt (clock w))).
  set (w1 := with_batch [log] (with_clock (S (clock w)) w)).
  destruct (flush_at_startup_spec flushed trace w1 log eq_refl eq_refl)
    as (Hr & Hb & Hp & Ha).
  assert (Hrun :
            ensureStream listed created flushed retention rejection trace w
            = (if negb (statusCode retention =? 200)%Z
               then fail_with (body_text retention)
                      "Failed to setup log stream retention" rejection
               else ret tt) (snd (flush_at_startup rt SERVICE_NAME flushed trace w1))).
  { unfold Transport.ensureStream.
    rewrite Hlisted, Hbody, Hnone, Hcreated. cbn [Z.eqb Pos.eqb negb].
    cbv beta iota delta [bind]. rewrite log_stream_created_spec, Hbatch. cbn [app].
    fold log. fold w1.
    destruct (flush_at_startup rt SERVICE_NAME flushed trace w1) as [o w2]. simpl in Hr. subst o.
    reflexivity. }
  rewrite Hrun. clear Hrun.
  destruct (flush_at_startup rt SERVICE_NAME flushed trace w1) as [o w2]. simpl in Hr, Hb, Hp, Ha.
  cbn [snd].
  destruct (Z.eqb_spec (statusCode retention) 200) as [Hret | Hret]; cbn [negb].
  - simpl. conjs; auto. congruence.
  - unfold fail_with. destruct (body_text retention); simpl; conjs; eauto; congruence.
Qed.

(** X20.  Unless it has to create the stream and the creation is
    accepted, [ensureStream] leaves the state as it found it: nothing is
    logged and nothing is posted, also when it fails.  On a list that
    holds the service's name it returns at once. *)
Theorem ensureStream_is_silent_unless_it_creates
  (listed created flushed retention : Response) (rejection : Exn) (trace : string)
  (w : World) :
  let result := ensureStream listed created flushed retention rejection trace w in
  (forall streams,
      statusCode listed = 200%Z ->
      body_json listed = Some (Arr streams) ->
      some_named streams = inr true ->
      result = (Returned tt, w))
  /\ (snd result = w
      \/ (statusCode listed = 200%Z
          /\ statusCode created = 200%Z
          /\ exists streams,
               body_json listed = Some (Arr streams)
               /\ some_named streams = inr false)).
Proof.
  cbn zeta. unfold Transport.ensureStream. split.
  - intros streams -> -> ->. reflexivity.
  - destruct (Z.eqb_spec (statusCode listed) 200) as [Hl | Hl]; cbn [negb].
    + destruct (body_json listed) as [[| | | | | streams | |] |]; try (left; reflexivity).
      destruct (some_named streams) as [e | []] eqn:Hs; try (left; reflexivity).
      destruct (Z.eqb_spec (statusCode created) 200) as [Hc | Hc]; cbn [negb].
      * right. eauto.
      * left. unfold fail_with. now destruct (body_text created).
    + left. unfold fail_with. now destruct (body_json listed).
Qed.

End StartUp.

(** ** The properties on concrete inputs *)

Section Concrete.

Import JS Transport Scenario.

#[local] Abbreviation node := Node.runtime.

(** [toISOString] at the epoch, just before it, on a leap day, at the
    instant of the specification's scenario and at the two ends of the
    range of dates. *)
Example toISOString_samples :
  map Date.toISOString
    [ 0; -1; 951782400000; 1690000000000; Date.maxTime; - Date.maxTime ]%Z
  = [ "1970-01-01T00:00:00.000Z"; "1969-12-31T23:59:59.999Z";
      "2000-02-29T00:00:00.000Z"; "2023-07-22T04:26:40.000Z";
      "+275760-09-13T00:00:00.000Z"; "-271821-04-20T00:00:00.000Z" ].
Proof. vm_compute. reflexivity. Qed.

(** A time value past the range is an invalid date, whose
    [toISOString] throws. *)
Example out_of_range_time_throws :
  Date.ISO_of node (Num (inject_Z (Date.maxTime + 1))) = inl RangeError.
Proof. reflexivity. Qed.

(** The reference [JSON.parse] on the kinds of line the transport
    meets: objects, other JSON values, and text that is not JSON. *)
Example JSON_parse_samples :
  map (JSON_parse node)
    [ boom_line; "{}"; "42"; Node.json " [1, 2.5e1, true, null, 'a'] ";
      crash_head; EmptyString; Node.json "{'a':1,}"; Node.json "{'a':1} x" ]
  = [ Some (Obj [ ("time", Num (inject_Z 1690000000000));
                  ("level", Num (inject_Z 50)); ("msg", Str "boom") ]);
      Some (Obj []); Some (Num (inject_Z 42));
      Some (Arr [ Num 1; Num (inject_Z 25); Bool true; Null; Str "a" ]);
      None; None; None; None ].
Proof. vm_compute. reflexivity. Qed.

(** The first scenario of the specification: one structured line, one
    record. *)
Example boom_scenario :
  batch (snd (handleLine node boom_line (start [])))
  = [ [ ("message", Str "boom"); ("error", Undefined);
        ("datetime", Str "2023-07-22T04:26:40.000Z"); ("level", Str "error") ] ].
Proof. vm_compute. reflexivity. Qed.

(** The second scenario, from the text of standard input to the batch:
    one [fatal] record for the dump, one [info] record for the line. *)
Example crash_scenario :
  let input := (crash_head ++ Str.newline ++ "    at foo.js:1:1" ++ Str.newline
                ++ ok_line ++ Str.newline)%string in
  option_map (fun r => map (read "level") (batch (snd r)))
    (driver node 8 (start [input]))
  = Some [Str "fatal"; Str "info"].
Proof. vm_compute. reflexivity. Qed.

(** The same dump arriving in two chunks, cut inside a line: the scan
    waits for the second chunk, and each piece the split yields is a line
    of its own. *)
Example crash_scenario_in_flight :
  let first := (crash_head ++ Str.newline ++ "    at foo")%string in
  let second := (".js:1:1" ++ Str.newline ++ ok_line)%string in
  option_map
    (fun r => map (fun log => (read "level" log, member "stack" (read "error" log)))
                (batch (snd r)))
    (driver node 8 (start [first; second]))
  = Some [ (Str "fatal",
            Str (crash_head ++ Str.newline ++ "    at foo" ++ Str.newline ++ ".js:1:1"));
           (Str "info", Undefined) ].
Proof. vm_compute. reflexivity. Qed.

Lemma peek_twice_same_item_witness :
  LazyIter.buffer two_buffered = ["first"; "second"]
  /\ fst (LazyIter.peek truthy_chunk split_lines
            (snd (LazyIter.peek truthy_chunk split_lines two_buffered)))
     = Returned (Some "first").
Proof.
  split; [reflexivity |].
  pose proof (peek_twice_same_item truthy_chunk split_lines two_buffered
                "first" ["second"] eq_refl) as H.
  destruct (LazyIter.peek truthy_chunk split_lines two_buffered) as [first s1].
  simpl. destruct (LazyIter.peek truthy_chunk split_lines s1) as [second s2].
  simpl. exact (proj1 (proj2 H)).
Defined.

Lemma next_when_done_is_exhausted_witness :
  let s := LazyIter.after truthy_chunk split_lines drained (LazyIter.new one_chunk) in
  LazyIter.is_done s = true
  /\ LazyIter.next truthy_chunk split_lines s = (Thrown LazyIter.exhausted, s).
Proof.
  intros s. split; [reflexivity |].
  exact (proj2 (proj2 (next_when_done_is_exhausted truthy_chunk split_lines
                         one_chunk drained eq_refl))).
Defined.

Lemma falsy_name_stripped_without_warning_witness :
  get "name" empty_name_log = Some (Str EmptyString)
  /\ truthy (Str EmptyString) = false
  /\ batch (snd (Transport.handleLog node empty_name_log (start [])))
     = [ remove "name" empty_name_log ].
Proof.
  split; [reflexivity |]. split; [reflexivity |].
  destruct (falsy_name_stripped_without_warning node empty_name_log (Str EmptyString)
              (start []) eq_refl eq_refl) as [E _].
  rewrite E. reflexivity.
Defined.

Lemma missing_field_one_warning_witness :
  JSON_parse node no_level_line = Some (Obj no_level_object)
  /\ has "time" no_level_object && has "level" no_level_object = false
  /\ batch (snd (handleLine node no_level_line (start [])))
     = [ missing_field_warning (Date_now_ISO node 0) "level" (Obj no_level_object) ].
Proof.
  split; [vm_compute; reflexivity |]. split; [reflexivity |].
  destruct (missing_field_one_warning node no_level_line no_level_object (start [])
              ltac:(vm_compute; reflexivity) eq_refl) as [E _].
  rewrite E. reflexivity.
Defined.

Lemma crash_run_then_structured_line_witness :
  JSON_parse node crash_head = None
  /\ Forall (fun l => JSON_parse node l = None) crash_tail
  /\ JSON_parse node ok_line = Some (Obj ok_object)
  /\ Date.TimeClip (inject_Z 1690000000000) = Some 1690000000000%Z
  /\ LazyIter.reads truthy_chunk split_lines (iter crashing) crash_tail
       (iter (rebuffer [ok_line] crashing))
  /\ batch (snd (handleLine node crash_head crashing))
     = [ crash_log (Date_now_ISO node 0) (crash_head :: crash_tail) ]
  /\ exists own emitted : Log,
       emitted = remove "name" own
       /\ batch (snd (driver_iteration node (snd (handleLine node crash_head crashing))))
          = [ crash_log (Date_now_ISO node 0) (crash_head :: crash_tail); emitted ]
       /\ get "level" emitted = Some (Str "info")
       /\ get "datetime" emitted = Some (Str "2023-07-22T04:26:40.000Z")
       /\ get "message" emitted = Some (Str "ok").
Proof.
  assert (H1 : JSON_parse node crash_head = None) by (vm_compute; reflexivity).
  assert (H2 : Forall (fun l => JSON_parse node l = None) crash_tail)
    by (repeat constructor).
  assert (H3 : JSON_parse node ok_line = Some (Obj ok_object))
    by (vm_compute; reflexivity).
  assert (H4 : Date.TimeClip (inject_Z 1690000000000) = Some 1690000000000%Z)
    by reflexivity.
  assert (H5 : LazyIter.reads truthy_chunk split_lines (iter crashing) crash_tail
                 (iter (rebuffer [ok_line] crashing))).
  { apply (LazyIter.reads_cons truthy_chunk split_lines (iter crashing) (iter crashing)
             (iter (rebuffer [ok_line] crashing)) _ _ []); try reflexivity.
    constructor. }
  repeat (split; [assumption |]).
  destruct (crash_run_then_structured_line node crash_head crash_tail ok_line
              ok_object (inject_Z 1690000000000) (inject_Z 30) 1690000000000%Z
              (iter (rebuffer [ok_line] crashing)) (iter (rebuffer [ok_line] crashing))
              crashing H1 H2 H3 eq_refl H4 eq_refl H5 eq_refl)
    as (E & _ & _ & rest & own & emitted & _ & He & _ & Hb & Hl & Hd & Hm & _).
  rewrite E. split; [reflexivity |].
  exists own, emitted. cbn [snd]. rewrite Hb.
  split; [exact He |]. split; [reflexivity |].
  split; [exact Hl |]. split; [| exact Hm].
  rewrite Hd. reflexivity.
Defined.

(** C3 as stated fails: a line with numeric [time] and [level] whose
    [time] is past the range of dates is a structured line, left in the
    stream by the scan of the run before it; the pass of the driver loop
    that takes it appends no record, [toISOString] throwing inside the
    [try] block. *)
Lemma far_time_line_gets_no_record :
  JSON_parse node "oops" = None
  /\ is_structured node far_line = true
  /\ let handled := snd (handleLine node "oops" far_next) in
     batch handled = []
     /\ LazyIter.buffer (iter handled) = [far_line]
     /\ fst (driver_iteration node handled) = Returned tt
     /\ batch (snd (driver_iteration node handled)) = []
     /\ LazyIter.buffer (iter (snd (driver_iteration node handled))) = [].
Proof. vm_compute. repeat split; reflexivity. Qed.

(** C4 as stated fails: the empty object is not a structured record
    (it has neither [level] nor [time]), yet the scan that peeks it stops
    and leaves it in the stream, since it parses. *)
Lemma lookahead_stops_at_unstructured_json :
  is_structured node "{}" = false
  /\ LazyIter.buffer (iter empty_object_next) = ["{}"]
  /\ collect node ["oops"] empty_object_next = (Returned ["oops"], empty_object_next).
Proof. repeat split; vm_compute; reflexivity. Qed.

Lemma lookahead_consumes_unparseable_witness :
  LazyIter.peek truthy_chunk split_lines (iter crashing)
  = (Returned (Some "    at foo.js:1:1"), iter crashing)
  /\ JSON_parse node "    at foo.js:1:1" = None
  /\ collect node [crash_head] crashing
     = collect node [crash_head; "    at foo.js:1:1"] (rebuffer [ok_line] crashing).
Proof.
  split; [reflexivity |]. split; [vm_compute; reflexivity |].
  destruct (lookahead_consumes_unparseable node [crash_head] crashing
              "    at foo.js:1:1" (iter crashing) eq_refl)
    as (rest & Hbuf & Htake & _).
  injection Hbuf as <-.
  exact (Htake ltac:(vm_compute; reflexivity)).
Defined.

(** C5 as stated fails: the line parses as an object with [time] and
    [level], and of its other fields [pid] is carried through, but [name]
    is dropped and [message] is replaced by the (absent) [msg]. *)
Lemma structured_line_drops_name_and_message :
  JSON_parse node named_line = Some (Obj named_object)
  /\ has "time" named_object = true
  /\ has "level" named_object = true
  /\ exists warning emitted : Log,
       batch (snd (handleLine node named_line (start []))) = [warning; emitted]
       /\ get "name" named_object = Some (Str "svc")
       /\ get "name" emitted = None
       /\ get "message" named_object = Some (Str "hi")
       /\ get "message" emitted = Some Undefined
       /\ ~ carries_through ["msg"; "err"; "time"; "level"] named_object emitted.
Proof.
  split; [vm_compute; reflexivity |]. split; [reflexivity |]. split; [reflexivity |].
  eexists. eexists. split; [vm_compute; reflexivity |].
  repeat (split; [reflexivity |]).
  intros Hcarry. specialize (Hcarry "name"). simpl in Hcarry.
  assert (Hout : ~ ("msg" = "name" \/ "err" = "name" \/ "time" = "name"
                   \/ "level" = "name" \/ False)) by intuition discriminate.
  specialize (Hcarry Hout). discriminate Hcarry.
Qed.

Lemma structured_line_record_witness :
  JSON_parse node named_line = Some (Obj named_object)
  /\ get "time" named_object = Some (Num 0)
  /\ Date.TimeClip 0 = Some 0%Z
  /\ get "level" named_object = Some (Num (inject_Z 30))
  /\ exists record emitted : Log,
       emitted = remove "name" record
       /\ batch (snd (handleLine node named_line (start [])))
          = [ name_warning (Date_now_ISO node 0) record; emitted ]
       /\ get "level" emitted = Some (Str "info")
       /\ get "datetime" emitted = Some (Str "1970-01-01T00:00:00.000Z")
       /\ get "pid" emitted = Some (Num (inject_Z 7)).
Proof.
  assert (H1 : JSON_parse node named_line = Some (Obj named_object))
    by (vm_compute; reflexivity).
  repeat (split; [first [assumption | reflexivity] |]).
  destruct (structured_line_record node named_line named_object 0 (inject_Z 30) 0%Z
              (start []) H1 eq_refl eq_refl eq_refl)
    as (record & emitted & He & _ & Hb & Hl & _ & _ & Hd & _ & Hc).
  exists record, emitted.
  split; [exact He |]. split; [exact Hb |]. split; [exact Hl |]. split; [exact Hd |].
  rewrite (Hc "pid"); [reflexivity |].
  simpl. intuition discriminate.
Defined.

Lemma failed_submission_leaves_empty_batch_witness :
  batch one_pending <> []
  /\ statusCode unavailable <> 200%Z
  /\ batch (snd (flush node service unavailable Delivered one_pending)) = []
  /\ posted (snd (flush node service unavailable Delivered one_pending))
     = [ batch one_pending ].
Proof.
  assert (H1 : batch one_pending <> []) by discriminate.
  assert (H2 : statusCode unavailable <> 200%Z) by discriminate.
  split; [exact H1 |]. split; [exact H2 |].
  destruct (failed_submission_leaves_empty_batch node service unavailable Delivered
              one_pending H1 H2) as (_ & Hb & Hp & _).
  split; [exact Hb | exact Hp].
Defined.

Lemma records_logged_during_flush_are_dropped_witness :
  batch one_pending <> []
  /\ (let w' := snd (flush_interleaved node service [late_log] accepted [] Delivered
                       one_pending) in
      In late_log (batch (snd (logged node [late_log] (snd (flush_begin one_pending)))))
      /\ batch w' = [] /\ posted w' = [ batch one_pending ]
      /\ ~ In late_log (concat (posted w'))).
Proof.
  assert (H1 : batch one_pending <> []) by discriminate.
  split; [exact H1 |].
  destruct (records_logged_during_flush_are_dropped node service [late_log] accepted
              Delivered one_pending H1) as (_ & Hin & _ & Hp & Hb).
  split; [exact (Hin late_log (or_introl eq_refl)) |].
  split; [exact Hb |]. split; [exact Hp |].
  rewrite Hp. simpl. intros [H | []]. discriminate H.
Defined.

(** *** Further properties *)

#[local] Abbreviation peek := (LazyIter.peek truthy_chunk split_lines).
#[local] Abbreviation next := (LazyIter.next truthy_chunk split_lines).
#[local] Abbreviation lines := (LazyIter.items truthy_chunk split_lines).
#[local] Abbreviation fresh := (@LazyIter.new string string).

Lemma live_new (source : LazyIter.Source string) : LazyIter.live (fresh source).
Proof. unfold LazyIter.live. simpl. auto. Qed.

(** A [next] that waits on a source that then ends. *)
Lemma next_fails_only_when_exhausted_witness :
  fst (next (fresh ended)) = Thrown LazyIter.exhausted
  /\ LazyIter.priv_done (snd (next (fresh ended))) = true.
Proof.
  split; [reflexivity |].
  exact (proj2 (next_fails_only_when_exhausted truthy_chunk split_lines
                  (fresh ended) LazyIter.exhausted eq_refl eq_refl eq_refl)).
Defined.

(** A [peek] that waits for the only chunk. *)
Lemma peek_waits_without_taking_witness :
  LazyIter.live (fresh one_chunk)
  /\ LazyIter.buffer (fresh one_chunk) = []
  /\ fst (peek (fresh one_chunk)) = Returned (Some "only")
  /\ lines (snd (peek (fresh one_chunk))) = ["only"].
Proof.
  split; [apply live_new |]. split; [reflexivity |].
  destruct (peek_waits_without_taking truthy_chunk split_lines (fresh one_chunk)
              (live_new one_chunk)) as (Hpeek & Hitems & _).
  split; [exact Hpeek | exact Hitems].
Defined.

Lemma live_stream_delivers_in_order_witness :
  lines (fresh one_chunk) = ["only"]
  /\ exists s_end s_after,
       LazyIter.reads truthy_chunk split_lines (fresh one_chunk) ["only"] s_end
       /\ next s_end = (Thrown LazyIter.exhausted, s_after)
       /\ LazyIter.is_done s_after = true.
Proof.
  split; [reflexivity |].
  exact (live_stream_delivers_in_order truthy_chunk split_lines (fresh one_chunk)
           (live_new one_chunk)).
Defined.

(** A paused stream whose loop has nothing more to push: both calls
    stay pending. *)
Lemma pending_call_has_no_loop_witness :
  fst (peek paused) = Pending
  /\ fst (next paused) = Pending
  /\ LazyIter.loops (snd (peek paused)) = 0
  /\ LazyIter.loops (snd (next paused)) = 0.
Proof.
  split; [reflexivity |]. split; [reflexivity |].
  destruct (pending_call_has_no_loop truthy_chunk split_lines paused eq_refl eq_refl)
    as [Hpeek Hnext].
  split; [exact (Hpeek eq_refl) | exact (Hnext eq_refl)].
Defined.

Lemma done_is_permanent_witness :
  let s := LazyIter.after truthy_chunk split_lines drained (fresh one_chunk) in
  let calls := [LazyIter.CallResume; LazyIter.LoopPass; LazyIter.CallPeek] in
  LazyIter.is_done s = true
  /\ LazyIter.loops s = 0
  /\ LazyIter.is_done (LazyIter.after truthy_chunk split_lines calls s) = true.
Proof.
  intros s calls. split; [reflexivity |]. split; [reflexivity |].
  exact (proj1 (done_is_permanent truthy_chunk split_lines calls s eq_refl eq_refl)).
Defined.

Lemma pause_then_resume_loses_nothing_witness :
  let s := fresh one_chunk in
  let paused := LazyIter.call truthy_chunk split_lines LazyIter.LoopPass (LazyIter.pause s) in
  LazyIter.priv_done s = false
  /\ LazyIter.loops s = 1
  /\ LazyIter.buffer paused = ["only"]
  /\ lines (snd (LazyIter.resume paused)) = lines s.
Proof.
  intros s paused. split; [reflexivity |]. split; [reflexivity |].
  split; [reflexivity |].
  exact (proj2 (proj2 (proj2 (proj2 (proj2 (proj2
           (pause_then_resume_loses_nothing truthy_chunk split_lines s
              (live_new one_chunk) eq_refl eq_refl))))))).
Defined.

Lemma named_record_warned_then_stripped_witness :
  truthy (read "name" named_log) = true
  /\ map (read "level") (batch (snd (Transport.handleLog node named_log (start []))))
     = [Str "warn"; Str "info"]
  /\ map (has "name") (batch (snd (Transport.handleLog node named_log (start []))))
     = [false; false].
Proof.
  split; [reflexivity |].
  destruct (named_record_warned_then_stripped node named_log (start []) eq_refl)
    as [E _].
  rewrite E. split; reflexivity.
Defined.

(** A line with a [time] that is no date, holding the marker: it is
    made into a crash record, the line after it staying in the stream. *)
Lemma unusable_line_opens_crash_run_witness :
  LazyIter.live (iter ok_next)
  /\ try_throws node odd_time_line = true
  /\ lines (iter ok_next) = [] ++ [ok_line]
  /\ ends_run node [ok_line]
  /\ exists w',
       Transport.handleLine node odd_time_line ok_next = (Returned tt, w')
       /\ batch w' = [crash_log (Date_now_ISO node 0) [odd_time_line]]
       /\ lines (iter w') = [ok_line].
Proof.
  assert (H1 : LazyIter.live (iter ok_next)) by (unfold LazyIter.live; simpl; auto).
  assert (H2 : try_throws node odd_time_line = true) by (vm_compute; reflexivity).
  assert (H3 : lines (iter ok_next) = [] ++ [ok_line]) by reflexivity.
  assert (H4 : ends_run node [ok_line]) by (vm_compute; discriminate).
  repeat (split; [assumption |]).
  destruct (unusable_line_opens_crash_run node odd_time_line [] [ok_line] ok_next
              H1 H2 H3 (Forall_nil _) H4) as (w' & E & Hb & Hl & _).
  exists w'. split; [exact E |]. split; [| exact Hl].
  rewrite Hb. reflexivity.
Defined.

Lemma usable_line_is_answered_witness :
  try_throws node no_level_line = false
  /\ exists logs c,
       logs <> []
       /\ Transport.handleLine node no_level_line (start [])
          = (Returned tt, with_batch (batch (start []) ++ logs) (with_clock c (start []))).
Proof.
  assert (H : try_throws node no_level_line = false) by (vm_compute; reflexivity).
  split; [exact H |].
  exact (usable_line_is_answered node no_level_line (start []) H).
Defined.

Lemma driver_drains_the_stream_witness :
  LazyIter.live (iter (start [two_lines]))
  /\ exists w',
       driver node (2 + length (lines (iter (start [two_lines])))) (start [two_lines])
       = Some (Returned tt, w')
       /\ LazyIter.is_done (iter w') = true.
Proof.
  assert (H : LazyIter.live (iter (start [two_lines]))) by apply live_new.
  split; [exact H |].
  destruct (driver_drains_the_stream node (start [two_lines]) H) as (w' & E & Hd & _).
  exists w'. split; [exact E | exact Hd].
Defined.

Lemma driver_handles_lines_in_order_witness :
  LazyIter.live (iter (start [two_lines]))
  /\ lines (iter (start [two_lines])) = [boom_line; no_level_line]
  /\ Forall (fun l => JSON_parse node l <> None) [boom_line; no_level_line]
  /\ exists w',
       driver node 4 (start [two_lines]) = Some (Returned tt, w')
       /\ map (read "level") (batch w') = [Str "error"; Str "warn"].
Proof.
  assert (H1 : LazyIter.live (iter (start [two_lines]))) by apply live_new.
  assert (H2 : lines (iter (start [two_lines])) = [boom_line; no_level_line])
    by (vm_compute; reflexivity).
  assert (H3 : Forall (fun l => JSON_parse node l <> None) [boom_line; no_level_line])
    by (repeat constructor; vm_compute; discriminate).
  repeat (split; [assumption |]).
  destruct (driver_handles_lines_in_order node service (start [two_lines]) H1
              ltac:(rewrite H2; exact H3)) as (w' & E & Hb & _).
  rewrite H2 in E, Hb. exists w'. split; [exact E |].
  rewrite Hb. vm_compute. reflexivity.
Defined.


(** An [error] record whose [message] has no primitive form: making
    its entry throws, the webhook gets nothing, and the batch is posted
    and cleared all the same. *)
Example unconvertible_text_sends_no_alert :
  embeds node service (filter is_alert (batch one_opaque)) = inl TypeError
  /\ alerts (snd (Transport.flush node service accepted Delivered one_opaque)) = []
  /\ posted (snd (Transport.flush node service accepted Delivered one_opaque))
     = [[opaque_log]]
  /\ batch (snd (Transport.flush node service accepted Delivered one_opaque)) = [].
Proof. vm_compute. repeat split; reflexivity. Qed.

(** A [level] with no primitive form makes the [try] block throw: the
    line takes the crash path and, holding no marker, leaves no record. *)
Example unconvertible_level_takes_crash_path :
  try_throws node odd_level_line = true
  /\ Transport.handleLine node odd_level_line (start [])
     = handleLine_catch node odd_level_line (start [])
  /\ batch (snd (Transport.handleLine node odd_level_line (start []))) = [].
Proof. vm_compute. repeat split; reflexivity. Qed.

Lemma crash_dump_reaches_webhook_witness :
  let handled := snd (Transport.handleLine node crash_head crashing) in
  let flushed := snd (Transport.flush node service accepted Delivered handled) in
  LazyIter.live (iter crashing)
  /\ try_throws node crash_head = true
  /\ existsb has_marker (crash_head :: crash_tail) = true
  /\ alerts flushed
     = [[ {| title := "Fatal error occured in service svc";
             description :=
               fence ++ crash_head ++ Str.newline ++ "    at foo.js:1:1" ++ fence |} ]]
  /\ lines (iter flushed) = [ok_line].
Proof.
  intros handled flushed.
  assert (H1 : LazyIter.live (iter crashing)) by (unfold LazyIter.live; simpl; auto).
  assert (H2 : try_throws node crash_head = true) by (vm_compute; reflexivity).
  assert (H3 : existsb has_marker (crash_head :: crash_tail) = true)
    by (vm_compute; reflexivity).
  repeat (split; [assumption |]).
  destruct (crash_dump_reaches_webhook node service crash_head crash_tail [ok_line]
              accepted Delivered crashing H1 eq_refl H2 eq_refl
              ltac:(repeat constructor) ltac:(vm_compute; discriminate) H3 eq_refl)
    as (_ & Ha & _ & Hl).
  split; [exact Ha | exact Hl].
Defined.

Lemma remaining_records_are_posted_at_exit_witness :
  LazyIter.live (iter (start [two_lines]))
  /\ lines (iter (start [two_lines])) = [boom_line; no_level_line]
  /\ Forall (fun l => JSON_parse node l <> None) [boom_line; no_level_line]
  /\ exists w',
       finish node service 4 accepted Delivered (start [two_lines])
       = Some (Returned tt, w')
       /\ map (map (read "level")) (posted w') = [[Str "error"; Str "warn"]]
       /\ batch w' = [].
Proof.
  assert (H1 : LazyIter.live (iter (start [two_lines]))) by apply live_new.
  assert (H2 : lines (iter (start [two_lines])) = [boom_line; no_level_line])
    by (vm_compute; reflexivity).
  assert (H3 : Forall (fun l => JSON_parse node l <> None) [boom_line; no_level_line])
    by (repeat constructor; vm_compute; discriminate).
  repeat (split; [assumption |]).
  destruct (remaining_records_are_posted_at_exit node service accepted Delivered
              (start [two_lines]) H1 ltac:(rewrite H2; exact H3) eq_refl)
    as (w' & E & Hp & Hb & _).
  rewrite H2 in E, Hp. exists w'. split; [exact E |]. split; [| exact Hb].
  rewrite Hp. vm_compute. reflexivity.
Defined.

(** A new stream whose first submission the sink refuses. *)
Lemma ensureStream_seeds_the_new_stream_witness :
  let result :=
    Transport.ensureStream node service no_streams accepted unavailable accepted
      SyntaxError "trace" (start []) in
  some_named service [] = inr false
  /\ fst result = Returned tt
  /\ posted (snd result) = [[stream_created_log (Date_now_ISO node 0)]]
  /\ batch (snd result) = []
  /\ alerts (snd result) = [].
Proof.
  intros result. split; [reflexivity |].
  destruct (ensureStream_seeds_the_new_stream node service no_streams accepted
              unavailable accepted SyntaxError "trace" [] (start [])
              eq_refl eq_refl eq_refl eq_refl eq_refl)
    as (Hp & Hb & Ha & Hr & _).
  split; [exact (Hr eq_refl) |]. split; [exact Hp |]. split; [exact Hb | exact Ha].
Defined.

End Concrete.
